(** * Virtual Quantum Lab: the physics computation layer

    A shallow embedding of the numeric routines of the repository
    (src/utils/physicsFormulas.js, src/utils/collisionDetection.js, the
    field-line tracer of the electric field visualisation and the
    interference routine of the wave visualisation), and the properties
    the specification states about them.

    Numbers.  A JavaScript number is modelled by [num]: a real number, one
    of the two infinities, or NaN.  Arithmetic on finite values is exact
    (no rounding, no overflow, and a single unsigned zero that behaves as
    +0); the special values follow IEEE 754 as JavaScript exposes it:
    [x / 0] is an infinity or NaN, the square root of a negative number is
    NaN, every comparison with NaN is false, and [0] and NaN are falsy.
    A property proved in this model is a property of the formulas that the
    code evaluates.  Where the rounding of the double arithmetic decides a
    statement, the code is embedded a second time with every operation
    rounded ([Rounded]), and the collision response a third time on the
    doubles themselves ([Binary64]). *)

From Stdlib Require Import Reals Lra Lia List Bool String.
From Stdlib Require PrimFloat.
Import ListNotations.

Local Open Scope R_scope.

(** ** Decidable tests on the reals, as booleans *)

Definition Rltb (a b : R) : bool := if Rlt_dec a b then true else false.
Definition Rleb (a b : R) : bool := if Rle_dec a b then true else false.
Definition Reqb (a b : R) : bool := if Req_dec_T a b then true else false.

(** ** JavaScript numbers *)

Inductive num : Type :=
| Fin (r : R)
| PInf
| NInf
| NaN.

Arguments Fin r%_R.

Declare Scope num_scope.
Delimit Scope num_scope with num.
Bind Scope num_scope with num.

Module Js.

(** [+] *)
Definition add (a b : num) : num :=
  match a, b with
  | NaN, _ | _, NaN => NaN
  | Fin x, Fin y => Fin (x + y)
  | PInf, NInf | NInf, PInf => NaN
  | PInf, _ | _, PInf => PInf
  | NInf, _ | _, NInf => NInf
  end.

(** unary [-] *)
Definition neg (a : num) : num :=
  match a with
  | Fin x => Fin (- x)
  | PInf => NInf
  | NInf => PInf
  | NaN => NaN
  end.

(** binary [-] *)
Definition sub (a b : num) : num := add a (neg b).

(** The infinity that has the sign of the real [x], NaN when [x] is zero. *)
Definition signed_inf (x : R) : num :=
  if Rltb 0 x then PInf else if Rltb x 0 then NInf else NaN.

(** [*] *)
Definition mul (a b : num) : num :=
  match a, b with
  | NaN, _ | _, NaN => NaN
  | Fin x, Fin y => Fin (x * y)
  | Fin x, PInf | PInf, Fin x => signed_inf x
  | Fin x, NInf | NInf, Fin x => signed_inf (- x)
  | PInf, PInf | NInf, NInf => PInf
  | PInf, NInf | NInf, PInf => NInf
  end.

(** [/]: a finite non-zero number over zero is an infinity, [0 / 0] and
    the quotient of two infinities are NaN. *)
Definition div (a b : num) : num :=
  match a, b with
  | NaN, _ | _, NaN => NaN
  | Fin x, Fin y => if Reqb y 0 then signed_inf x else Fin (x / y)
  | Fin _, PInf | Fin _, NInf => Fin 0
  | PInf, Fin y => if Rleb 0 y then PInf else NInf
  | NInf, Fin y => if Rleb 0 y then NInf else PInf
  | _, _ => NaN
  end.

(** [<], [<=], [>], [>=]: false as soon as one side is NaN. *)
Definition ltb (a b : num) : bool :=
  match a, b with
  | NaN, _ | _, NaN => false
  | Fin x, Fin y => Rltb x y
  | NInf, NInf | PInf, _ | _, NInf => false
  | NInf, _ | _, PInf => true
  end.

Definition leb (a b : num) : bool :=
  match a, b with
  | NaN, _ | _, NaN => false
  | Fin x, Fin y => Rleb x y
  | NInf, _ | _, PInf => true
  | PInf, _ | _, NInf => false
  end.

Definition gtb (a b : num) : bool := ltb b a.
Definition geb (a b : num) : bool := leb b a.

(** Truthiness of a number: [0] and NaN are falsy. *)
Definition truthy (a : num) : bool :=
  match a with
  | Fin x => negb (Reqb x 0)
  | NaN => false
  | PInf | NInf => true
  end.

(** [x || d] where [x] is a numeric property that may be missing. *)
Definition or_num (x : option num) (d : num) : num :=
  match x with
  | Some v => if truthy v then v else d
  | None => d
  end.

(** [x || d] where [x] is an object property that may be missing; an
    object is always truthy. *)
Definition or_obj {A : Type} (x : option A) (d : A) : A :=
  match x with
  | Some v => v
  | None => d
  end.

(** A number is finite: neither an infinity nor NaN ([Number.isFinite]). *)
Definition isFinite (a : num) : bool :=
  match a with
  | Fin _ => true
  | _ => false
  end.

End Js.

Infix "+" := Js.add : num_scope.
Infix "-" := Js.sub : num_scope.
Infix "*" := Js.mul : num_scope.
Infix "/" := Js.div : num_scope.
Notation "- x" := (Js.neg x) : num_scope.
Infix "<?" := Js.ltb (at level 70) : num_scope.
Infix "<=?" := Js.leb (at level 70) : num_scope.
Infix ">?" := Js.gtb (at level 70) : num_scope.
Infix ">=?" := Js.geb (at level 70) : num_scope.
Notation "x '|||' d" := (Js.or_num x d) (at level 50, left associativity) : num_scope.

(** ** The [Math] object *)

Module Math.

Definition PI : num := Fin PI.

Definition sqrt (a : num) : num :=
  match a with
  | Fin x => if Rltb x 0 then NaN else Fin (sqrt x)
  | PInf => PInf
  | NInf | NaN => NaN
  end.

Definition exp (a : num) : num :=
  match a with
  | Fin x => Fin (exp x)
  | PInf => PInf
  | NInf => Fin 0
  | NaN => NaN
  end.

Definition sin (a : num) : num :=
  match a with
  | Fin x => Fin (sin x)
  | _ => NaN
  end.

Definition cos (a : num) : num :=
  match a with
  | Fin x => Fin (cos x)
  | _ => NaN
  end.

Definition abs (a : num) : num :=
  match a with
  | Fin x => Fin (Rabs x)
  | PInf | NInf => PInf
  | NaN => NaN
  end.

(** [Math.max] and [Math.min] of two arguments: NaN if either is NaN. *)
Definition max (a b : num) : num :=
  match a, b with
  | NaN, _ | _, NaN => NaN
  | _, _ => if Js.ltb a b then b else a
  end.

Definition min (a b : num) : num :=
  match a, b with
  | NaN, _ | _, NaN => NaN
  | _, _ => if Js.ltb b a then b else a
  end.

(** [Math.asin]: NaN outside [-1, 1]. *)
Definition asin (a : num) : num :=
  match a with
  | Fin x => if Rltb x (-1) || Rltb 1 x then NaN else Fin (asin x)
  | _ => NaN
  end.

End Math.

(** ** Completions

    A call either returns a value or throws.  The numeric routines below
    contain no [throw] statement and JavaScript arithmetic on numbers never
    throws, so every embedded body ends in [Return]. *)

Inductive error : Type :=
| DomainError
| OtherError.

Inductive completion (A : Type) : Type :=
| Return (v : A)
| Throw (e : error).

Arguments Return {A} v.
Arguments Throw {A} e.

Local Open Scope num_scope.

(** ** physicsFormulas.js *)

Module QuantumFormulas.

(** [tunnelingProbability: (energy, barrierHeight, barrierWidth, mass)] *)
Definition tunnelingProbability
    (energy barrierHeight barrierWidth mass : num) : completion num :=
  if energy >=? barrierHeight then Return (Fin 1)
  else
    let hbar := Fin 1.0545718e-34 in
    let kappa := Math.sqrt (Fin 2 * mass * (barrierHeight - energy)) / hbar in
    Return (Math.exp (- (Fin 2) * kappa * barrierWidth)).

(** [deBroglieWavelength: (momentum)] *)
Definition deBroglieWavelength (momentum : num) : num :=
  let h := Fin 6.626e-34 in
  h / momentum.

(** [photonEnergy: (frequency)] *)
Definition photonEnergy (frequency : num) : num :=
  let h := Fin 6.626e-34 in
  h * frequency.

(** [uncertaintyPrinciple: (uncertaintyX, uncertaintyP)] *)
Definition uncertaintyPrinciple (uncertaintyX uncertaintyP : num) : bool :=
  let hbar := Fin 1.0545718e-34 in
  uncertaintyX * uncertaintyP >=? hbar / Fin 2.

End QuantumFormulas.

Module RelativityFormulas.

(** [gamma: (velocity, c = 3e8)]; the second argument may be omitted. *)
Definition gamma (velocity : num) (c : option num) : completion num :=
  let c := match c with Some c => c | None => Fin 3e8 end in
  let beta := velocity / c in
  Return (Fin 1 / Math.sqrt (Fin 1 - beta * beta)).

(** Sequencing of calls: an exception of the first call propagates. *)
Definition andThen {A B : Type} (m : completion A) (f : A -> completion B)
    : completion B :=
  match m with
  | Return v => f v
  | Throw e => Throw e
  end.

(** [timeDilation: (properTime, velocity, c = 3e8)] *)
Definition timeDilation (properTime velocity : num) (c : option num)
    : completion num :=
  let c := match c with Some c => c | None => Fin 3e8 end in
  andThen (gamma velocity (Some c)) (fun gamma =>
  Return (gamma * properTime)).

(** [lengthContraction: (properLength, velocity, c = 3e8)] *)
Definition lengthContraction (properLength velocity : num) (c : option num)
    : completion num :=
  let c := match c with Some c => c | None => Fin 3e8 end in
  andThen (gamma velocity (Some c)) (fun gamma =>
  Return (properLength / gamma)).

(** [relativisticMomentum: (mass, velocity, c = 3e8)] *)
Definition relativisticMomentum (mass velocity : num) (c : option num)
    : completion num :=
  let c := match c with Some c => c | None => Fin 3e8 end in
  andThen (gamma velocity (Some c)) (fun gamma =>
  Return (gamma * mass * velocity)).

(** [relativisticEnergy: (mass, velocity, c = 3e8)] *)
Definition relativisticEnergy (mass velocity : num) (c : option num)
    : completion num :=
  let c := match c with Some c => c | None => Fin 3e8 end in
  andThen (gamma velocity (Some c)) (fun gamma =>
  Return (gamma * mass * c * c)).

End RelativityFormulas.

(** ** Plain objects and THREE.Vector3 *)

(** An object literal [{ x, y, z }] used as a position or a velocity; the
    code guards a missing [z] with [|| 0]. *)
Module Vec.
Record t : Type := mk { x : num; y : num; z : option num }.
End Vec.

(** A two-dimensional position [{ x, y }]. *)
Module Vec2.
Record t : Type := mk { x : num; y : num }.
End Vec2.

(** The part of three.js's [Vector3] that the tracer uses.  The class
    belongs to the three.js package, not to this repository; its methods
    are written from the package's documented behaviour.  The constructor
    defaults a missing argument to [0]. *)
Module Vector3.
Record t : Type := mk { x : num; y : num; z : num }.

Definition new (x y : num) (z : option num) : t :=
  mk x y (match z with Some z => z | None => Fin 0 end).

Definition clone (v : t) : t := mk (x v) (y v) (z v).

Definition add (v w : t) : t := mk (x v + x w) (y v + y w) (z v + z w).

Definition multiplyScalar (v : t) (s : num) : t :=
  mk (x v * s) (y v * s) (z v * s).

Definition distanceTo (v w : t) : num :=
  let dx := x v - x w in
  let dy := y v - y w in
  let dz := z v - z w in
  Math.sqrt (dx * dx + dy * dy + dz * dz).
End Vector3.

(** ** collisionDetection.js *)

Module Size.
Record t : Type := mk { width : num; height : num; depth : option num }.
End Size.

Module Body.
Record t : Type := mk {
  position : Vec.t;
  velocity : option Vec.t;
  mass : option num;
  radius : option num;
  size : option Size.t;
  shape : option string;
  restitution : option num }.
End Body.

Module Collision.
Record t : Type := mk {
  isColliding : bool;
  distance : num;
  minDistance : option num;
  normal : Vector3.t;
  overlap : num }.
End Collision.

Module Velocities.
Record t : Type := mk { velocity1 : Vec.t; velocity2 : Vec.t }.
End Velocities.

(** [s || 'circle']: a missing or empty shape string is a circle. *)
Definition or_shape (s : option string) : string :=
  match s with
  | Some EmptyString | None => "circle"%string
  | Some s => s
  end.

Definition checkCircleCollision (obj1 obj2 : Body.t) : Collision.t :=
  let dx := obj2.(Body.position).(Vec.x) - obj1.(Body.position).(Vec.x) in
  let dy := obj2.(Body.position).(Vec.y) - obj1.(Body.position).(Vec.y) in
  let dz := (obj2.(Body.position).(Vec.z) ||| Fin 0)
            - (obj1.(Body.position).(Vec.z) ||| Fin 0) in
  let distance := Math.sqrt (dx * dx + dy * dy + dz * dz) in
  let minDistance := (obj1.(Body.radius) ||| Fin 0.5) + (obj2.(Body.radius) ||| Fin 0.5) in
  Collision.mk
    (distance <? minDistance)
    distance
    (Some minDistance)
    (if distance >? Fin 0
     then Vector3.mk (dx / distance) (dy / distance) (dz / distance)
     else Vector3.mk (Fin 1) (Fin 0) (Fin 0))
    (Math.max (Fin 0) (minDistance - distance)).

Definition checkBoxCollision (obj1 obj2 : Body.t) : bool :=
  let size1 := Js.or_obj obj1.(Body.size) (Size.mk (Fin 1) (Fin 1) (Some (Fin 1))) in
  let size2 := Js.or_obj obj2.(Body.size) (Size.mk (Fin 1) (Fin 1) (Some (Fin 1))) in
  (obj1.(Body.position).(Vec.x) <? obj2.(Body.position).(Vec.x) + size2.(Size.width)) &&
  (obj1.(Body.position).(Vec.x) + size1.(Size.width) >? obj2.(Body.position).(Vec.x)) &&
  (obj1.(Body.position).(Vec.y) <? obj2.(Body.position).(Vec.y) + size2.(Size.height)) &&
  (obj1.(Body.position).(Vec.y) + size1.(Size.height) >? obj2.(Body.position).(Vec.y)) &&
  ((obj1.(Body.position).(Vec.z) ||| Fin 0)
     <? (obj2.(Body.position).(Vec.z) ||| Fin 0) + (size2.(Size.depth) ||| Fin 1)) &&
  ((obj1.(Body.position).(Vec.z) ||| Fin 0) + (size1.(Size.depth) ||| Fin 1)
     >? (obj2.(Body.position).(Vec.z) ||| Fin 0)).

Definition checkCollision (obj1 obj2 : Body.t) : Collision.t :=
  let shape1 := or_shape obj1.(Body.shape) in
  let shape2 := or_shape obj2.(Body.shape) in
  if String.eqb shape1 "circle"%string && String.eqb shape2 "circle"%string then
    checkCircleCollision obj1 obj2
  else if String.eqb shape1 "box"%string && String.eqb shape2 "box"%string then
    Collision.mk
      (checkBoxCollision obj1 obj2)
      (Fin 0)
      None
      (Vector3.mk (Fin 0) (Fin 0) (Fin 0))
      (Fin 0)
  else
    let circle := if String.eqb shape1 "circle"%string then obj1 else obj2 in
    let box := if String.eqb shape1 "box"%string then obj1 else obj2 in
    let size := Js.or_obj box.(Body.size) (Size.mk (Fin 1) (Fin 1) None) in
    let closestX :=
      Math.max box.(Body.position).(Vec.x)
        (Math.min circle.(Body.position).(Vec.x)
           (box.(Body.position).(Vec.x) + size.(Size.width))) in
    let closestY :=
      Math.max box.(Body.position).(Vec.y)
        (Math.min circle.(Body.position).(Vec.y)
           (box.(Body.position).(Vec.y) + size.(Size.height))) in
    let dx := circle.(Body.position).(Vec.x) - closestX in
    let dy := circle.(Body.position).(Vec.y) - closestY in
    let distance := Math.sqrt (dx * dx + dy * dy) in
    let radius := circle.(Body.radius) ||| Fin 0.5 in
    Collision.mk
      (distance <? radius)
      distance
      None
      (if distance >? Fin 0
       then Vector3.mk (dx / distance) (dy / distance) (Fin 0)
       else Vector3.mk (Fin 1) (Fin 0) (Fin 0))
      (Math.max (Fin 0) (radius - distance)).

(** The literal [{ x: 0, y: 0, z: 0 }]. *)
Definition zero_velocity : Vec.t := Vec.mk (Fin 0) (Fin 0) (Some (Fin 0)).

Definition resolveCollision (obj1 obj2 : Body.t) (collision : Collision.t)
    : Velocities.t :=
  if negb collision.(Collision.isColliding) then
    Velocities.mk
      (Js.or_obj obj1.(Body.velocity) zero_velocity)
      (Js.or_obj obj2.(Body.velocity) zero_velocity)
  else
    let v1 := Js.or_obj obj1.(Body.velocity) zero_velocity in
    let v2 := Js.or_obj obj2.(Body.velocity) zero_velocity in
    let m1 := obj1.(Body.mass) ||| Fin 1 in
    let m2 := obj2.(Body.mass) ||| Fin 1 in
    let normal := collision.(Collision.normal) in
    (* Relative velocity *)
    let rvx := v2.(Vec.x) - v1.(Vec.x) in
    let rvy := v2.(Vec.y) - v1.(Vec.y) in
    let rvz := (v2.(Vec.z) ||| Fin 0) - (v1.(Vec.z) ||| Fin 0) in
    (* Relative velocity along normal *)
    let velAlongNormal :=
      rvx * normal.(Vector3.x) + rvy * normal.(Vector3.y) + rvz * normal.(Vector3.z) in
    (* Don't resolve if velocities are separating *)
    if velAlongNormal >? Fin 0 then Velocities.mk v1 v2
    else
      (* Restitution coefficient *)
      let e := Math.min (obj1.(Body.restitution) ||| Fin 0.8)
                        (obj2.(Body.restitution) ||| Fin 0.8) in
      (* Impulse scalar *)
      let j := - (Fin 1 + e) * velAlongNormal / (Fin 1 / m1 + Fin 1 / m2) in
      (* Apply impulse *)
      let impulse :=
        Vector3.mk (j * normal.(Vector3.x)) (j * normal.(Vector3.y)) (j * normal.(Vector3.z)) in
      Velocities.mk
        (Vec.mk (v1.(Vec.x) - impulse.(Vector3.x) / m1)
                (v1.(Vec.y) - impulse.(Vector3.y) / m1)
                (Some ((v1.(Vec.z) ||| Fin 0) - impulse.(Vector3.z) / m1)))
        (Vec.mk (v2.(Vec.x) + impulse.(Vector3.x) / m2)
                (v2.(Vec.y) + impulse.(Vector3.y) / m2)
                (Some ((v2.(Vec.z) ||| Fin 0) + impulse.(Vector3.z) / m2))).

(** The constant [velAlongNormal] of [resolveCollision]: the relative
    velocity of the two bodies along the normal of the collision record. *)
Definition velAlongNormal (obj1 obj2 : Body.t) (collision : Collision.t) : num :=
  let v1 := Js.or_obj obj1.(Body.velocity) zero_velocity in
  let v2 := Js.or_obj obj2.(Body.velocity) zero_velocity in
  let normal := collision.(Collision.normal) in
  let rvx := v2.(Vec.x) - v1.(Vec.x) in
  let rvy := v2.(Vec.y) - v1.(Vec.y) in
  let rvz := (v2.(Vec.z) ||| Fin 0) - (v1.(Vec.z) ||| Fin 0) in
  rvx * normal.(Vector3.x) + rvy * normal.(Vector3.y) + rvz * normal.(Vector3.z).

(** The velocity a body enters [resolveCollision] with. *)
Definition velocityOf (obj : Body.t) : Vec.t :=
  Js.or_obj obj.(Body.velocity) zero_velocity.

(** Two velocity objects carry the same velocity; a missing [z] counts as
    [0], as everywhere in the module. *)
Definition same_velocity (v w : Vec.t) : Prop :=
  v.(Vec.x) = w.(Vec.x) /\ v.(Vec.y) = w.(Vec.y)
  /\ (v.(Vec.z) ||| Fin 0) = (w.(Vec.z) ||| Fin 0).

(** The object [v] has the finite components [(x, y, z)]. *)
Definition finite_vec (v : Vec.t) (x y z : R) : Prop :=
  v.(Vec.x) = Fin x /\ v.(Vec.y) = Fin y /\ (v.(Vec.z) ||| Fin 0) = Fin z.

(** The inverse mass [1 / m1 + 1 / m2] that divides the impulse. *)
Definition totalInverseMass (obj1 obj2 : Body.t) : num :=
  Fin 1 / (obj1.(Body.mass) ||| Fin 1) + Fin 1 / (obj2.(Body.mass) ||| Fin 1).

(** The restitution [e] that [resolveCollision] uses. *)
Definition restitutionOf (obj1 obj2 : Body.t) : num :=
  Math.min (obj1.(Body.restitution) ||| Fin 0.8) (obj2.(Body.restitution) ||| Fin 0.8).

(** Two unit-mass circles of restitution 1, their centres 0.8 apart on the
    x axis, moving towards each other at unit speed. *)
Definition ball_left : Body.t :=
  Body.mk (Vec.mk (Fin 0) (Fin 0) None)
          (Some (Vec.mk (Fin 1) (Fin 0) None))
          None None None None (Some (Fin 1)).

Definition ball_right : Body.t :=
  Body.mk (Vec.mk (Fin 0.8) (Fin 0) None)
          (Some (Vec.mk (Fin (-1)) (Fin 0) None))
          None None None None (Some (Fin 1)).

(** [checkAllCollisions (objects)].  An object of the array carries the
    properties that [checkCollision] reads, given by [body], and the flag
    [collisionEnabled], which may be missing. *)
Section AllCollisions.

Variable Obj : Type.
Variable body : Obj -> Body.t.
Variable collisionEnabled : Obj -> option bool.

(** [obj.collisionEnabled === false] *)
Definition disabled (obj : Obj) : bool :=
  match collisionEnabled obj with
  | Some false => true
  | _ => false
  end.

(** The inner loop over [j], for a fixed [obj1 = objects[i]] and the
    objects that follow it. *)
Fixpoint collisionsWith (obj1 : Obj) (following : list Obj)
    : list (Obj * Obj * Collision.t) :=
  match following with
  | [] => []
  | obj2 :: following' =>
      (* Skip if objects don't have collision enabled *)
      if disabled obj1 || disabled obj2 then collisionsWith obj1 following'
      else
        let collision := checkCollision (body obj1) (body obj2) in
        if collision.(Collision.isColliding)
        then (obj1, obj2, collision) :: collisionsWith obj1 following'
        else collisionsWith obj1 following'
  end.

(** The outer loop over [i]. *)
Fixpoint checkAllCollisions (objects : list Obj)
    : list (Obj * Obj * Collision.t) :=
  match objects with
  | [] => []
  | obj1 :: following =>
      collisionsWith obj1 following ++ checkAllCollisions following
  end.

End AllCollisions.

(** A circle of mass 2 moving at unit speed along x towards a circle of
    mass 1 at rest, both of restitution 0.5, and the record of their
    contact along the x axis. *)
Definition heavy_ball : Body.t :=
  Body.mk (Vec.mk (Fin 0) (Fin 0) None)
          (Some (Vec.mk (Fin 1) (Fin 0) None))
          (Some (Fin 2)) None None None (Some (Fin 0.5)).

Definition light_ball : Body.t :=
  Body.mk (Vec.mk (Fin 0.8) (Fin 0) None)
          None (Some (Fin 1)) None None None (Some (Fin 0.5)).

Definition contact_along_x : Collision.t :=
  Collision.mk true (Fin 0.8) (Some (Fin 1))
               (Vector3.mk (Fin 1) (Fin 0) (Fin 0)) (Fin 0.2).

(** ** The electric field visualisation: [calculateFieldLine] *)

Module Charge.
Record t : Type := mk { position : Vec.t; q : num }.
End Charge.

(** Why a trace stopped.  The source only returns the points; the reason is
    recorded next to them so that statements about the way a trace ends can
    be written down.  [FieldTooWeak] is the first [break]; the second
    [break] is [TooClose] when the flag [tooClose] was set and
    [OutOfBounds] otherwise; [MaxSteps] is the loop condition failing. *)
Inductive stop : Type :=
| FieldTooWeak
| TooClose
| OutOfBounds
| MaxSteps.

Inductive step_result : Type :=
| Push (nextPoint : Vector3.t)
| Break (why : stop).

Section FieldLine.

Variable charges : list Charge.t.
Variable stepSize : num.

(** Coulomb's constant *)
Definition k : num := Fin 8.99e9.

(** The first [charges.forEach]: the field accumulated in
    [fieldX, fieldY, fieldZ] at [currentPoint]. *)
Definition totalField (currentPoint : Vector3.t) : num * num * num :=
  fold_left
    (fun '(fieldX, fieldY, fieldZ) charge =>
       let dx := currentPoint.(Vector3.x) - charge.(Charge.position).(Vec.x) in
       let dy := currentPoint.(Vector3.y) - charge.(Charge.position).(Vec.y) in
       let dz := (Some currentPoint.(Vector3.z) ||| Fin 0)
                 - (charge.(Charge.position).(Vec.z) ||| Fin 0) in
       let distanceSq := dx * dx + dy * dy + dz * dz in
       let distance := Math.sqrt distanceSq in
       if distance <? Fin 0.3 then (fieldX, fieldY, fieldZ) (* Too close to charge *)
       else
         let fieldMagnitude := (k * charge.(Charge.q)) / distanceSq in
         (fieldX + fieldMagnitude * (dx / distance),
          fieldY + fieldMagnitude * (dy / distance),
          fieldZ + fieldMagnitude * (dz / distance)))
    charges (Fin 0, Fin 0, Fin 0).

(** The second [charges.forEach]: the flag [tooClose] for [nextPoint]. *)
Definition tooCloseTo (nextPoint : Vector3.t) : bool :=
  fold_left
    (fun tooClose charge =>
       let dist :=
         Vector3.distanceTo nextPoint
           (Vector3.new charge.(Charge.position).(Vec.x)
                        charge.(Charge.position).(Vec.y)
                        charge.(Charge.position).(Vec.z)) in
       if dist <? Fin 0.3 then true else tooClose)
    charges false.

(** One iteration of the loop body at [currentPoint]. *)
Definition fieldLineStep (currentPoint : Vector3.t) : step_result :=
  let '(fieldX, fieldY, fieldZ) := totalField currentPoint in
  (* Normalize and step along field direction *)
  let fieldMagnitude :=
    Math.sqrt (fieldX * fieldX + fieldY * fieldY + fieldZ * fieldZ) in
  if fieldMagnitude <? Fin 0.01 then Break FieldTooWeak
  else
    let direction :=
      Vector3.mk (fieldX / fieldMagnitude) (fieldY / fieldMagnitude)
                 (fieldZ / fieldMagnitude) in
    let nextPoint :=
      Vector3.add (Vector3.clone currentPoint)
                  (Vector3.multiplyScalar direction stepSize) in
    (* Check if too far or too close to any charge *)
    let tooClose := tooCloseTo nextPoint in
    if tooClose then Break TooClose
    else if (Math.abs nextPoint.(Vector3.x) >? Fin 15)
            || (Math.abs nextPoint.(Vector3.y) >? Fin 15)
    then Break OutOfBounds
    else Push nextPoint.

(** The [for] loop with [steps] iterations left: [points] is the array
    built so far without its last element, [currentPoint] that last
    element. *)
Fixpoint fieldLineLoop (steps : nat) (points : list Vector3.t)
    (currentPoint : Vector3.t) : list Vector3.t * stop :=
  match steps with
  | O => (points ++ [currentPoint], MaxSteps)
  | S steps' =>
      match fieldLineStep currentPoint with
      | Break why => (points ++ [currentPoint], why)
      | Push nextPoint => fieldLineLoop steps' (points ++ [currentPoint]) nextPoint
      end
  end.

End FieldLine.

(** [calculateFieldLine (startPoint, charges, maxSteps = 200, stepSize = 0.1)]
    together with the reason the loop ended.  [maxSteps] counts loop
    iterations and is a natural number. *)
Definition traceFieldLine (startPoint : Vec.t) (charges : list Charge.t)
    (maxSteps : option nat) (stepSize : option num) : list Vector3.t * stop :=
  let maxSteps := match maxSteps with Some n => n | None => 200%nat end in
  let stepSize := match stepSize with Some s => s | None => Fin 0.1 end in
  fieldLineLoop charges stepSize maxSteps []
    (Vector3.new startPoint.(Vec.x) startPoint.(Vec.y) startPoint.(Vec.z)).

Definition calculateFieldLine (startPoint : Vec.t) (charges : list Charge.t)
    (maxSteps : option nat) (stepSize : option num) : list Vector3.t :=
  fst (traceFieldLine startPoint charges maxSteps stepSize).

(** The seed points of the field-line bundle, from the effect that draws
    it: line [i] of the [numLines = 16] lines around [charge] starts at
    radius [0.5] and angle [(i / numLines) * Math.PI * 2]. *)
Definition seedPoint (charge : Charge.t) (i : nat) : Vec.t :=
  let numLines := Fin 16 in
  let angle := (Fin (INR i) / numLines) * Math.PI * Fin 2 in
  let startRadius := Fin 0.5 in
  Vec.mk (charge.(Charge.position).(Vec.x) + startRadius * Math.cos angle)
         (charge.(Charge.position).(Vec.y) + startRadius * Math.sin angle)
         (Some (charge.(Charge.position).(Vec.z) ||| Fin 0)).

(** The [distance] of the first loop: from [currentPoint] to [charge]. *)
Definition chargeDistance (currentPoint : Vector3.t) (charge : Charge.t) : num :=
  let dx := currentPoint.(Vector3.x) - charge.(Charge.position).(Vec.x) in
  let dy := currentPoint.(Vector3.y) - charge.(Charge.position).(Vec.y) in
  let dz := (Some currentPoint.(Vector3.z) ||| Fin 0)
            - (charge.(Charge.position).(Vec.z) ||| Fin 0) in
  Math.sqrt (dx * dx + dy * dy + dz * dz).

(** The vector [new THREE.Vector3 (charge.position ...)] of the second loop. *)
Definition chargeCentre (charge : Charge.t) : Vector3.t :=
  Vector3.new charge.(Charge.position).(Vec.x)
              charge.(Charge.position).(Vec.y)
              charge.(Charge.position).(Vec.z).

(** A charge of the data model at the finite position [(cx, cy, cz)], a
    missing [z] standing for [0], with the finite value [q]. *)
Definition finite_charge (charge : Charge.t) (cx cy cz q : R) : Prop :=
  charge.(Charge.position).(Vec.x) = Fin cx
  /\ charge.(Charge.position).(Vec.y) = Fin cy
  /\ (charge.(Charge.position).(Vec.z) = Some (Fin cz)
      \/ (charge.(Charge.position).(Vec.z) = None /\ cz = 0%R))
  /\ charge.(Charge.q) = Fin q.

(** Squared distance and distance of the real point [(px, py, pz)] from
    the real centre [(cx, cy, cz)]. *)
Definition dist2 (cx cy cz px py pz : R) : R :=
  ((px - cx) * (px - cx) + (py - cy) * (py - cy) + (pz - cz) * (pz - cz))%R.

Definition dist (cx cy cz px py pz : R) : R := sqrt (dist2 cx cy cz px py pz).

(** A start point at the finite position [(x, y, z)], a missing [z]
    standing for [0]. *)
Definition finite_position (v : Vec.t) (x y z : R) : Prop :=
  v.(Vec.x) = Fin x /\ v.(Vec.y) = Fin y
  /\ (v.(Vec.z) = Some (Fin z) \/ (v.(Vec.z) = None /\ z = 0%R)).

(** The point at distance [t] from the centre [(cx, cy, cz)] in the
    direction [(ux, uy, uz)]. *)
Definition rayPoint (cx cy cz ux uy uz t : R) : Vector3.t :=
  Vector3.mk (Fin (cx + t * ux)) (Fin (cy + t * uy)) (Fin (cz + t * uz)).

(** Two example charges at the origin: one coulomb, and a tenth of a
    picocoulomb. *)
Definition unit_charge : Charge.t :=
  Charge.mk (Vec.mk (Fin 0) (Fin 0) (Some (Fin 0))) (Fin 1).

Definition faint_charge : Charge.t :=
  Charge.mk (Vec.mk (Fin 0) (Fin 0) (Some (Fin 0))) (Fin 1e-13).

(** [R] holds between every element of the list and the next one. *)
Fixpoint stepwise {A : Type} (R : A -> A -> Prop) (l : list A) : Prop :=
  match l with
  | a :: (b :: _) as rest => R a b /\ stepwise R rest
  | _ => True
  end.

(** The point [p] is strictly nearer to [centre] than [p']. *)
Definition nearer (centre p p' : Vector3.t) : Prop :=
  (Vector3.distanceTo p centre <? Vector3.distanceTo p' centre) = true.

(** What the loop has checked of a point before pushing it: no charge is
    within [0.3] of it, and neither [|x|] nor [|y|] exceeds [15]. *)
Definition admissible (charges : list Charge.t) (p : Vector3.t) : Prop :=
  Forall (fun charge =>
            (Vector3.distanceTo p (chargeCentre charge) <? Fin 0.3) = false)
         charges
  /\ (Math.abs p.(Vector3.x) >? Fin 15) = false
  /\ (Math.abs p.(Vector3.y) >? Fin 15) = false.

(** ** The wave visualisation: [calculateInterference] *)

Module WaveSource.
Record t : Type := mk {
  position : Vec2.t;
  amplitude : num;
  wavelength : num;
  frequency : num;
  phase : option num }.
End WaveSource.

Module Interference.
Record t : Type := mk { amplitude : num; intensity : num }.
End Interference.

(** [phases[idx]]; reading past the end gives [undefined], which is NaN in
    arithmetic. *)
Definition at_index (phases : list num) (idx : nat) : num := nth idx phases NaN.

Definition calculateInterference (x y : num) (sources : list WaveSource.t)
    (time : num) : Interference.t :=
  let '(totalAmplitude, phases) :=
    fold_left
      (fun '(totalAmplitude, phases) source =>
         let dx := x - source.(WaveSource.position).(Vec2.x) in
         let dy := y - source.(WaveSource.position).(Vec2.y) in
         let distance := Math.sqrt (dx * dx + dy * dy) in
         let phase :=
           Fin 2 * Math.PI
             * (distance / source.(WaveSource.wavelength)
                - source.(WaveSource.frequency) * time)
           + (source.(WaveSource.phase) ||| Fin 0) in
         let amplitudeAtPoint :=
           source.(WaveSource.amplitude) / (Fin 1 + distance * Fin 0.1) in
         (totalAmplitude + amplitudeAtPoint * Math.sin phase, phases ++ [phase]))
      sources (Fin 0, []) in
  let totalIntensity :=
    if (1 <? List.length sources)%nat then
      let '(realPart, imagPart, _) :=
        fold_left
          (fun '(realPart, imagPart, idx) source =>
             let dx := x - source.(WaveSource.position).(Vec2.x) in
             let dy := y - source.(WaveSource.position).(Vec2.y) in
             let distance := Math.sqrt (dx * dx + dy * dy) in
             let amplitudeAtPoint :=
               source.(WaveSource.amplitude) / (Fin 1 + distance * Fin 0.1) in
             let phase := at_index phases idx in
             (realPart + amplitudeAtPoint * Math.cos phase,
              imagPart + amplitudeAtPoint * Math.sin phase,
              S idx))
          sources (Fin 0, Fin 0, O) in
      realPart * realPart + imagPart * imagPart
    else totalAmplitude * totalAmplitude in
  Interference.mk totalAmplitude totalIntensity.

(** The three quantities that both loops of [calculateInterference]
    compute for a source: [distance], [phase] and [amplitudeAtPoint]. *)
Definition sourceDistance (x y : num) (source : WaveSource.t) : num :=
  let dx := x - source.(WaveSource.position).(Vec2.x) in
  let dy := y - source.(WaveSource.position).(Vec2.y) in
  Math.sqrt (dx * dx + dy * dy).

Definition sourcePhase (x y time : num) (source : WaveSource.t) : num :=
  Fin 2 * Math.PI
    * (sourceDistance x y source / source.(WaveSource.wavelength)
       - source.(WaveSource.frequency) * time)
  + (source.(WaveSource.phase) ||| Fin 0).

Definition amplitudeAtPoint (x y : num) (source : WaveSource.t) : num :=
  source.(WaveSource.amplitude) / (Fin 1 + sourceDistance x y source * Fin 0.1).

(** The sums that the loops accumulate, started from [start]:
    [sum of amplitudeAtPoint * sin phase] and
    [sum of amplitudeAtPoint * cos phase]. *)
Definition sumSin (x y time : num) (sources : list WaveSource.t) (start : num)
    : num :=
  fold_left
    (fun t source =>
       t + amplitudeAtPoint x y source * Math.sin (sourcePhase x y time source))
    sources start.

Definition sumCos (x y time : num) (sources : list WaveSource.t) (start : num)
    : num :=
  fold_left
    (fun t source =>
       t + amplitudeAtPoint x y source * Math.cos (sourcePhase x y time source))
    sources start.

(** A source of the data model: finite position, amplitude, frequency and
    phase, and a finite wavelength that is not zero. *)
Definition finite_source (source : WaveSource.t) : Prop :=
  exists px py A lambda f p : R,
    source.(WaveSource.position) = Vec2.mk (Fin px) (Fin py)
    /\ source.(WaveSource.amplitude) = Fin A
    /\ source.(WaveSource.wavelength) = Fin lambda /\ lambda <> 0%R
    /\ source.(WaveSource.frequency) = Fin f
    /\ (source.(WaveSource.phase) ||| Fin 0) = Fin p.

(** The height that the frame callback of the wave visualisation gives to
    the vertex [(x, y)] at [currentTime]: the sum [z] of the inner
    [sources.forEach], scaled by [0.15]. *)
Definition waveHeight (x y : num) (sources : list WaveSource.t)
    (currentTime : num) : num :=
  let z :=
    fold_left
      (fun z source =>
         let dx := x - source.(WaveSource.position).(Vec2.x) in
         let dy := y - source.(WaveSource.position).(Vec2.y) in
         let distance := Math.sqrt (dx * dx + dy * dy) in
         let amplitudeAtPoint :=
           source.(WaveSource.amplitude) / (Fin 1 + distance * Fin 0.1) in
         let phase :=
           Fin 2 * Math.PI
             * (distance / source.(WaveSource.wavelength)
                - source.(WaveSource.frequency) * currentTime)
           + (source.(WaveSource.phase) ||| Fin 0) in
         z + amplitudeAtPoint * Math.sin phase)
      sources (Fin 0) in
  z * Fin 0.15.

(** The two passes of the effect that colours the wave mesh, over the
    vertices [(x, y)] of the plane.  First pass: the array [intensities]
    and the running maximum [maxIntensity]. *)
Definition meshIntensities (vertices : list (num * num))
    (sources : list WaveSource.t) (time : num) : list num * num :=
  fold_left
    (fun '(intensities, maxIntensity) '(x, y) =>
       let result := calculateInterference x y sources time in
       (intensities ++ [result.(Interference.intensity)],
        Math.max maxIntensity result.(Interference.intensity)))
    vertices ([], Fin 0).

(** Second pass: [normalizedIntensity] and [brightness] of each vertex. *)
Definition normalizedIntensity (maxIntensity intensity : num) : num :=
  if maxIntensity >? Fin 0 then intensity / maxIntensity else Fin 0.

Definition brightness (normalizedIntensity : num) : num :=
  Fin 0.3 + normalizedIntensity * Fin 0.7.

Definition meshNormalized (vertices : list (num * num))
    (sources : list WaveSource.t) (time : num) : list num :=
  let '(intensities, maxIntensity) := meshIntensities vertices sources time in
  map (normalizedIntensity maxIntensity) intensities.

(** The sum of the magnitudes of the sources' amplitudes: the bound that
    the statements about [calculateInterference] compare its results with. *)
Definition totalSourceAmplitude (sources : list WaveSource.t) : num :=
  fold_left (fun total source => total + Math.abs source.(WaveSource.amplitude))
            sources (Fin 0).

(** A vertex of the plane with finite coordinates. *)
Definition finite_vertex (vertex : num * num) : Prop :=
  exists vx vy : R, vertex = (Fin vx, Fin vy).

(** A normalised intensity in [[0, 1]], whose brightness is in
    [[0.3, 1]]. *)
Definition shade_in_range (n : num) : Prop :=
  exists r b : R,
    n = Fin r /\ (0 <= r <= 1)%R
    /\ brightness n = Fin b /\ (0.3 <= b <= 1)%R.

(** ** physicsFormulas.js: the other formula sets *)

(** An object [{ x, y, z }] whose three components are read as numbers,
    without a guard. *)
Module XYZ.
Record t : Type := mk { x : num; y : num; z : num }.
End XYZ.

(** An object [{ x, y, z }] each component of which is read with [|| 0] and
    may be missing. *)
Module OVec.
Record t : Type := mk { x : option num; y : option num; z : option num }.
End OVec.

Module ClassicalFormulas.

(** [projectileRange: (velocity, angle, gravity = 9.8)] *)
Definition projectileRange (velocity angle : num) (gravity : option num) : num :=
  let gravity := match gravity with Some g => g | None => Fin 9.8 end in
  let angleRad := (angle * Math.PI) / Fin 180 in
  (velocity * velocity * Math.sin (Fin 2 * angleRad)) / gravity.

(** [projectileMaxHeight: (velocity, angle, gravity = 9.8)] *)
Definition projectileMaxHeight (velocity angle : num) (gravity : option num)
    : num :=
  let gravity := match gravity with Some g => g | None => Fin 9.8 end in
  let angleRad := (angle * Math.PI) / Fin 180 in
  (velocity * velocity * Math.sin angleRad * Math.sin angleRad)
  / (Fin 2 * gravity).

(** [projectileTimeOfFlight: (velocity, angle, gravity = 9.8)] *)
Definition projectileTimeOfFlight (velocity angle : num) (gravity : option num)
    : num :=
  let gravity := match gravity with Some g => g | None => Fin 9.8 end in
  let angleRad := (angle * Math.PI) / Fin 180 in
  (Fin 2 * velocity * Math.sin angleRad) / gravity.

(** [a ** 2] *)
Definition square (a : num) : num := a * a.

(** [kineticEnergy: (mass, velocity)]; [velocity] is a number (left) or an
    object with components (right). *)
Definition kineticEnergy (mass : num) (velocity : num + OVec.t) : num :=
  let speed :=
    match velocity with
    | inl velocity => velocity
    | inr velocity =>
        Math.sqrt (square (velocity.(OVec.x) ||| Fin 0)
                   + square (velocity.(OVec.y) ||| Fin 0)
                   + square (velocity.(OVec.z) ||| Fin 0))
    end in
  Fin 0.5 * mass * speed * speed.

(** [potentialEnergy: (mass, height, gravity = 9.8)] *)
Definition potentialEnergy (mass height : num) (gravity : option num) : num :=
  let gravity := match gravity with Some g => g | None => Fin 9.8 end in
  mass * gravity * height.

(** [force: (mass, acceleration)] *)
Definition force (mass acceleration : num) : num := mass * acceleration.

(** [momentum: (mass, velocity)] *)
Definition momentum (mass : num) (velocity : OVec.t) : XYZ.t :=
  XYZ.mk (mass * (velocity.(OVec.x) ||| Fin 0))
         (mass * (velocity.(OVec.y) ||| Fin 0))
         (mass * (velocity.(OVec.z) ||| Fin 0)).

End ClassicalFormulas.

Module ElectromagnetismFormulas.

(** [electricField: (charge, distance)] *)
Definition electricField (charge distance : num) : num :=
  let k := Fin 8.99e9 in
  (k * charge) / (distance * distance).

(** [coulombForce: (q1, q2, distance)] *)
Definition coulombForce (q1 q2 distance : num) : num :=
  let k := Fin 8.99e9 in
  (k * q1 * q2) / (distance * distance).

(** [electricPotential: (charge, distance)] *)
Definition electricPotential (charge distance : num) : num :=
  let k := Fin 8.99e9 in
  (k * charge) / distance.

(** [magneticFieldFromCurrent: (current, distance)] *)
Definition magneticFieldFromCurrent (current distance : num) : num :=
  let mu0 := Fin 4 * Math.PI * Fin 1e-7 in
  (mu0 * current) / (Fin 2 * Math.PI * distance).

(** [lorentzForce: (charge, velocity, electricField, magneticField)]; a
    missing [velocity] or [magneticField] is the zero vector. *)
Definition lorentzForce (charge : num) (velocity : option XYZ.t)
    (electricField : OVec.t) (magneticField : option XYZ.t) : XYZ.t :=
  let electricForce :=
    XYZ.mk (charge * (electricField.(OVec.x) ||| Fin 0))
           (charge * (electricField.(OVec.y) ||| Fin 0))
           (charge * (electricField.(OVec.z) ||| Fin 0)) in
  let v := Js.or_obj velocity (XYZ.mk (Fin 0) (Fin 0) (Fin 0)) in
  let B := Js.or_obj magneticField (XYZ.mk (Fin 0) (Fin 0) (Fin 0)) in
  let magneticForce :=
    XYZ.mk (charge * (v.(XYZ.y) * B.(XYZ.z) - v.(XYZ.z) * B.(XYZ.y)))
           (charge * (v.(XYZ.z) * B.(XYZ.x) - v.(XYZ.x) * B.(XYZ.z)))
           (charge * (v.(XYZ.x) * B.(XYZ.y) - v.(XYZ.y) * B.(XYZ.x))) in
  XYZ.mk (electricForce.(XYZ.x) + magneticForce.(XYZ.x))
         (electricForce.(XYZ.y) + magneticForce.(XYZ.y))
         (electricForce.(XYZ.z) + magneticForce.(XYZ.z)).

End ElectromagnetismFormulas.

Module WavesOpticsFormulas.

(** [waveSpeed: (frequency, wavelength)] *)
Definition waveSpeed (frequency wavelength : num) : num :=
  frequency * wavelength.

(** [waveFrequency: (speed, wavelength)] *)
Definition waveFrequency (speed wavelength : num) : num := speed / wavelength.

(** [waveWavelength: (speed, frequency)] *)
Definition waveWavelength (speed frequency : num) : num := speed / frequency.

(** [pathDifference: (distance1, distance2)] *)
Definition pathDifference (distance1 distance2 : num) : num :=
  Math.abs (distance1 - distance2).

(** [interferencePhase: (pathDifference, wavelength)] *)
Definition interferencePhase (pathDifference wavelength : num) : num :=
  (Fin 2 * Math.PI * pathDifference) / wavelength.

(** [interferenceAmplitude: (amplitude1, amplitude2, phase)] *)
Definition interferenceAmplitude (amplitude1 amplitude2 phase : num) : num :=
  Math.sqrt (amplitude1 * amplitude1
             + amplitude2 * amplitude2
             + Fin 2 * amplitude1 * amplitude2 * Math.cos phase).

(** [diffractionAngle: (wavelength, slitWidth, order = 1)] *)
Definition diffractionAngle (wavelength slitWidth : num) (order : option num)
    : num :=
  let order := match order with Some o => o | None => Fin 1 end in
  Math.asin ((order * wavelength) / slitWidth).


End WavesOpticsFormulas.

(** The object [v], read with [|| 0], has the finite components
    [(x, y, z)]. *)
Definition finite_ovec (v : OVec.t) (x y z : R) : Prop :=
  (v.(OVec.x) ||| Fin 0) = Fin x
  /\ (v.(OVec.y) ||| Fin 0) = Fin y
  /\ (v.(OVec.z) ||| Fin 0) = Fin z.

(** ** The tunnelling result record *)

(** Modelled from the spec: [calculateTunneling] of physics/QuantumMechanics
    is imported by the tunnelling page but is not among the sources.  The
    spec gives its result as transmission [T] and reflection [R = 1 - T]. *)
Definition reflectionProbability (T : num) : num := Fin 1 - T.

(** * The same code with rounding

    Up to here every operation on finite numbers is the operation on real
    numbers.  A JavaScript number is an IEEE 754 double, and [+], [-], [*],
    [/] and [Math.sqrt] return the double nearest to the exact result.  Two
    further embeddings keep this.  In [Rounded] the rounding is a parameter
    [fl : R -> R], every operation is the exact one followed by [fl], and a
    literal of the program text stands for [fl] of its decimal value; an
    exponent range is not represented, so nothing overflows or underflows.
    In [Binary64] the numbers are Rocq's primitive floats, which are the
    doubles themselves. *)

Module Rounded.

Section Arithmetic.

Variable fl : R -> R.

(** Rounding a result; the infinities and NaN are doubles. *)
Definition rnd (a : num) : num :=
  match a with
  | Fin x => Fin (fl x)
  | PInf => PInf
  | NInf => NInf
  | NaN => NaN
  end.

(** A numeric literal of the program text. *)
Definition lit (x : R) : num := Fin (fl x).

Definition add (a b : num) : num := rnd (a + b).
Definition sub (a b : num) : num := rnd (a - b).
Definition mul (a b : num) : num := rnd (a * b).
Definition div (a b : num) : num := rnd (a / b).
Definition sqrt (a : num) : num := rnd (Math.sqrt a).

End Arithmetic.

(** [t] is a product of at most [k] factors [1 + e] or [/ (1 + e)] with
    [|e| <= u], an inverse counting twice: the accumulated error factor of
    [k] roundings of relative error [u]. *)
Definition near (u : R) (k : nat) (t : R) : Prop :=
  (Rabs (t - 1) <= (1 + u) ^ k - 1)%R.

(** The relative error of one binary64 operation: [2 ^ -53]. *)
Definition binary64_unit_roundoff : R := 1 / 9007199254740992.

Section Formulas.

Variable fl : R -> R.

Local Notation "a [+] b" := (add fl a b) (at level 50, left associativity).
Local Notation "a [-] b" := (sub fl a b) (at level 50, left associativity).
Local Notation "a [*] b" := (mul fl a b) (at level 40, left associativity).
Local Notation "a [/] b" := (div fl a b) (at level 40, left associativity).
Local Notation "# x" := (lit fl x) (at level 9, x at level 9).

(** [RelativityFormulas.gamma: (velocity, c = 3e8)] *)
Definition gamma (velocity : num) (c : option num) : num :=
  let c := match c with Some c => c | None => # 3e8 end in
  let beta := velocity [/] c in
  # 1 [/] sqrt fl (# 1 [-] beta [*] beta).

(** The square root under the Lorentz factor for [velocity / c = beta0]. *)
Definition lorentz_root (beta0 : R) : R :=
  fl (R_sqrt.sqrt (fl (fl 1 + - fl (fl beta0 * fl beta0)))).

(** [RelativityFormulas.timeDilation: (properTime, velocity, c = 3e8)] *)
Definition timeDilation (properTime velocity : num) (c : option num) : num :=
  let c := match c with Some c => c | None => # 3e8 end in
  let gamma := gamma velocity (Some c) in
  gamma [*] properTime.

(** [RelativityFormulas.lengthContraction: (properLength, velocity, c = 3e8)] *)
Definition lengthContraction (properLength velocity : num) (c : option num)
    : num :=
  let c := match c with Some c => c | None => # 3e8 end in
  let gamma := gamma velocity (Some c) in
  properLength [/] gamma.

(** [ElectromagnetismFormulas.electricField: (charge, distance)] *)
Definition electricField (charge distance : num) : num :=
  let k := # 8.99e9 in
  (k [*] charge) [/] (distance [*] distance).

(** [ElectromagnetismFormulas.coulombForce: (q1, q2, distance)] *)
Definition coulombForce (q1 q2 distance : num) : num :=
  let k := # 8.99e9 in
  (k [*] q1 [*] q2) [/] (distance [*] distance).

(** [WavesOpticsFormulas.waveSpeed: (frequency, wavelength)] *)
Definition waveSpeed (frequency wavelength : num) : num :=
  frequency [*] wavelength.

(** [WavesOpticsFormulas.waveFrequency: (speed, wavelength)] *)
Definition waveFrequency (speed wavelength : num) : num := speed [/] wavelength.

(** [WavesOpticsFormulas.waveWavelength: (speed, frequency)] *)
Definition waveWavelength (speed frequency : num) : num := speed [/] frequency.

(** [checkCircleCollision (obj1, obj2)] *)
Definition checkCircleCollision (obj1 obj2 : Body.t) : Collision.t :=
  let dx := obj2.(Body.position).(Vec.x) [-] obj1.(Body.position).(Vec.x) in
  let dy := obj2.(Body.position).(Vec.y) [-] obj1.(Body.position).(Vec.y) in
  let dz := (obj2.(Body.position).(Vec.z) ||| # 0)
            [-] (obj1.(Body.position).(Vec.z) ||| # 0) in
  let distance := sqrt fl (dx [*] dx [+] dy [*] dy [+] dz [*] dz) in
  let minDistance :=
    (obj1.(Body.radius) ||| # 0.5) [+] (obj2.(Body.radius) ||| # 0.5) in
  Collision.mk
    (distance <? minDistance)
    distance
    (Some minDistance)
    (if distance >? # 0
     then Vector3.mk (dx [/] distance) (dy [/] distance) (dz [/] distance)
     else Vector3.mk (# 1) (# 0) (# 0))
    (Math.max (# 0) (minDistance [-] distance)).

(** The literal [{ x: 0, y: 0, z: 0 }]. *)
Definition zero_velocity : Vec.t := Vec.mk (# 0) (# 0) (Some (# 0)).

(** [resolveCollision (obj1, obj2, collision)] *)
Definition resolveCollision (obj1 obj2 : Body.t) (collision : Collision.t)
    : Velocities.t :=
  if negb collision.(Collision.isColliding) then
    Velocities.mk
      (Js.or_obj obj1.(Body.velocity) zero_velocity)
      (Js.or_obj obj2.(Body.velocity) zero_velocity)
  else
    let v1 := Js.or_obj obj1.(Body.velocity) zero_velocity in
    let v2 := Js.or_obj obj2.(Body.velocity) zero_velocity in
    let m1 := obj1.(Body.mass) ||| # 1 in
    let m2 := obj2.(Body.mass) ||| # 1 in
    let normal := collision.(Collision.normal) in
    (* Relative velocity *)
    let rvx := v2.(Vec.x) [-] v1.(Vec.x) in
    let rvy := v2.(Vec.y) [-] v1.(Vec.y) in
    let rvz := (v2.(Vec.z) ||| # 0) [-] (v1.(Vec.z) ||| # 0) in
    (* Relative velocity along normal *)
    let velAlongNormal :=
      rvx [*] normal.(Vector3.x) [+] rvy [*] normal.(Vector3.y)
      [+] rvz [*] normal.(Vector3.z) in
    (* Don't resolve if velocities are separating *)
    if velAlongNormal >? # 0 then Velocities.mk v1 v2
    else
      (* Restitution coefficient *)
      let e := Math.min (obj1.(Body.restitution) ||| # 0.8)
                        (obj2.(Body.restitution) ||| # 0.8) in
      (* Impulse scalar *)
      let j := - (# 1 [+] e) [*] velAlongNormal [/] (# 1 [/] m1 [+] # 1 [/] m2) in
      (* Apply impulse *)
      let impulse :=
        Vector3.mk (j [*] normal.(Vector3.x)) (j [*] normal.(Vector3.y))
                   (j [*] normal.(Vector3.z)) in
      Velocities.mk
        (Vec.mk (v1.(Vec.x) [-] impulse.(Vector3.x) [/] m1)
                (v1.(Vec.y) [-] impulse.(Vector3.y) [/] m1)
                (Some ((v1.(Vec.z) ||| # 0) [-] impulse.(Vector3.z) [/] m1)))
        (Vec.mk (v2.(Vec.x) [+] impulse.(Vector3.x) [/] m2)
                (v2.(Vec.y) [+] impulse.(Vector3.y) [/] m2)
                (Some ((v2.(Vec.z) ||| # 0) [+] impulse.(Vector3.z) [/] m2))).

(** The constant [velAlongNormal] of [resolveCollision]. *)
Definition velAlongNormal (obj1 obj2 : Body.t) (collision : Collision.t) : num :=
  let v1 := Js.or_obj obj1.(Body.velocity) zero_velocity in
  let v2 := Js.or_obj obj2.(Body.velocity) zero_velocity in
  let normal := collision.(Collision.normal) in
  let rvx := v2.(Vec.x) [-] v1.(Vec.x) in
  let rvy := v2.(Vec.y) [-] v1.(Vec.y) in
  let rvz := (v2.(Vec.z) ||| # 0) [-] (v1.(Vec.z) ||| # 0) in
  rvx [*] normal.(Vector3.x) [+] rvy [*] normal.(Vector3.y)
  [+] rvz [*] normal.(Vector3.z).

(** The restitution [e] that [resolveCollision] uses. *)
Definition restitutionOf (obj1 obj2 : Body.t) : num :=
  Math.min (obj1.(Body.restitution) ||| # 0.8)
           (obj2.(Body.restitution) ||| # 0.8).

End Formulas.

Section Transcendental.

Variable fl : R -> R.

(** What the platform's [Math.exp], [Math.sin] and [Math.cos] return for a
    finite argument.  ECMAScript leaves their accuracy to the
    implementation. *)
Variables fexp fsin fcos : R -> R.

Local Notation "a [+] b" := (add fl a b) (at level 50, left associativity).
Local Notation "a [-] b" := (sub fl a b) (at level 50, left associativity).
Local Notation "a [*] b" := (mul fl a b) (at level 40, left associativity).
Local Notation "a [/] b" := (div fl a b) (at level 40, left associativity).
Local Notation "# x" := (lit fl x) (at level 9, x at level 9).

Definition exp (a : num) : num :=
  match a with
  | Fin x => Fin (fexp x)
  | PInf => PInf
  | NInf => Fin 0
  | NaN => NaN
  end.

Definition sin (a : num) : num :=
  match a with
  | Fin x => Fin (fsin x)
  | _ => NaN
  end.

Definition cos (a : num) : num :=
  match a with
  | Fin x => Fin (fcos x)
  | _ => NaN
  end.

(** [WavesOpticsFormulas.interferenceAmplitude:
    (amplitude1, amplitude2, phase)] *)
Definition interferenceAmplitude (amplitude1 amplitude2 phase : num) : num :=
  sqrt fl (amplitude1 [*] amplitude1
           [+] amplitude2 [*] amplitude2
           [+] # 2 [*] amplitude1 [*] amplitude2 [*] cos phase).

(** The constant [kappa] of [tunnelingProbability] and the argument that
    it passes to [Math.exp], for finite arguments below the barrier. *)
Definition decayConstant (energy barrierHeight mass : R) : R :=
  fl (fl (R_sqrt.sqrt (fl (fl (fl 2 * mass) * fl (barrierHeight + - energy))))
      / fl 1.0545718e-34).

Definition tunnelingExponent (energy barrierHeight barrierWidth mass : R) : R :=
  fl (fl (- fl 2 * decayConstant energy barrierHeight mass) * barrierWidth).

(** [QuantumFormulas.tunnelingProbability:
    (energy, barrierHeight, barrierWidth, mass)] *)
Definition tunnelingProbability
    (energy barrierHeight barrierWidth mass : num) : num :=
  if energy >=? barrierHeight then # 1
  else
    let hbar := # 1.0545718e-34 in
    let kappa := sqrt fl (# 2 [*] mass [*] (barrierHeight [-] energy)) [/] hbar in
    exp (- (# 2) [*] kappa [*] barrierWidth).

(** [ClassicalFormulas.projectileRange: (velocity, angle, gravity = 9.8)] *)
Definition projectileRange (velocity angle : num) (gravity : option num) : num :=
  let gravity := match gravity with Some g => g | None => # 9.8 end in
  let angleRad := (angle [*] # PI) [/] # 180 in
  (velocity [*] velocity [*] sin (# 2 [*] angleRad)) [/] gravity.

End Transcendental.

End Rounded.

(** ** Doubles

    [checkCircleCollision] and [resolveCollision] once more, on Rocq's
    primitive floats: IEEE 754 binary64 with rounding to nearest, ties to
    even, which is the arithmetic of a JavaScript number.  The records
    carry the properties that the two functions read. *)

#[local] Set Warnings "-inexact-float".

Module Binary64.

Import PrimFloat.
Local Open Scope float_scope.

(** Truthiness of a number: [0], [-0] and NaN are falsy. *)
Definition truthy (a : float) : bool := negb ((a =? 0) || is_nan a).

(** [x || d] where [x] is a numeric property that may be missing. *)
Definition or_num (x : option float) (d : float) : float :=
  match x with
  | Some v => if truthy v then v else d
  | None => d
  end.

Local Notation "x '|||' d" := (or_num x d) (at level 50, left associativity).

(** [Math.min] and [Math.max] of two arguments: NaN if either is NaN, and
    [-0] counts as smaller than [+0]. *)
Definition min (a b : float) : float :=
  if is_nan a || is_nan b then nan
  else if b <? a then b
  else if a <? b then a
  else if get_sign a then a else b.

Definition max (a b : float) : float :=
  if is_nan a || is_nan b then nan
  else if a <? b then b
  else if b <? a then a
  else if get_sign a then b else a.

Module Vec.
Record t : Type := mk { x : float; y : float; z : option float }.
End Vec.

Module Vector3.
Record t : Type := mk { x : float; y : float; z : float }.
End Vector3.

Module Body.
Record t : Type := mk {
  position : Vec.t;
  velocity : option Vec.t;
  mass : option float;
  radius : option float;
  restitution : option float }.
End Body.

Module Collision.
Record t : Type := mk {
  isColliding : bool;
  distance : float;
  minDistance : option float;
  normal : Vector3.t;
  overlap : float }.
End Collision.

Module Velocities.
Record t : Type := mk { velocity1 : Vec.t; velocity2 : Vec.t }.
End Velocities.

(** [checkCircleCollision (obj1, obj2)] *)
Definition checkCircleCollision (obj1 obj2 : Body.t) : Collision.t :=
  let dx := obj2.(Body.position).(Vec.x) - obj1.(Body.position).(Vec.x) in
  let dy := obj2.(Body.position).(Vec.y) - obj1.(Body.position).(Vec.y) in
  let dz := (obj2.(Body.position).(Vec.z) ||| 0)
            - (obj1.(Body.position).(Vec.z) ||| 0) in
  let distance := sqrt (dx * dx + dy * dy + dz * dz) in
  let minDistance := (obj1.(Body.radius) ||| 0.5) + (obj2.(Body.radius) ||| 0.5) in
  Collision.mk
    (distance <? minDistance)
    distance
    (Some minDistance)
    (if 0 <? distance
     then Vector3.mk (dx / distance) (dy / distance) (dz / distance)
     else Vector3.mk 1 0 0)
    (max 0 (minDistance - distance)).

(** The literal [{ x: 0, y: 0, z: 0 }]. *)
Definition zero_velocity : Vec.t := Vec.mk 0 0 (Some 0).

(** [resolveCollision (obj1, obj2, collision)] *)
Definition resolveCollision (obj1 obj2 : Body.t) (collision : Collision.t)
    : Velocities.t :=
  if negb collision.(Collision.isColliding) then
    Velocities.mk
      (Js.or_obj obj1.(Body.velocity) zero_velocity)
      (Js.or_obj obj2.(Body.velocity) zero_velocity)
  else
    let v1 := Js.or_obj obj1.(Body.velocity) zero_velocity in
    let v2 := Js.or_obj obj2.(Body.velocity) zero_velocity in
    let m1 := obj1.(Body.mass) ||| 1 in
    let m2 := obj2.(Body.mass) ||| 1 in
    let normal := collision.(Collision.normal) in
    (* Relative velocity *)
    let rvx := v2.(Vec.x) - v1.(Vec.x) in
    let rvy := v2.(Vec.y) - v1.(Vec.y) in
    let rvz := (v2.(Vec.z) ||| 0) - (v1.(Vec.z) ||| 0) in
    (* Relative velocity along normal *)
    let velAlongNormal :=
      rvx * normal.(Vector3.x) + rvy * normal.(Vector3.y) + rvz * normal.(Vector3.z) in
    (* Don't resolve if velocities are separating *)
    if 0 <? velAlongNormal then Velocities.mk v1 v2
    else
      (* Restitution coefficient *)
      let e := min (obj1.(Body.restitution) ||| 0.8)
                   (obj2.(Body.restitution) ||| 0.8) in
      (* Impulse scalar *)
      let j := - (1 + e) * velAlongNormal / (1 / m1 + 1 / m2) in
      (* Apply impulse *)
      let impulse :=
        Vector3.mk (j * normal.(Vector3.x)) (j * normal.(Vector3.y))
                   (j * normal.(Vector3.z)) in
      Velocities.mk
        (Vec.mk (v1.(Vec.x) - impulse.(Vector3.x) / m1)
                (v1.(Vec.y) - impulse.(Vector3.y) / m1)
                (Some ((v1.(Vec.z) ||| 0) - impulse.(Vector3.z) / m1)))
        (Vec.mk (v2.(Vec.x) + impulse.(Vector3.x) / m2)
                (v2.(Vec.y) + impulse.(Vector3.y) / m2)
                (Some ((v2.(Vec.z) ||| 0) + impulse.(Vector3.z) / m2))).

(** Two unit-mass circles of restitution 1 on the x axis, their centres
    0.8 apart, the left one moving right at 0.1 and the right one moving
    left at 0.2. *)
Definition slow_left : Body.t :=
  Body.mk (Vec.mk 0 0 None) (Some (Vec.mk 0.1 0 None)) (Some 1) None (Some 1).

Definition slow_right : Body.t :=
  Body.mk (Vec.mk 0.8 0 None) (Some (Vec.mk (-0.2) 0 None)) (Some 1) None (Some 1).

End Binary64.

(** The same two circles in the other embeddings. *)
Definition slow_left : Body.t :=
  Body.mk (Vec.mk (Fin 0) (Fin 0) None)
          (Some (Vec.mk (Fin 0.1) (Fin 0) None))
          (Some (Fin 1)) None None None (Some (Fin 1)).

Definition slow_right : Body.t :=
  Body.mk (Vec.mk (Fin 0.8) (Fin 0) None)
          (Some (Vec.mk (Fin (-0.2)) (Fin 0) None))
          (Some (Fin 1)) None None None (Some (Fin 1)).

(** * Properties *)

(** ** Reasoning about the number model *)

(** Decide every comparison of reals that occurs in the goal or in a
    hypothesis. *)
Ltac Rb :=
  unfold Js.signed_inf, Rltb, Rleb, Reqb in *;
  repeat match goal with
  | |- context [Rlt_dec ?a ?b] => destruct (Rlt_dec a b)
  | |- context [Rle_dec ?a ?b] => destruct (Rle_dec a b)
  | |- context [Req_dec_T ?a ?b] => destruct (Req_dec_T a b)
  | H : context [Rlt_dec ?a ?b] |- _ => destruct (Rlt_dec a b)
  | H : context [Rle_dec ?a ?b] |- _ => destruct (Rle_dec a b)
  | H : context [Req_dec_T ?a ?b] |- _ => destruct (Req_dec_T a b)
  end.

(** Unfold the operations of the number model, and nothing of the reals. *)
Ltac js :=
  cbn [Js.add Js.sub Js.neg Js.mul Js.div Js.ltb Js.leb Js.gtb Js.geb
       Js.truthy Js.or_num Js.or_obj Js.isFinite
       Math.sqrt Math.exp Math.sin Math.cos Math.abs Math.max Math.min negb].

Ltac js_in H :=
  cbn [Js.add Js.sub Js.neg Js.mul Js.div Js.ltb Js.leb Js.gtb Js.geb
       Js.truthy Js.or_num Js.or_obj Js.isFinite
       Math.sqrt Math.exp Math.sin Math.cos Math.abs Math.max Math.min negb] in H.

Lemma Rltb_true (a b : R) : (a < b)%R -> Rltb a b = true.
Proof. intros; Rb; [reflexivity | lra]. Qed.

Lemma Rltb_false (a b : R) : (b <= a)%R -> Rltb a b = false.
Proof. intros; Rb; [lra | reflexivity]. Qed.

Lemma Rleb_true (a b : R) : (a <= b)%R -> Rleb a b = true.
Proof. intros; Rb; [reflexivity | lra]. Qed.

Lemma Rleb_false (a b : R) : (b < a)%R -> Rleb a b = false.
Proof. intros; Rb; [lra | reflexivity]. Qed.

Lemma Reqb_true (a b : R) : a = b -> Reqb a b = true.
Proof. intros; Rb; [reflexivity | contradiction]. Qed.

Lemma Reqb_false (a b : R) : a <> b -> Reqb a b = false.
Proof. intros; Rb; [contradiction | reflexivity]. Qed.

Lemma div_Fin (a b : R) : b <> 0%R -> Fin a / Fin b = Fin (a / b).
Proof. intros H; js; now rewrite Reqb_false. Qed.

Lemma sqrt_Fin (a : R) : (0 <= a)%R -> Math.sqrt (Fin a) = Fin (sqrt a).
Proof. intros H; js; now rewrite Rltb_false. Qed.

Lemma sqrt_Fin_neg (a : R) : (a < 0)%R -> Math.sqrt (Fin a) = NaN.
Proof. intros H; js; now rewrite Rltb_true. Qed.

Lemma hbar_pos : (0 < 1.0545718e-34)%R.
Proof. lra. Qed.

(** ** The Lorentz factor *)

Lemma lorentz_Fin (b : R) :
  Fin 1 / Math.sqrt (Fin 1 - Fin b * Fin b)
  = if Rltb 1 (Rabs b) then NaN
    else if Reqb (Rabs b) 1 then PInf
    else Fin (1 / sqrt (1 - b * b)).
Proof.
  assert (Hsq : (b * b = Rabs b * Rabs b)%R).
  { unfold Rabs; destruct (Rcase_abs b); ring. }
  cbn [Js.sub Js.mul Js.neg Js.add].
  destruct (Rlt_dec 1 (Rabs b)) as [Hgt | Hle].
  - rewrite (Rltb_true _ _ Hgt), sqrt_Fin_neg by nra. reflexivity.
  - rewrite (Rltb_false 1 (Rabs b)) by lra.
    destruct (Req_dec_T (Rabs b) 1) as [Heq | Hne].
    + rewrite (Reqb_true _ _ Heq).
      replace (1 + - (b * b))%R with 0%R by (rewrite Hsq, Heq; ring).
      rewrite sqrt_Fin, sqrt_0 by lra. js.
      rewrite Reqb_true by reflexivity. unfold Js.signed_inf.
      now rewrite Rltb_true by lra.
    + rewrite (Reqb_false _ _ Hne).
      assert (Hpos : (0 < 1 + - (b * b))%R).
      { pose proof (Rabs_pos b). rewrite Hsq. nra. }
      rewrite sqrt_Fin by lra.
      rewrite div_Fin by (apply Rgt_not_eq, sqrt_lt_R0; exact Hpos).
      reflexivity.
Qed.

(** C4, as amended.  [gamma] has no guard and no [throw]: for every
    velocity with [|velocity / c| >= 1] the call returns normally, and the
    value it hands to the caller is not finite: [Infinity] when
    [|velocity / c| = 1] and [NaN] when [|velocity / c| > 1].  Nothing is
    clamped. *)
Theorem gamma_beyond_light_is_not_rejected (velocity : num) (c : option num) :
  let beta := velocity / match c with Some c => c | None => Fin 3e8 end in
  (Math.abs beta >=? Fin 1) = true ->
  RelativityFormulas.gamma velocity c
    = Return (if Math.abs beta <=? Fin 1 then PInf else NaN)
  /\ (forall e, RelativityFormulas.gamma velocity c <> Throw e)
  /\ (forall v, RelativityFormulas.gamma velocity c = Return v ->
                Js.isFinite v = false).
Proof.
  intros beta Hge.
  assert (Hret : RelativityFormulas.gamma velocity c
                 = Return (if Math.abs beta <=? Fin 1 then PInf else NaN)).
  { unfold RelativityFormulas.gamma. fold beta. f_equal.
    destruct beta as [b | | |]; try reflexivity; try discriminate.
    rewrite lorentz_Fin. js_in Hge. js.
    Rb; try reflexivity; lra. }
  split; [exact Hret | split].
  - intros e He. rewrite Hret in He. discriminate.
  - intros v Hv. rewrite Hret in Hv. injection Hv as <-.
    destruct (Math.abs beta <=? Fin 1); reflexivity.
Qed.

Lemma gamma_beyond_light_is_not_rejected_witness :
  RelativityFormulas.gamma (Fin 6e8) None = Return NaN.
Proof.
  assert (H : (Math.abs (Fin 6e8 / Fin 3e8) >=? Fin 1) = true).
  { rewrite div_Fin by lra. js. js.
    apply Rleb_true. unfold Rabs. destruct (Rcase_abs _); lra. }
  destruct (gamma_beyond_light_is_not_rejected (Fin 6e8) None H) as [Hret _].
  rewrite Hret. rewrite div_Fin by lra. js.
  rewrite Rleb_false; [reflexivity |].
  unfold Rabs. destruct (Rcase_abs _); lra.
Defined.

(** C4 as stated fails at the speed of light itself: [gamma(3e8)] throws
    nothing and returns [Infinity]. *)
Lemma gamma_at_light_speed_returns_infinity :
  RelativityFormulas.gamma (Fin 3e8) None = Return PInf
  /\ RelativityFormulas.gamma (Fin 3e8) None <> Throw DomainError
  /\ Js.isFinite PInf = false.
Proof.
  assert (H : RelativityFormulas.gamma (Fin 3e8) None = Return PInf).
  { unfold RelativityFormulas.gamma. rewrite div_Fin by lra.
    rewrite lorentz_Fin.
    replace (3e8 / 3e8)%R with 1%R by lra. rewrite Rabs_R1.
    rewrite Rltb_false by lra. now rewrite Reqb_true. }
  split; [exact H | split; [rewrite H; discriminate | reflexivity]].
Qed.

(** ** Barrier tunnelling *)

Lemma exp_nonpos_range (u : R) : (u <= 0)%R -> (0 <= exp u <= 1)%R.
Proof.
  intros Hu. split; [left; apply exp_pos |].
  destruct Hu as [Hlt | ->]; [| rewrite exp_0; lra].
  left. rewrite <- exp_0. now apply exp_increasing.
Qed.

(** Below the barrier, on finite inputs with a non-negative mass, the
    model computes the real-number formula. *)
Lemma tunnelingProbability_Fin (energy barrierHeight barrierWidth mass : R) :
  (energy < barrierHeight)%R -> (0 <= mass)%R ->
  QuantumFormulas.tunnelingProbability
    (Fin energy) (Fin barrierHeight) (Fin barrierWidth) (Fin mass)
  = Return
      (Fin (exp (- 2 * (sqrt (2 * mass * (barrierHeight - energy))
                        / 1.0545718e-34) * barrierWidth))).
Proof.
  intros He Hm. unfold QuantumFormulas.tunnelingProbability, Js.geb.
  cbn [Js.leb]. rewrite Rleb_false by exact He.
  cbn [Js.sub Js.neg Js.add Js.mul].
  rewrite sqrt_Fin by nra.
  rewrite div_Fin by (pose proof hbar_pos; lra).
  reflexivity.
Qed.

(** Every input that is not NaN, with a positive width and a positive mass,
    yields a finite value in [0,1]. *)
Lemma Rltb_elim (a b : R) : Rltb a b = true -> (a < b)%R.
Proof. unfold Rltb. destruct (Rlt_dec a b); [trivial | discriminate]. Qed.

Lemma Rleb_elim_false (a b : R) : Rleb a b = false -> (b < a)%R.
Proof. unfold Rleb. destruct (Rle_dec a b); [discriminate | lra]. Qed.

Lemma signed_inf_pos (r : R) : (0 < r)%R -> Js.signed_inf r = PInf.
Proof. intros H. unfold Js.signed_inf. now rewrite Rltb_true. Qed.

Lemma signed_inf_neg (r : R) : (r < 0)%R -> Js.signed_inf r = NInf.
Proof.
  intros H. unfold Js.signed_inf.
  rewrite Rltb_false by lra. now rewrite Rltb_true.
Qed.

(** Products and quotients that have become infinite. *)
Ltac infinite_case :=
  repeat (first [ rewrite signed_inf_pos by lra | rewrite signed_inf_neg by lra ]; js);
  try rewrite Rleb_true by lra;
  reflexivity.

(** The decay constant [kappa] below the barrier is positive. *)
Lemma kappa_positive (energy barrierHeight mass : num) :
  energy <> NaN -> barrierHeight <> NaN ->
  (energy >=? barrierHeight) = false -> (Fin 0 <? mass) = true ->
  (Fin 0 <? Math.sqrt (Fin 2 * mass * (barrierHeight - energy)) / Fin 1.0545718e-34)
  = true.
Proof.
  intros He Hb Hge Hm. pose proof hbar_pos as Hh.
  destruct mass as [m | | |]; try discriminate; js_in Hm.
  - apply Rltb_elim in Hm.
    destruct energy as [e | | |], barrierHeight as [b | | |];
      try contradiction; try discriminate; js_in Hge; js;
      [ | infinite_case .. ].
    apply Rleb_elim_false in Hge.
    rewrite Rltb_false by nra. js. rewrite Reqb_false by lra. js.
    apply Rltb_true. apply Rdiv_lt_0_compat; [| exact Hh].
    apply sqrt_lt_R0. nra.
  - destruct energy as [e | | |], barrierHeight as [b | | |];
      try contradiction; try discriminate; js_in Hge; js;
      [ | infinite_case .. ].
    apply Rleb_elim_false in Hge. infinite_case.
Qed.

Lemma tunnelingProbability_range (energy barrierHeight barrierWidth mass : num) :
  energy <> NaN -> barrierHeight <> NaN ->
  (Fin 0 <? barrierWidth) = true -> (Fin 0 <? mass) = true ->
  exists t : R,
    QuantumFormulas.tunnelingProbability energy barrierHeight barrierWidth mass
    = Return (Fin t) /\ (0 <= t <= 1)%R.
Proof.
  intros He Hb Hw Hm.
  unfold QuantumFormulas.tunnelingProbability.
  destruct (energy >=? barrierHeight) eqn:Hge.
  { exists 1%R. split; [reflexivity | lra]. }
  pose proof (kappa_positive energy barrierHeight mass He Hb Hge Hm) as Hk.
  destruct (Math.sqrt (Fin 2 * mass * (barrierHeight - energy)) / Fin 1.0545718e-34)
    as [kp | | |]; try discriminate; js_in Hk.
  - apply Rltb_elim in Hk.
    destruct barrierWidth as [w | | |]; try discriminate; js_in Hw; js.
    + apply Rltb_elim in Hw.
      eexists; split; [reflexivity |]. apply exp_nonpos_range. nra.
    + rewrite signed_inf_neg by lra. js.
      exists 0%R. split; [reflexivity | lra].
  - destruct barrierWidth as [w | | |]; try discriminate; js_in Hw; js.
    + apply Rltb_elim in Hw.
      rewrite signed_inf_neg by lra. js.
      rewrite signed_inf_neg by lra. js.
      exists 0%R. split; [reflexivity | lra].
    + rewrite signed_inf_neg by lra. js.
      exists 0%R. split; [reflexivity | lra].
Qed.

(** C1.  [tunnelingProbability] returns exactly 1 when
    [energy >= barrierHeight]; otherwise it returns
    [exp (-2 * kappa * barrierWidth)] with
    [kappa = sqrt (2 * mass * (barrierHeight - energy)) / hbar] and
    [hbar = 1.0545718e-34], which on finite inputs is the real-number
    formula; and for inputs with [barrierWidth > 0] and [mass > 0] the
    transmission [T] and the reflection [R = 1 - T] add up to 1. *)
Theorem tunnelingProbability_formula :
  (forall energy barrierHeight barrierWidth mass : num,
      (energy >=? barrierHeight) = true ->
      QuantumFormulas.tunnelingProbability energy barrierHeight barrierWidth mass
      = Return (Fin 1))
  /\ (forall energy barrierHeight barrierWidth mass : num,
      (energy >=? barrierHeight) = false ->
      let hbar := Fin 1.0545718e-34 in
      let kappa := Math.sqrt (Fin 2 * mass * (barrierHeight - energy)) / hbar in
      QuantumFormulas.tunnelingProbability energy barrierHeight barrierWidth mass
      = Return (Math.exp (- (Fin 2) * kappa * barrierWidth)))
  /\ (forall energy barrierHeight barrierWidth mass : R,
      (energy < barrierHeight)%R -> (0 <= mass)%R ->
      let hbar := 1.0545718e-34%R in
      let kappa := (sqrt (2 * mass * (barrierHeight - energy)) / hbar)%R in
      QuantumFormulas.tunnelingProbability
        (Fin energy) (Fin barrierHeight) (Fin barrierWidth) (Fin mass)
      = Return (Fin (exp (- 2 * kappa * barrierWidth))))
  /\ (forall (energy barrierHeight barrierWidth mass T : num),
      energy <> NaN -> barrierHeight <> NaN ->
      (barrierWidth >? Fin 0) = true -> (mass >? Fin 0) = true ->
      QuantumFormulas.tunnelingProbability energy barrierHeight barrierWidth mass
      = Return T ->
      T + reflectionProbability T = Fin 1).
Proof.
  repeat split.
  - intros energy barrierHeight barrierWidth mass H.
    unfold QuantumFormulas.tunnelingProbability. now rewrite H.
  - intros energy barrierHeight barrierWidth mass H.
    unfold QuantumFormulas.tunnelingProbability. now rewrite H.
  - intros energy barrierHeight barrierWidth mass He Hm.
    now apply tunnelingProbability_Fin.
  - intros energy barrierHeight barrierWidth mass T He Hb Hw Hm HT.
    destruct (tunnelingProbability_range energy barrierHeight barrierWidth mass
                He Hb Hw Hm) as (t & Ht & _).
    rewrite Ht in HT. injection HT as <-.
    unfold reflectionProbability. js. f_equal. ring.
Qed.

Lemma tunnelingProbability_formula_witness :
  QuantumFormulas.tunnelingProbability (Fin 2) (Fin 2) (Fin 1) (Fin 9.109e-31)
  = Return (Fin 1)
  /\ Fin 1 + reflectionProbability (Fin 1) = Fin 1.
Proof.
  destruct tunnelingProbability_formula as (Hover & _ & _ & Hsum).
  assert (H : QuantumFormulas.tunnelingProbability
                (Fin 2) (Fin 2) (Fin 1) (Fin 9.109e-31) = Return (Fin 1)).
  { apply Hover. js. apply Rleb_true. lra. }
  split; [exact H |].
  apply (Hsum (Fin 2) (Fin 2) (Fin 1) (Fin 9.109e-31)).
  - discriminate.
  - discriminate.
  - js. apply Rltb_true. lra.
  - js. apply Rltb_true. lra.
  - exact H.
Defined.

(** C3, as amended.  [tunnelingProbability] contains no guard and no
    [throw]: every input, a non-positive width or mass included, makes it
    return a value to the caller.  There is no clamp either, but for inputs
    that are not NaN, with [barrierWidth > 0] and [mass > 0], the value
    returned lies within [0,1]. *)
Theorem tunnelingProbability_never_rejects :
  (forall energy barrierHeight barrierWidth mass : num,
      exists T,
        QuantumFormulas.tunnelingProbability energy barrierHeight barrierWidth mass
        = Return T)
  /\ (forall energy barrierHeight barrierWidth mass : num,
      energy <> NaN -> barrierHeight <> NaN ->
      (barrierWidth >? Fin 0) = true -> (mass >? Fin 0) = true ->
      exists T,
        QuantumFormulas.tunnelingProbability energy barrierHeight barrierWidth mass
        = Return T
        /\ (Fin 0 <=? T) = true /\ (T <=? Fin 1) = true).
Proof.
  split.
  - intros energy barrierHeight barrierWidth mass.
    unfold QuantumFormulas.tunnelingProbability.
    destruct (energy >=? barrierHeight); eexists; reflexivity.
  - intros energy barrierHeight barrierWidth mass He Hb Hw Hm.
    destruct (tunnelingProbability_range energy barrierHeight barrierWidth mass
                He Hb Hw Hm) as (t & Ht & Hlo & Hhi).
    exists (Fin t). split; [exact Ht |].
    js. now rewrite !Rleb_true.
Qed.

Lemma tunnelingProbability_never_rejects_witness :
  exists T,
    QuantumFormulas.tunnelingProbability (Fin 1) (Fin 2) (Fin 1e-9) (Fin 9.109e-31)
    = Return T
    /\ (Fin 0 <=? T) = true /\ (T <=? Fin 1) = true.
Proof.
  apply (proj2 tunnelingProbability_never_rejects).
  - discriminate.
  - discriminate.
  - js. apply Rltb_true. lra.
  - js. apply Rltb_true. lra.
Defined.

(** C3 as stated fails: with [barrierWidth = 0] the call returns 1, with
    [barrierWidth = -1] and [mass = 0] it returns 1 as well, and with
    [mass = -1] it returns NaN; none of these inputs is rejected. *)
Lemma tunnelingProbability_accepts_degenerate_inputs :
  QuantumFormulas.tunnelingProbability (Fin 0) (Fin 1) (Fin 0) (Fin 1)
  = Return (Fin 1)
  /\ QuantumFormulas.tunnelingProbability (Fin 0) (Fin 1) (Fin (-1)) (Fin 0)
     = Return (Fin 1)
  /\ QuantumFormulas.tunnelingProbability (Fin 0) (Fin 1) (Fin 1) (Fin (-1))
     = Return NaN.
Proof.
  repeat split.
  - rewrite tunnelingProbability_Fin by lra. do 2 f_equal.
    etransitivity; [| apply exp_0]. f_equal. ring.
  - rewrite tunnelingProbability_Fin by lra. do 2 f_equal.
    etransitivity; [| apply exp_0]. f_equal.
    replace (2 * 0 * (1 - 0))%R with 0%R by ring. rewrite sqrt_0. lra.
  - unfold QuantumFormulas.tunnelingProbability, Js.geb. cbn [Js.leb].
    rewrite Rleb_false by lra.
    cbn [Js.sub Js.neg Js.add Js.mul].
    rewrite sqrt_Fin_neg by lra. reflexivity.
Qed.

(** ** Collision resolution *)

Lemma add_Fin_inv (a b : num) (r : R) :
  a + b = Fin r -> exists x y, a = Fin x /\ b = Fin y /\ r = (x + y)%R.
Proof.
  destruct a as [x | | |], b as [y | | |]; js; try discriminate.
  intros H; injection H as <-. now exists x, y.
Qed.

Lemma sub_Fin_inv (a b : num) (r : R) :
  a - b = Fin r -> exists x y, a = Fin x /\ b = Fin y /\ r = (x - y)%R.
Proof.
  destruct a as [x | | |], b as [y | | |]; js; try discriminate.
  intros H; injection H as <-. now exists x, y.
Qed.

Lemma mul_Fin_inv (a b : num) (r : R) :
  a * b = Fin r -> exists x y, a = Fin x /\ b = Fin y /\ r = (x * y)%R.
Proof.
  destruct a as [x | | |], b as [y | | |]; js; try discriminate;
    try (Rb; discriminate).
  intros H; injection H as <-. now exists x, y.
Qed.

(** A mass read with [|| 1] is never zero and never NaN, so dividing a
    finite number by it multiplies by a real inverse mass. *)
Lemma inverse_mass (m : option num) :
  exists w : R, forall a : R, Fin a / (m ||| Fin 1) = Fin (a * w).
Proof.
  destruct m as [[r | | |] |]; cbn [Js.or_num Js.truthy].
  - destruct (Req_dec_T r 0) as [-> | Hr].
    + rewrite (Reqb_true 0 0) by reflexivity. cbn [negb].
      exists 1%R. intros a. rewrite div_Fin by lra. f_equal. field.
    + rewrite (Reqb_false r 0) by assumption. cbn [negb].
      exists (/ r)%R. intros a. now rewrite div_Fin by assumption.
  - exists 0%R. intros a. cbn [Js.div]. f_equal. ring.
  - exists 0%R. intros a. cbn [Js.div]. f_equal. ring.
  - exists 1%R. intros a. rewrite div_Fin by lra. f_equal. field.
  - exists 1%R. intros a. rewrite div_Fin by lra. f_equal. field.
Qed.

(** The impulse branch on finite data: [w1] and [w2] are the inverse masses,
    [V] the relative velocity along the normal, [j] the impulse scalar. *)
Lemma resolveCollision_impulse (obj1 obj2 : Body.t) (collision : Collision.t)
    (x1 y1 z1 x2 y2 z2 nx ny nz e w1 w2 : R) :
  collision.(Collision.isColliding) = true ->
  finite_vec (velocityOf obj1) x1 y1 z1 ->
  finite_vec (velocityOf obj2) x2 y2 z2 ->
  collision.(Collision.normal) = Vector3.mk (Fin nx) (Fin ny) (Fin nz) ->
  restitutionOf obj1 obj2 = Fin e ->
  (forall a, Fin a / (obj1.(Body.mass) ||| Fin 1) = Fin (a * w1)) ->
  (forall a, Fin a / (obj2.(Body.mass) ||| Fin 1) = Fin (a * w2)) ->
  (w1 + w2 <> 0)%R ->
  let V := ((x2 - x1) * nx + (y2 - y1) * ny + (z2 - z1) * nz)%R in
  (V <= 0)%R ->
  let j := (- (1 + e) * V / (w1 + w2))%R in
  resolveCollision obj1 obj2 collision =
  Velocities.mk
    (Vec.mk (Fin (x1 - j * nx * w1)) (Fin (y1 - j * ny * w1))
            (Some (Fin (z1 - j * nz * w1))))
    (Vec.mk (Fin (x2 + j * nx * w2)) (Fin (y2 + j * ny * w2))
            (Some (Fin (z2 + j * nz * w2)))).
Proof.
  intros Hcol (Hx1 & Hy1 & Hz1) (Hx2 & Hy2 & Hz2) Hn He Hw1 Hw2 Hw V HV j.
  unfold resolveCollision. rewrite Hcol. cbn [negb].
  change (Math.min _ _) with (restitutionOf obj1 obj2).
  unfold velocityOf in *.
  rewrite Hn, He, Hx1, Hy1, Hz1, Hx2, Hy2, Hz2.
  cbn [Vector3.x Vector3.y Vector3.z Js.sub Js.neg Js.add Js.mul Js.gtb Js.ltb].
  rewrite Rltb_false by (subst V; lra).
  rewrite !Hw1, !Hw2.
  cbn [Js.sub Js.neg Js.add Js.mul].
  rewrite div_Fin by lra.
  cbn [Js.sub Js.neg Js.add Js.mul].
  rewrite !Hw1, !Hw2.
  cbn [Js.sub Js.neg Js.add Js.mul].
  subst j V.
  f_equal; (f_equal; [f_equal | f_equal | do 2 f_equal]); field; lra.
Qed.

Lemma same_velocity_refl (v : Vec.t) : same_velocity v v.
Proof. repeat split. Qed.

Lemma or_num_Fin (r : R) : Some (Fin r) ||| Fin 0 = Fin r.
Proof.
  cbn [Js.or_num Js.truthy]. unfold Reqb.
  destruct (Req_dec_T r 0) as [-> | _]; reflexivity.
Qed.

(** C8.  When the relative velocity along the collision normal is
    non-negative (the bodies separate, move in parallel, or have no relative
    velocity at all), [resolveCollision] applies no impulse: both returned
    velocities are the input velocities.  The bodies are those of the data
    model: the total inverse mass is not zero and the restitution is
    finite. *)
Theorem resolveCollision_separating_is_noop
    (obj1 obj2 : Body.t) (collision : Collision.t) :
  Js.truthy (totalInverseMass obj1 obj2) = true ->
  Js.isFinite (restitutionOf obj1 obj2) = true ->
  (velAlongNormal obj1 obj2 collision >=? Fin 0) = true ->
  same_velocity (resolveCollision obj1 obj2 collision).(Velocities.velocity1)
                (velocityOf obj1)
  /\ same_velocity (resolveCollision obj1 obj2 collision).(Velocities.velocity2)
                   (velocityOf obj2).
Proof.
  intros Hmass Hrest Hsep.
  destruct (Collision.isColliding collision) eqn:Hcol.
  2:{ unfold resolveCollision. rewrite Hcol. cbn [negb Velocities.velocity1 Velocities.velocity2].
      split; apply same_velocity_refl. }
  destruct (velAlongNormal obj1 obj2 collision >? Fin 0) eqn:Hgt.
  { unfold resolveCollision. rewrite Hcol. cbn [negb].
    change (_ * _ + _ * _ + _ * _) with (velAlongNormal obj1 obj2 collision).
    rewrite Hgt. split; apply same_velocity_refl. }
  (* the relative velocity along the normal is exactly zero *)
  destruct (velAlongNormal obj1 obj2 collision) as [V | | |] eqn:HV;
    try discriminate.
  js_in Hsep. js_in Hgt.
  assert (HV0 : V = 0%R).
  { revert Hsep Hgt. unfold Rleb, Rltb.
    destruct (Rle_dec 0 V), (Rlt_dec 0 V); intros; try discriminate; lra. }
  unfold velAlongNormal in HV.
  apply add_Fin_inv in HV as (a & pz & Ha & Hpz & HVs).
  apply add_Fin_inv in Ha as (px & py & Hpx & Hpy & Has).
  apply mul_Fin_inv in Hpx as (rx & nx & Hrx & Hnx & Hpxs).
  apply mul_Fin_inv in Hpy as (ry & ny & Hry & Hny & Hpys).
  apply mul_Fin_inv in Hpz as (rz & nz & Hrz & Hnz & Hpzs).
  apply sub_Fin_inv in Hrx as (x2 & x1 & Hx2 & Hx1 & Hrxs).
  apply sub_Fin_inv in Hry as (y2 & y1 & Hy2 & Hy1 & Hrys).
  apply sub_Fin_inv in Hrz as (z2 & z1 & Hz2 & Hz1 & Hrzs).
  destruct (restitutionOf obj1 obj2) as [e | | |] eqn:He; try discriminate.
  destruct (inverse_mass obj1.(Body.mass)) as (w1 & Hw1).
  destruct (inverse_mass obj2.(Body.mass)) as (w2 & Hw2).
  assert (Hw : (w1 + w2 <> 0)%R).
  { unfold totalInverseMass in Hmass. rewrite Hw1, Hw2 in Hmass. js_in Hmass.
    unfold Reqb in Hmass.
    destruct (Req_dec_T (1 * w1 + 1 * w2) 0); [discriminate | lra]. }
  assert (Hnormal : collision.(Collision.normal)
                    = Vector3.mk (Fin nx) (Fin ny) (Fin nz)).
  { destruct (Collision.normal collision) as [cx cy cz].
    cbn [Vector3.x Vector3.y Vector3.z] in Hnx, Hny, Hnz. now subst. }
  assert (HVreal : ((x2 - x1) * nx + (y2 - y1) * ny + (z2 - z1) * nz = 0)%R).
  { subst. lra. }
  rewrite (resolveCollision_impulse obj1 obj2 collision
             x1 y1 z1 x2 y2 z2 nx ny nz e w1 w2 Hcol);
    try assumption; try (repeat split; assumption); try lra.
  rewrite HVreal.
  cbn [Velocities.velocity1 Velocities.velocity2].
  unfold same_velocity, velocityOf. cbn [Vec.x Vec.y Vec.z].
  rewrite !or_num_Fin, Hx1, Hy1, Hz1, Hx2, Hy2, Hz2.
  repeat split; f_equal; field; exact Hw.
Qed.


Lemma resolveCollision_separating_is_noop_witness :
  let obj :=
    Body.mk (Vec.mk (Fin 0) (Fin 0) None)
            (Some (Vec.mk (Fin 1) (Fin 0) None)) None None None None None in
  let collision :=
    Collision.mk true (Fin 0) None (Vector3.mk (Fin 1) (Fin 0) (Fin 0)) (Fin 1) in
  same_velocity (resolveCollision obj obj collision).(Velocities.velocity1)
                (velocityOf obj)
  /\ same_velocity (resolveCollision obj obj collision).(Velocities.velocity2)
                   (velocityOf obj).
Proof.
  intros obj collision.
  apply resolveCollision_separating_is_noop.
  - unfold totalInverseMass, obj. cbn [Body.mass Js.or_num].
    rewrite div_Fin by lra. js. apply negb_true_iff, Reqb_false. lra.
  - unfold restitutionOf, obj. cbn [Body.restitution Js.or_num].
    js. rewrite Rltb_false by lra. reflexivity.
  - unfold velAlongNormal, obj, collision.
    cbn [Body.velocity Js.or_obj Js.or_num Vec.x Vec.y Vec.z
         Collision.normal Vector3.x Vector3.y Vector3.z].
    js. apply Rleb_true. lra.
Defined.

(** The hypothesis on the inverse masses cannot be dropped: for two bodies
    at rest whose masses are both infinite, [1 / m1 + 1 / m2] is zero, the
    impulse scalar is [0 / 0], and the velocities returned are NaN. *)
Remark zero_inverse_mass_gives_NaN :
  let obj :=
    Body.mk (Vec.mk (Fin 0) (Fin 0) None) None (Some PInf) None None None None in
  let collision :=
    Collision.mk true (Fin 0) None (Vector3.mk (Fin 1) (Fin 0) (Fin 0)) (Fin 1) in
  (velAlongNormal obj obj collision >=? Fin 0) = true
  /\ (resolveCollision obj obj collision).(Velocities.velocity1).(Vec.x) = NaN.
Proof.
  intros obj collision. split.
  - unfold velAlongNormal, obj, collision, zero_velocity.
    cbn [Body.velocity Js.or_obj Vec.x Vec.y Vec.z Collision.normal
         Vector3.x Vector3.y Vector3.z].
    rewrite or_num_Fin. js. apply Rleb_true. lra.
  - unfold resolveCollision, obj, collision, zero_velocity.
    cbn [Collision.isColliding negb Body.velocity Body.mass Body.restitution
         Js.or_obj Vec.x Vec.y Vec.z Collision.normal
         Vector3.x Vector3.y Vector3.z Velocities.velocity1].
    rewrite or_num_Fin.
    cbn [Js.or_num Js.truthy Js.sub Js.neg Js.add Js.mul Js.gtb Js.ltb
         Math.min].
    rewrite Rltb_false by lra.
    rewrite (Rltb_false 0.8 0.8) by lra.
    cbn [Js.div Js.add Js.neg Js.mul].
    rewrite Reqb_true by lra.
    unfold Js.signed_inf. rewrite !Rltb_false by lra.
    reflexivity.
Qed.

(** ** Box against box *)

Lemma box_is_not_circle : String.eqb "box" "circle" = false.
Proof. reflexivity. Qed.

Lemma checkCollision_box_box (obj1 obj2 : Body.t) :
  or_shape obj1.(Body.shape) = "box"%string ->
  or_shape obj2.(Body.shape) = "box"%string ->
  checkCollision obj1 obj2
  = Collision.mk (checkBoxCollision obj1 obj2) (Fin 0) None
                 (Vector3.mk (Fin 0) (Fin 0) (Fin 0)) (Fin 0).
Proof.
  intros H1 H2. unfold checkCollision. rewrite H1, H2.
  rewrite box_is_not_circle. cbn [andb].
  rewrite String.eqb_refl. reflexivity.
Qed.

(** C10.  For two box-shaped bodies that [checkCollision] reports as
    colliding, the collision record carries the zero normal, the impulse is
    zero, and [resolveCollision] returns the input velocities, a missing [z]
    being returned as [0].  The bodies are those of the data model: finite
    velocities, a total inverse mass that is not zero, a finite
    restitution. *)
Theorem box_box_resolution_is_noop (obj1 obj2 : Body.t)
    (x1 y1 z1 x2 y2 z2 : R) :
  or_shape obj1.(Body.shape) = "box"%string ->
  or_shape obj2.(Body.shape) = "box"%string ->
  (checkCollision obj1 obj2).(Collision.isColliding) = true ->
  finite_vec (velocityOf obj1) x1 y1 z1 ->
  finite_vec (velocityOf obj2) x2 y2 z2 ->
  Js.truthy (totalInverseMass obj1 obj2) = true ->
  Js.isFinite (restitutionOf obj1 obj2) = true ->
  (checkCollision obj1 obj2).(Collision.normal)
  = Vector3.mk (Fin 0) (Fin 0) (Fin 0)
  /\ resolveCollision obj1 obj2 (checkCollision obj1 obj2)
     = Velocities.mk (Vec.mk (Fin x1) (Fin y1) (Some (Fin z1)))
                     (Vec.mk (Fin x2) (Fin y2) (Some (Fin z2))).
Proof.
  intros Hs1 Hs2 Hcol Hv1 Hv2 Hmass Hrest.
  rewrite (checkCollision_box_box obj1 obj2 Hs1 Hs2) in *.
  split; [reflexivity |].
  destruct (restitutionOf obj1 obj2) as [e | | |] eqn:He; try discriminate.
  destruct (inverse_mass obj1.(Body.mass)) as (w1 & Hw1).
  destruct (inverse_mass obj2.(Body.mass)) as (w2 & Hw2).
  assert (Hw : (w1 + w2 <> 0)%R).
  { unfold totalInverseMass in Hmass. rewrite Hw1, Hw2 in Hmass. js_in Hmass.
    unfold Reqb in Hmass.
    destruct (Req_dec_T (1 * w1 + 1 * w2) 0); [discriminate | lra]. }
  rewrite (resolveCollision_impulse obj1 obj2 _
             x1 y1 z1 x2 y2 z2 0 0 0 e w1 w2 Hcol Hv1 Hv2 eq_refl He Hw1 Hw2 Hw)
    by lra.
  f_equal; (f_equal; [f_equal | f_equal | do 2 f_equal]); field; exact Hw.
Qed.

Lemma box_box_resolution_is_noop_witness :
  let box1 :=
    Body.mk (Vec.mk (Fin 0) (Fin 0) None)
            (Some (Vec.mk (Fin 1) (Fin 0) None)) (Some (Fin 2)) None None
            (Some "box"%string) None in
  let box2 :=
    Body.mk (Vec.mk (Fin 0.5) (Fin 0) None)
            None None None None (Some "box"%string) (Some (Fin 1)) in
  resolveCollision box1 box2 (checkCollision box1 box2)
  = Velocities.mk (Vec.mk (Fin 1) (Fin 0) (Some (Fin 0)))
                  (Vec.mk (Fin 0) (Fin 0) (Some (Fin 0))).
Proof.
  intros box1 box2.
  apply (box_box_resolution_is_noop box1 box2 1 0 0 0 0 0).
  - reflexivity.
  - reflexivity.
  - rewrite checkCollision_box_box by reflexivity.
    cbn [Collision.isColliding]. unfold checkBoxCollision, box1, box2.
    cbn [Body.size Body.position Js.or_obj Js.or_num Vec.x Vec.y Vec.z
         Size.width Size.height Size.depth Js.truthy].
    rewrite (Reqb_false 1 0) by lra. js.
    rewrite !Rltb_true by lra. reflexivity.
  - unfold finite_vec, velocityOf, box1.
    cbn [Body.velocity Js.or_obj Vec.x Vec.y Vec.z Js.or_num]. auto.
  - unfold finite_vec, velocityOf, box2, zero_velocity.
    cbn [Body.velocity Js.or_obj Vec.x Vec.y Vec.z].
    rewrite or_num_Fin. auto.
  - unfold totalInverseMass, box1, box2. cbn [Body.mass Js.or_num Js.truthy].
    rewrite (Reqb_false 2 0) by lra. cbn [negb].
    rewrite !div_Fin by lra. js. apply negb_true_iff, Reqb_false. lra.
  - unfold restitutionOf, box1, box2. cbn [Body.restitution Js.or_num Js.truthy].
    rewrite (Reqb_false 1 0) by lra. js.
    unfold Rltb. destruct (Rlt_dec 1 0.8); reflexivity.
Defined.

(** ** Elastic collision of two circles *)

Lemma Rleb_elim (a b : R) : Rleb a b = true -> (a <= b)%R.
Proof. unfold Rleb. destruct (Rle_dec a b); [trivial | discriminate]. Qed.

(** A colliding pair of circles has finite centre offsets, and the normal
    of the collision record is a finite unit vector. *)
Lemma circle_normal_unit (dx dy dz minDistance : num) :
  (Math.sqrt (dx * dx + dy * dy + dz * dz) <? minDistance) = true ->
  exists nx ny nz : R,
    (if Math.sqrt (dx * dx + dy * dy + dz * dz) >? Fin 0
     then Vector3.mk (dx / Math.sqrt (dx * dx + dy * dy + dz * dz))
                     (dy / Math.sqrt (dx * dx + dy * dy + dz * dz))
                     (dz / Math.sqrt (dx * dx + dy * dy + dz * dz))
     else Vector3.mk (Fin 1) (Fin 0) (Fin 0))
    = Vector3.mk (Fin nx) (Fin ny) (Fin nz)
    /\ (nx * nx + ny * ny + nz * nz = 1)%R.
Proof.
  destruct (dx * dx + dy * dy + dz * dz) as [s | | |] eqn:Hs;
    intros Hlt; try discriminate;
    try (destruct minDistance; discriminate).
  apply add_Fin_inv in Hs as (sxy & sz & Hsxy & Hsz & ->).
  apply add_Fin_inv in Hsxy as (sx & sy & Hsx & Hsy & ->).
  apply mul_Fin_inv in Hsx as (a & a' & Ha & Ha' & ->).
  apply mul_Fin_inv in Hsy as (b & b' & Hb & Hb' & ->).
  apply mul_Fin_inv in Hsz as (c & c' & Hc & Hc' & ->).
  subst dx dy dz.
  injection Ha' as <-. injection Hb' as <-. injection Hc' as <-.
  assert (Hnn : (0 <= a * a + b * b + c * c)%R) by nra.
  rewrite sqrt_Fin in * by exact Hnn.
  set (d := sqrt (a * a + b * b + c * c)) in *.
  assert (Hd : (d * d = a * a + b * b + c * c)%R) by (apply sqrt_sqrt; exact Hnn).
  cbn [Js.gtb Js.ltb]. unfold Rltb. destruct (Rlt_dec 0 d) as [Hpos | _].
  - rewrite !div_Fin by lra.
    exists (a / d)%R, (b / d)%R, (c / d)%R. split; [reflexivity |].
    replace (a / d * (a / d) + b / d * (b / d) + c / d * (c / d))%R
      with ((a * a + b * b + c * c) / (d * d))%R by (field; lra).
    rewrite <- Hd. field. lra.
  - exists 1%R, 0%R, 0%R. split; [reflexivity | ring].
Qed.

Lemma or_num_one_nonzero (o : option num) (m : R) :
  o ||| Fin 1 = Fin m -> m <> 0%R.
Proof.
  destruct o as [[r | | |] |]; cbn [Js.or_num Js.truthy]; try discriminate.
  - unfold Reqb. destruct (Req_dec_T r 0) as [-> | Hr]; cbn [negb];
      intros H; injection H as <-; lra.
  - intros H; injection H as <-; lra.
  - intros H; injection H as <-; lra.
Qed.

Lemma ball_distance :
  sqrt ((0.8 + - 0) * (0.8 + - 0) + (0 + - 0) * (0 + - 0) + (0 + - 0) * (0 + - 0))
  = 0.8%R.
Proof.
  replace ((0.8 + - 0) * (0.8 + - 0) + (0 + - 0) * (0 + - 0)
           + (0 + - 0) * (0 + - 0))%R with (0.8 * 0.8)%R by lra.
  apply sqrt_square. lra.
Qed.

(** ** Wave interference *)

Section Interference.

Variables x y time : num.

(** The first loop: the running amplitude and the array [phases]. *)
Lemma first_loop (sources : list WaveSource.t) (total : num) (phases : list num) :
  fold_left
    (fun '(totalAmplitude, phases) source =>
       let dx := x - source.(WaveSource.position).(Vec2.x) in
       let dy := y - source.(WaveSource.position).(Vec2.y) in
       let distance := Math.sqrt (dx * dx + dy * dy) in
       let phase :=
         Fin 2 * Math.PI
           * (distance / source.(WaveSource.wavelength)
              - source.(WaveSource.frequency) * time)
         + (source.(WaveSource.phase) ||| Fin 0) in
       let amplitudeAtPoint :=
         source.(WaveSource.amplitude) / (Fin 1 + distance * Fin 0.1) in
       (totalAmplitude + amplitudeAtPoint * Math.sin phase, phases ++ [phase]))
    sources (total, phases)
  = (sumSin x y time sources total,
     phases ++ map (sourcePhase x y time) sources).
Proof.
  revert total phases.
  induction sources as [| source sources IH]; intros total phases.
  - cbn [fold_left map]. now rewrite app_nil_r.
  - cbn [fold_left map]. rewrite IH. unfold sumSin. cbn [fold_left].
    f_equal. now rewrite <- app_assoc.
Qed.

(** The second loop reads back, by index, the phases the first one stored. *)
Lemma second_loop (phases : list num) (sources : list WaveSource.t) :
  forall (before : list num) (re im : num),
    phases = before ++ map (sourcePhase x y time) sources ->
    fold_left
      (fun '(realPart, imagPart, idx) source =>
         let dx := x - source.(WaveSource.position).(Vec2.x) in
         let dy := y - source.(WaveSource.position).(Vec2.y) in
         let distance := Math.sqrt (dx * dx + dy * dy) in
         let amplitudeAtPoint :=
           source.(WaveSource.amplitude) / (Fin 1 + distance * Fin 0.1) in
         let phase := at_index phases idx in
         (realPart + amplitudeAtPoint * Math.cos phase,
          imagPart + amplitudeAtPoint * Math.sin phase,
          S idx))
      sources (re, im, List.length before)
    = (sumCos x y time sources re, sumSin x y time sources im,
       (List.length before + List.length sources)%nat).
Proof.
  induction sources as [| source sources IH]; intros before re im Hph.
  - cbn [fold_left List.length]. now rewrite Nat.add_0_r.
  - cbn [fold_left map List.length] in *.
    assert (Hat : at_index phases (List.length before) = sourcePhase x y time source).
    { unfold at_index. rewrite Hph. apply nth_middle. }
    rewrite Hat.
    specialize (IH (before ++ [sourcePhase x y time source])%list).
    rewrite length_app in IH. cbn [List.length] in IH.
    rewrite Nat.add_1_r in IH.
    rewrite IH by (now rewrite <- app_assoc).
    unfold sumCos, sumSin. cbn [fold_left].
    f_equal. lia.
Qed.

(** What [calculateInterference] returns, in terms of the two sums. *)
Lemma calculateInterference_sums (sources : list WaveSource.t) :
  calculateInterference x y sources time
  = Interference.mk
      (sumSin x y time sources (Fin 0))
      (if (1 <? List.length sources)%nat
       then sumCos x y time sources (Fin 0) * sumCos x y time sources (Fin 0)
            + sumSin x y time sources (Fin 0) * sumSin x y time sources (Fin 0)
       else sumSin x y time sources (Fin 0) * sumSin x y time sources (Fin 0)).
Proof.
  unfold calculateInterference.
  rewrite first_loop. cbn [app].
  pose proof (second_loop (map (sourcePhase x y time) sources) sources
                [] (Fin 0) (Fin 0) eq_refl) as Hsecond.
  cbn [List.length] in Hsecond. rewrite Hsecond.
  reflexivity.
Qed.

End Interference.

(** The per-source quantities on finite data. *)
Lemma source_values (x y t px py A lambda f p : R) (source : WaveSource.t) :
  source.(WaveSource.position) = Vec2.mk (Fin px) (Fin py) ->
  source.(WaveSource.amplitude) = Fin A ->
  source.(WaveSource.wavelength) = Fin lambda -> lambda <> 0%R ->
  source.(WaveSource.frequency) = Fin f ->
  (source.(WaveSource.phase) ||| Fin 0) = Fin p ->
  let d := sqrt ((x - px) * (x - px) + (y - py) * (y - py)) in
  sourceDistance (Fin x) (Fin y) source = Fin d
  /\ amplitudeAtPoint (Fin x) (Fin y) source = Fin (A / (1 + d * 0.1))
  /\ sourcePhase (Fin x) (Fin y) (Fin t) source
     = Fin (2 * PI * (d / lambda - f * t) + p).
Proof.
  intros Hpos HA Hl Hl0 Hf Hp d.
  assert (Hd : sourceDistance (Fin x) (Fin y) source = Fin d).
  { unfold sourceDistance. rewrite Hpos.
    cbn [Vec2.x Vec2.y Js.sub Js.add Js.neg Js.mul].
    rewrite sqrt_Fin by (apply Rplus_le_le_0_compat; apply Rle_0_sqr).
    reflexivity. }
  assert (Hd0 : (0 <= d)%R) by apply sqrt_pos.
  split; [exact Hd | split].
  - unfold amplitudeAtPoint. rewrite Hd, HA.
    cbn [Js.mul Js.add]. rewrite div_Fin by lra. reflexivity.
  - unfold sourcePhase. rewrite Hd, Hl, Hf, Hp.
    rewrite div_Fin by exact Hl0. reflexivity.
Qed.

(** C6.  Two sources with amplitude 1, wavelength 1, frequency 1 and
    phase 0 at [(px, py)] and [(-px, -py)]: at the origin and at time 0 the
    intensity is [(2 * a)^2], where [a = 1 / (1 + 0.1 * d)] and [d] is the
    distance of either source from the origin. *)
Theorem constructive_interference_at_origin (px py : R) :
  let source1 :=
    WaveSource.mk (Vec2.mk (Fin px) (Fin py))
                  (Fin 1) (Fin 1) (Fin 1) (Some (Fin 0)) in
  let source2 :=
    WaveSource.mk (Vec2.mk (Fin (- px)) (Fin (- py)))
                  (Fin 1) (Fin 1) (Fin 1) (Some (Fin 0)) in
  let d := sqrt (px * px + py * py) in
  let a := (1 / (1 + 0.1 * d))%R in
  (calculateInterference (Fin 0) (Fin 0) [source1; source2] (Fin 0))
    .(Interference.intensity)
  = Fin ((2 * a) * (2 * a)).
Proof.
  intros source1 source2 d a.
  rewrite calculateInterference_sums.
  cbn [Interference.intensity List.length Nat.ltb Nat.leb].
  unfold sumCos, sumSin. cbn [fold_left].
  destruct (source_values 0 0 0 px py 1 1 1 0 source1
              eq_refl eq_refl eq_refl R1_neq_R0 eq_refl (or_num_Fin 0))
    as (_ & Ha1 & Hp1).
  destruct (source_values 0 0 0 (- px) (- py) 1 1 1 0 source2
              eq_refl eq_refl eq_refl R1_neq_R0 eq_refl (or_num_Fin 0))
    as (_ & Ha2 & Hp2).
  replace (sqrt ((0 - px) * (0 - px) + (0 - py) * (0 - py))) with d in *
    by (unfold d; f_equal; ring).
  replace (sqrt ((0 - - px) * (0 - - px) + (0 - - py) * (0 - - py))) with d in *
    by (unfold d; f_equal; ring).
  rewrite Ha1, Ha2, Hp1, Hp2.
  cbn [Math.sin Math.cos Js.mul Js.add].
  set (phi := (2 * PI * (d / 1 - 1 * 0) + 0)%R).
  f_equal.
  pose proof (sin2_cos2 phi) as Hunit. unfold Rsqr in Hunit.
  replace (1 / (1 + d * 0.1))%R with a by (unfold a; f_equal; ring).
  replace ((0 + a * cos phi + a * cos phi) * (0 + a * cos phi + a * cos phi)
           + (0 + a * sin phi + a * sin phi) * (0 + a * sin phi + a * sin phi))%R
    with (2 * a * (2 * a) * (sin phi * sin phi + cos phi * cos phi))%R by ring.
  rewrite Hunit. ring.
Qed.

Lemma square_not_negative (n : num) : (n * n <? Fin 0) = false.
Proof.
  destruct n as [r | | |]; js; try reflexivity.
  apply Rltb_false. apply Rle_0_sqr.
Qed.

Lemma sum_of_squares_not_negative (n m : num) :
  (n * n + m * m <? Fin 0) = false.
Proof.
  destruct n as [r | | |], m as [s | | |]; js; try reflexivity.
  apply Rltb_false. apply Rplus_le_le_0_compat; apply Rle_0_sqr.
Qed.

Lemma finite_sums (x y t : R) (sources : list WaveSource.t) :
  Forall finite_source sources ->
  forall r : R,
    (exists s, sumSin (Fin x) (Fin y) (Fin t) sources (Fin r) = Fin s)
    /\ (exists c, sumCos (Fin x) (Fin y) (Fin t) sources (Fin r) = Fin c).
Proof.
  induction 1 as [| source sources Hsrc _ IH]; intros r.
  - split; eexists; reflexivity.
  - destruct Hsrc as (px & py & A & lambda & f & p & Hpos & HA & Hl & Hl0 & Hf & Hp).
    destruct (source_values x y t px py A lambda f p source
                Hpos HA Hl Hl0 Hf Hp) as (_ & Ha & Hph).
    unfold sumSin, sumCos. cbn [fold_left]. rewrite Ha, Hph.
    cbn [Math.sin Math.cos Js.mul Js.add].
    split.
    + apply (proj1 (IH _)).
    + apply (proj2 (IH _)).
Qed.

(** C7, as amended.  The intensity that [calculateInterference] returns is
    never negative, whatever the inputs; for a finite point and time and for
    sources of the data model it is a finite number [>= 0].  The returned
    amplitude is the signed sum of [amplitudeAtPoint * sin phase] and is
    finite there, but carries either sign. *)
Theorem interference_intensity_nonnegative :
  (forall (x y time : num) (sources : list WaveSource.t),
      ((calculateInterference x y sources time).(Interference.intensity)
       <? Fin 0) = false)
  /\ (forall (x y time : R) (sources : list WaveSource.t),
      Forall finite_source sources ->
      exists a i : R,
        calculateInterference (Fin x) (Fin y) sources (Fin time)
        = Interference.mk (Fin a) (Fin i)
        /\ (0 <= i)%R).
Proof.
  split.
  - intros x y time sources. rewrite calculateInterference_sums.
    cbn [Interference.intensity].
    destruct (1 <? List.length sources)%nat.
    + apply sum_of_squares_not_negative.
    + apply square_not_negative.
  - intros x y time sources Hfin. rewrite calculateInterference_sums.
    destruct (finite_sums x y time sources Hfin 0) as ((s & Hs) & (c & Hc)).
    rewrite Hs, Hc. cbn [Js.mul Js.add].
    destruct (1 <? List.length sources)%nat; eexists; eexists;
      (split; [reflexivity |]).
    + apply Rplus_le_le_0_compat; apply Rle_0_sqr.
    + apply Rle_0_sqr.
Qed.

Lemma interference_intensity_nonnegative_witness :
  exists a i : R,
    calculateInterference (Fin 0) (Fin 0)
      [WaveSource.mk (Vec2.mk (Fin 1) (Fin 0)) (Fin 1) (Fin 1) (Fin 1) None;
       WaveSource.mk (Vec2.mk (Fin (-1)) (Fin 0)) (Fin 1) (Fin 1) (Fin 1) None]
      (Fin 0)
    = Interference.mk (Fin a) (Fin i)
    /\ (0 <= i)%R.
Proof.
  apply (proj2 interference_intensity_nonnegative).
  repeat constructor.
  - exists 1%R, 0%R, 1%R, 1%R, 1%R, 0%R.
    repeat split; try reflexivity. exact R1_neq_R0.
  - exists (-1)%R, 0%R, 1%R, 1%R, 1%R, 0%R.
    repeat split; try reflexivity. exact R1_neq_R0.
Defined.

(** C7 as stated fails for the amplitude: one source of amplitude 1
    (wavelength 1, frequency 1, no phase) at the origin, observed at the
    origin at time 0.25, gives the amplitude -1. *)
Lemma interference_amplitude_can_be_negative :
  let source :=
    WaveSource.mk (Vec2.mk (Fin 0) (Fin 0)) (Fin 1) (Fin 1) (Fin 1) None in
  (Fin 0 <=? source.(WaveSource.amplitude)) = true
  /\ (calculateInterference (Fin 0) (Fin 0) [source] (Fin 0.25))
       .(Interference.amplitude) = Fin (-1)
  /\ (Fin 0 <=? Fin (-1)) = false.
Proof.
  intros source. split; [| split].
  - cbn [WaveSource.amplitude Js.leb]. apply Rleb_true. lra.
  - rewrite calculateInterference_sums. cbn [Interference.amplitude].
    unfold sumSin. cbn [fold_left].
    destruct (source_values 0 0 0.25 0 0 1 1 1 0 source
                eq_refl eq_refl eq_refl R1_neq_R0 eq_refl eq_refl)
      as (_ & Ha & Hp).
    rewrite Ha, Hp. cbn [Math.sin Js.mul Js.add]. f_equal.
    replace (sqrt ((0 - 0) * (0 - 0) + (0 - 0) * (0 - 0))) with 0%R
      by (symmetry; replace ((0 - 0) * (0 - 0) + (0 - 0) * (0 - 0))%R
            with 0%R by ring; apply sqrt_0).
    replace (2 * PI * (0 / 1 - 1 * 0.25) + 0)%R with (- (PI / 2))%R by lra.
    rewrite sin_neg, sin_PI2. lra.
  - cbn [Js.leb]. apply Rleb_false. lra.
Qed.

(** ** The tracing loop *)

(** The points collected before the loop is entered stay in front of the
    result and do not influence it. *)
Lemma fieldLineLoop_prefix (charges : list Charge.t) (stepSize : num)
    (steps : nat) :
  forall (points : list Vector3.t) (currentPoint : Vector3.t),
    fieldLineLoop charges stepSize steps points currentPoint
    = (points ++ fst (fieldLineLoop charges stepSize steps [] currentPoint),
       snd (fieldLineLoop charges stepSize steps [] currentPoint)).
Proof.
  induction steps as [| steps IH]; intros points currentPoint.
  - reflexivity.
  - cbn [fieldLineLoop].
    destruct (fieldLineStep charges stepSize currentPoint) as [nextPoint | why].
    + rewrite (IH (points ++ [currentPoint])), (IH ([] ++ [currentPoint])).
      cbn [fst snd app]. now rewrite <- app_assoc.
    + reflexivity.
Qed.

(** The trace starts with the point it is started from. *)
Lemma fieldLineLoop_head (charges : list Charge.t) (stepSize : num)
    (steps : nat) (currentPoint : Vector3.t) :
  exists rest,
    fst (fieldLineLoop charges stepSize steps [] currentPoint)
    = currentPoint :: rest.
Proof.
  destruct steps as [| steps]; cbn [fieldLineLoop].
  - now exists [].
  - destruct (fieldLineStep charges stepSize currentPoint) as [nextPoint | why].
    + rewrite fieldLineLoop_prefix. cbn [fst app]. eexists; reflexivity.
    + now exists [].
Qed.

(** ** Field lines of an isolated charge *)

Section IsolatedCharge.

Variable charge : Charge.t.
Variables cx cy cz q : R.
Hypothesis charge_finite : finite_charge charge cx cy cz q.

Lemma charge_z : (charge.(Charge.position).(Vec.z) ||| Fin 0) = Fin cz.
Proof.
  destruct charge_finite as (_ & _ & [Hz | [Hz ->]] & _); rewrite Hz.
  - apply or_num_Fin.
  - reflexivity.
Qed.

Lemma chargeCentre_finite :
  chargeCentre charge = Vector3.mk (Fin cx) (Fin cy) (Fin cz).
Proof.
  unfold chargeCentre, Vector3.new.
  destruct charge_finite as (-> & -> & [Hz | [Hz ->]] & _); now rewrite Hz.
Qed.

Local Abbreviation rho2 := (dist2 cx cy cz).
Local Abbreviation rho := (dist cx cy cz).

Lemma dist2_nonneg (px py pz : R) : (0 <= rho2 px py pz)%R.
Proof.
  unfold dist2.
  repeat apply Rplus_le_le_0_compat; apply Rle_0_sqr.
Qed.

Lemma chargeDistance_finite (px py pz : R) :
  chargeDistance (Vector3.mk (Fin px) (Fin py) (Fin pz)) charge
  = Fin (rho px py pz).
Proof.
  unfold chargeDistance. rewrite charge_z.
  destruct charge_finite as (-> & -> & _).
  cbn [Vector3.x Vector3.y Vector3.z]. rewrite or_num_Fin.
  cbn [Js.sub Js.add Js.neg Js.mul].
  rewrite sqrt_Fin by apply (dist2_nonneg px py pz).
  reflexivity.
Qed.

Lemma distanceTo_centre (px py pz : R) :
  Vector3.distanceTo (Vector3.mk (Fin px) (Fin py) (Fin pz)) (chargeCentre charge)
  = Fin (rho px py pz).
Proof.
  rewrite chargeCentre_finite. unfold Vector3.distanceTo.
  cbn [Vector3.x Vector3.y Vector3.z Js.sub Js.add Js.neg Js.mul].
  rewrite sqrt_Fin by apply (dist2_nonneg px py pz).
  reflexivity.
Qed.

Hypothesis charge_positive : (0 < q)%R.

Lemma dist_square (px py pz : R) :
  (rho px py pz * rho px py pz = rho2 px py pz)%R.
Proof. apply sqrt_sqrt, dist2_nonneg. Qed.

(** The field of the single charge at a finite point: nothing within
    [0.3] of it, Coulomb's law along the radius elsewhere. *)
Lemma totalField_single (px py pz : R) :
  totalField [charge] (Vector3.mk (Fin px) (Fin py) (Fin pz))
  = if Rltb (rho px py pz) 0.3 then (Fin 0, Fin 0, Fin 0)
    else
      (Fin (0 + 8.99e9 * q / rho2 px py pz * ((px - cx) / rho px py pz)),
       Fin (0 + 8.99e9 * q / rho2 px py pz * ((py - cy) / rho px py pz)),
       Fin (0 + 8.99e9 * q / rho2 px py pz * ((pz - cz) / rho px py pz))).
Proof.
  unfold totalField. cbn [fold_left].
  change (Math.sqrt _) with
    (chargeDistance (Vector3.mk (Fin px) (Fin py) (Fin pz)) charge).
  rewrite chargeDistance_finite. cbn [Js.ltb].
  destruct (Rltb (rho px py pz) 0.3) eqn:Hnear; [reflexivity |].
  assert (Hr : (0.3 <= rho px py pz)%R).
  { revert Hnear. unfold Rltb. destruct (Rlt_dec _ _); [discriminate | lra]. }
  assert (Hr2 : (rho2 px py pz <> 0)%R).
  { rewrite <- dist_square. nra. }
  rewrite charge_z.
  destruct charge_finite as (Hx & Hy & _ & Hq). rewrite Hx, Hy, Hq.
  cbn [Vector3.x Vector3.y Vector3.z]. rewrite or_num_Fin.
  unfold k. cbn [Js.sub Js.add Js.neg Js.mul].
  change ((px + - cx) * (px + - cx) + (py + - cy) * (py + - cy)
          + (pz + - cz) * (pz + - cz))%R with (rho2 px py pz).
  rewrite !div_Fin by lra.
  reflexivity.
Qed.

(** One step of length [s] along the radius moves the point from distance
    [r] to distance [r + s]. *)
Lemma dist_next (s px py pz : R) :
  (0 < rho px py pz)%R -> (0 <= s)%R ->
  rho (px + s * ((px - cx) / rho px py pz))
      (py + s * ((py - cy) / rho px py pz))
      (pz + s * ((pz - cz) / rho px py pz))
  = (rho px py pz + s)%R.
Proof.
  intros Hr Hs. pose proof (dist_square px py pz) as Hsq.
  set (r := rho px py pz) in *.
  unfold dist at 1.
  replace (dist2 cx cy cz (px + s * ((px - cx) / r)) (py + s * ((py - cy) / r))
             (pz + s * ((pz - cz) / r)))
    with ((r + s) * (r + s))%R.
  - apply sqrt_square. lra.
  - unfold dist2 in *.
    replace ((px + s * ((px - cx) / r) - cx) * (px + s * ((px - cx) / r) - cx)
             + (py + s * ((py - cy) / r) - cy) * (py + s * ((py - cy) / r) - cy)
             + (pz + s * ((pz - cz) / r) - cz) * (pz + s * ((pz - cz) / r) - cz))%R
      with (((px - cx) * (px - cx) + (py - cy) * (py - cy) + (pz - cz) * (pz - cz))
            * ((r + s) / r) * ((r + s) / r))%R by (field; lra).
    rewrite <- Hsq. field. lra.
Qed.

(** The magnitude of the field of the single charge is [k q / r^2]. *)
Lemma field_magnitude (px py pz : R) :
  (0 < rho px py pz)%R ->
  let E := (8.99e9 * q / rho2 px py pz)%R in
  sqrt ((0 + E * ((px - cx) / rho px py pz)) * (0 + E * ((px - cx) / rho px py pz))
        + (0 + E * ((py - cy) / rho px py pz)) * (0 + E * ((py - cy) / rho px py pz))
        + (0 + E * ((pz - cz) / rho px py pz)) * (0 + E * ((pz - cz) / rho px py pz)))
  = E /\ (0 < E)%R.
Proof.
  intros Hr E. pose proof (dist_square px py pz) as Hsq.
  set (r := rho px py pz) in *.
  assert (HE : (0 < E)%R).
  { unfold E. rewrite <- Hsq. apply Rdiv_lt_0_compat; nra. }
  split; [| exact HE].
  replace ((0 + E * ((px - cx) / r)) * (0 + E * ((px - cx) / r))
           + (0 + E * ((py - cy) / r)) * (0 + E * ((py - cy) / r))
           + (0 + E * ((pz - cz) / r)) * (0 + E * ((pz - cz) / r)))%R
    with (E * E * (dist2 cx cy cz px py pz / (r * r)))%R
    by (unfold dist2; field; lra).
  rewrite Hsq.
  replace (E * E * (dist2 cx cy cz px py pz / dist2 cx cy cz px py pz))%R
    with (E * E)%R by (field; rewrite <- Hsq; nra).
  apply sqrt_square. lra.
Qed.

(** Within [0.3] of the charge the field is taken to be zero and the trace
    stops at once. *)
Lemma fieldLineStep_near (stepSize : num) (px py pz : R) :
  (rho px py pz < 0.3)%R ->
  fieldLineStep [charge] stepSize (Vector3.mk (Fin px) (Fin py) (Fin pz))
  = Break FieldTooWeak.
Proof.
  intros Hr. unfold fieldLineStep.
  rewrite totalField_single, Rltb_true by exact Hr.
  cbn [Js.mul Js.add].
  rewrite sqrt_Fin by lra.
  replace (0 * 0 + 0 * 0 + 0 * 0)%R with 0%R by ring. rewrite sqrt_0.
  cbn [Js.ltb]. rewrite Rltb_true by lra. reflexivity.
Qed.

(** From [0.3] outwards one iteration either stops because the field is
    below [0.01], or moves the point by [s] along the radius, and then
    stops if the new point is outside the box; the flag [tooClose] is
    never set. *)
Lemma fieldLineStep_single (s px py pz : R) :
  (0.3 <= rho px py pz)%R -> (0 <= s)%R ->
  fieldLineStep [charge] (Fin s) (Vector3.mk (Fin px) (Fin py) (Fin pz))
  = if Rltb (8.99e9 * q / rho2 px py pz) 0.01 then Break FieldTooWeak
    else
      let nx := (px + s * ((px - cx) / rho px py pz))%R in
      let ny := (py + s * ((py - cy) / rho px py pz))%R in
      let nz := (pz + s * ((pz - cz) / rho px py pz))%R in
      if Rltb 15 (Rabs nx) || Rltb 15 (Rabs ny) then Break OutOfBounds
      else Push (Vector3.mk (Fin nx) (Fin ny) (Fin nz)).
Proof.
  intros Hr Hs. unfold fieldLineStep.
  rewrite totalField_single, Rltb_false by exact Hr.
  destruct (field_magnitude px py pz ltac:(lra)) as (Hmag & HE).
  cbv zeta in Hmag, HE.
  cbn [Js.mul Js.add].
  rewrite sqrt_Fin by
    (repeat apply Rplus_le_le_0_compat; apply Rle_0_sqr).
  rewrite Hmag. cbn [Js.ltb].
  destruct (Rltb (8.99e9 * q / rho2 px py pz) 0.01) eqn:Hweak; [reflexivity |].
  rewrite !div_Fin by lra.
  unfold Vector3.add, Vector3.multiplyScalar, Vector3.clone.
  cbn [Vector3.x Vector3.y Vector3.z Js.mul Js.add].
  assert (Hn : forall p d : R,
             (p + (0 + 8.99e9 * q / rho2 px py pz * d)
                  / (8.99e9 * q / rho2 px py pz) * s
              = p + s * d)%R).
  { intros p d. set (E := (8.99e9 * q / rho2 px py pz)%R) in *. field. lra. }
  rewrite !Hn.
  unfold tooCloseTo. cbn [fold_left].
  change (Vector3.new _ _ _) with (chargeCentre charge).
  rewrite distanceTo_centre, dist_next by lra.
  cbn [Js.ltb]. rewrite Rltb_false by lra.
  cbn [Math.abs Js.gtb Js.ltb].
  reflexivity.
Qed.

(** Along the whole trace the flag [tooClose] is never the reason to stop,
    and every point is strictly farther from the charge than the one
    before. *)
Lemma isolated_trace (s : R) (steps : nat) :
  (0 < s)%R ->
  forall px py pz : R,
    snd (fieldLineLoop [charge] (Fin s) steps []
           (Vector3.mk (Fin px) (Fin py) (Fin pz))) <> TooClose
    /\ stepwise (nearer (chargeCentre charge))
         (fst (fieldLineLoop [charge] (Fin s) steps []
                 (Vector3.mk (Fin px) (Fin py) (Fin pz)))).
Proof.
  intros Hs. induction steps as [| steps IH]; intros px py pz.
  - cbn [fieldLineLoop fst snd app stepwise]. split; [discriminate | exact I].
  - cbn [fieldLineLoop].
    destruct (Rlt_dec (rho px py pz) 0.3) as [Hnear | Hfar].
    { rewrite fieldLineStep_near by exact Hnear.
      cbn [fst snd app stepwise]. split; [discriminate | exact I]. }
    rewrite fieldLineStep_single by lra.
    destruct (Rltb (8.99e9 * q / rho2 px py pz) 0.01).
    { cbn [fst snd app stepwise]. split; [discriminate | exact I]. }
    cbv zeta.
    destruct (Rltb 15 (Rabs _) || Rltb 15 (Rabs _)).
    { cbn [fst snd app stepwise]. split; [discriminate | exact I]. }
    rewrite fieldLineLoop_prefix. cbn [fst snd app].
    destruct (IH (px + s * ((px - cx) / rho px py pz))%R
                 (py + s * ((py - cy) / rho px py pz))%R
                 (pz + s * ((pz - cz) / rho px py pz))%R) as (Hwhy & Hsteps).
    split; [exact Hwhy |].
    destruct (fieldLineLoop_head [charge] (Fin s) steps
                (Vector3.mk (Fin (px + s * ((px - cx) / rho px py pz)))
                            (Fin (py + s * ((py - cy) / rho px py pz)))
                            (Fin (pz + s * ((pz - cz) / rho px py pz)))))
      as (rest & Hrest).
    rewrite Hrest in *. cbn [stepwise]. split; [| exact Hsteps].
    unfold nearer. rewrite !distanceTo_centre, dist_next by lra.
    cbn [Js.ltb]. apply Rltb_true. lra.
Qed.

End IsolatedCharge.

Lemma start_point_finite (startPoint : Vec.t) (sx sy sz : R) :
  finite_position startPoint sx sy sz ->
  Vector3.new startPoint.(Vec.x) startPoint.(Vec.y) startPoint.(Vec.z)
  = Vector3.mk (Fin sx) (Fin sy) (Fin sz).
Proof.
  intros (-> & -> & [Hz | [Hz ->]]); unfold Vector3.new; now rewrite Hz.
Qed.

(** C5, as amended.  A field line traced with a positive step from a
    finite start point in the field of a single finite charge [q > 0]
    never ends by absorption: it ends because the next point would leave
    the box [|x| <= 15, |y| <= 15], because the field has dropped below
    [0.01], or because [maxSteps] iterations are done; and every point of
    the line is strictly farther from the charge than the one before. *)
Theorem isolated_positive_charge_field_line
    (charge : Charge.t) (startPoint : Vec.t)
    (maxSteps : option nat) (stepSize : option num)
    (cx cy cz q sx sy sz s : R) :
  finite_charge charge cx cy cz q -> (0 < q)%R ->
  finite_position startPoint sx sy sz ->
  match stepSize with Some v => v | None => Fin 0.1 end = Fin s -> (0 < s)%R ->
  let why := snd (traceFieldLine startPoint [charge] maxSteps stepSize) in
  (why = FieldTooWeak \/ why = OutOfBounds \/ why = MaxSteps)
  /\ why <> TooClose
  /\ stepwise (nearer (chargeCentre charge))
       (calculateFieldLine startPoint [charge] maxSteps stepSize).
Proof.
  intros Hcharge Hq Hstart Hstep Hs why.
  unfold calculateFieldLine. subst why. unfold traceFieldLine.
  rewrite Hstep, (start_point_finite startPoint sx sy sz Hstart).
  destruct (isolated_trace charge cx cy cz q Hcharge Hq s
              (match maxSteps with Some n => n | None => 200%nat end)
              Hs sx sy sz) as (Hwhy & Hsteps).
  split; [| split; [exact Hwhy | exact Hsteps]].
  destruct (snd _); auto. contradiction.
Qed.

Lemma isolated_positive_charge_field_line_witness :
  let charge := Charge.mk (Vec.mk (Fin 0) (Fin 0) None) (Fin 1) in
  let startPoint := Vec.mk (Fin 0.5) (Fin 0) None in
  snd (traceFieldLine startPoint [charge] None None) <> TooClose
  /\ stepwise (nearer (chargeCentre charge))
       (calculateFieldLine startPoint [charge] None None).
Proof.
  intros charge startPoint.
  apply (isolated_positive_charge_field_line charge startPoint None None
           0 0 0 1 0.5 0 0 0.1).
  - repeat split. right. split; reflexivity.
  - lra.
  - repeat split. right. split; reflexivity.
  - reflexivity.
  - lra.
Defined.

(** ** A field line is a ray *)

Section Ray.

Variable charge : Charge.t.
Variables cx cy cz q : R.
Hypothesis charge_finite : finite_charge charge cx cy cz q.
Hypothesis charge_positive : (0 < q)%R.

(** A unit direction. *)
Variables ux uy uz : R.
Hypothesis unit_direction : (ux * ux + uy * uy + uz * uz = 1)%R.

Local Abbreviation ray := (rayPoint cx cy cz ux uy uz).

Lemma dist2_ray (t : R) :
  dist2 cx cy cz (cx + t * ux) (cy + t * uy) (cz + t * uz) = (t * t)%R.
Proof.
  unfold dist2.
  replace ((cx + t * ux - cx) * (cx + t * ux - cx)
           + (cy + t * uy - cy) * (cy + t * uy - cy)
           + (cz + t * uz - cz) * (cz + t * uz - cz))%R
    with (t * t * (ux * ux + uy * uy + uz * uz))%R by ring.
  rewrite unit_direction. ring.
Qed.

Lemma dist_ray (t : R) :
  (0 <= t)%R ->
  dist cx cy cz (cx + t * ux) (cy + t * uy) (cz + t * uz) = t.
Proof.
  intros Ht. unfold dist. rewrite dist2_ray. now apply sqrt_square.
Qed.

(** One iteration on the ray. *)
Lemma fieldLineStep_ray (s t : R) :
  (0.3 <= t)%R -> (0 <= s)%R ->
  fieldLineStep [charge] (Fin s) (ray t)
  = if Rltb (8.99e9 * q / (t * t)) 0.01 then Break FieldTooWeak
    else if Rltb 15 (Rabs (cx + (t + s) * ux))
            || Rltb 15 (Rabs (cy + (t + s) * uy))
    then Break OutOfBounds
    else Push (ray (t + s)).
Proof.
  intros Ht Hs. unfold rayPoint.
  rewrite (fieldLineStep_single charge cx cy cz q charge_finite charge_positive)
    by (rewrite ?dist_ray; lra).
  rewrite dist2_ray, dist_ray by lra.
  cbv zeta.
  replace (cx + t * ux + s * ((cx + t * ux - cx) / t))%R
    with (cx + (t + s) * ux)%R by (field; lra).
  replace (cy + t * uy + s * ((cy + t * uy - cy) / t))%R
    with (cy + (t + s) * uy)%R by (field; lra).
  replace (cz + t * uz + s * ((cz + t * uz - cz) / t))%R
    with (cz + (t + s) * uz)%R by (field; lra).
  reflexivity.
Qed.

(** If for [steps] iterations the field stays at or above [0.01] and the
    next point stays inside the box, the loop runs out of iterations. *)
Lemma fieldLineLoop_ray_maxSteps (s : R) (steps : nat) :
  (0 <= s)%R ->
  forall t : R,
    (0.3 <= t)%R ->
    (forall i : nat, (i < steps)%nat ->
       (0.01 <= 8.99e9 * q / ((t + INR i * s) * (t + INR i * s))
        /\ Rabs (cx + (t + INR i * s + s) * ux) <= 15
        /\ Rabs (cy + (t + INR i * s + s) * uy) <= 15)%R) ->
    snd (fieldLineLoop [charge] (Fin s) steps [] (ray t)) = MaxSteps
    /\ List.length (fst (fieldLineLoop [charge] (Fin s) steps [] (ray t)))
       = S steps.
Proof.
  intros Hs. induction steps as [| steps IH]; intros t Ht Hok.
  - split; reflexivity.
  - cbn [fieldLineLoop]. rewrite fieldLineStep_ray by lra.
    destruct (Hok 0%nat ltac:(lia)) as (Hfield & Hx & Hy).
    cbn [INR] in Hfield, Hx, Hy.
    replace (t + 0 * s)%R with t in * by ring.
    rewrite Rltb_false by exact Hfield.
    rewrite !Rltb_false by assumption. cbn [orb].
    rewrite fieldLineLoop_prefix. cbn [fst snd app List.length].
    destruct (IH (t + s)%R ltac:(lra)) as (Hwhy & Hlen).
    { intros i Hi. specialize (Hok (S i) ltac:(lia)).
      rewrite S_INR in Hok.
      replace (t + (INR i + 1) * s)%R with (t + s + INR i * s)%R in Hok by ring.
      exact Hok. }
    split; [exact Hwhy | now rewrite Hlen].
Qed.

(** If the field at the start is already below [0.01], the trace is the
    start point alone. *)
Lemma fieldLineLoop_ray_weak (s t : R) (steps : nat) :
  (0 <= s)%R -> (0.3 <= t)%R ->
  (8.99e9 * q / (t * t) < 0.01)%R ->
  fieldLineLoop [charge] (Fin s) (S steps) [] (ray t) = ([ray t], FieldTooWeak).
Proof.
  intros Hs Ht Hweak. cbn [fieldLineLoop].
  rewrite fieldLineStep_ray by lra.
  now rewrite Rltb_true by exact Hweak.
Qed.

End Ray.

(** ** The bundle drawn by the visualisation *)

Lemma Rle_div_intro (a b c : R) : (0 < c)%R -> (a * c <= b)%R -> (a <= b / c)%R.
Proof.
  intros Hc H. apply Rmult_le_reg_r with c; [exact Hc |].
  unfold Rdiv. rewrite Rmult_assoc, Rinv_l by lra. lra.
Qed.

Lemma Rlt_div_intro (a b c : R) : (0 < c)%R -> (b < a * c)%R -> (b / c < a)%R.
Proof.
  intros Hc H. apply Rmult_lt_reg_r with c; [exact Hc |].
  unfold Rdiv. rewrite Rmult_assoc, Rinv_l by lra. lra.
Qed.

Lemma cos_sin_PI4 :
  (0 < cos (PI / 4) <= 0.72)%R /\ sin (PI / 4) = cos (PI / 4).
Proof.
  rewrite cos_PI4, sin_PI4. split; [| reflexivity].
  assert (H2 : (sqrt 2 * sqrt 2 = 2)%R) by (apply sqrt_sqrt; lra).
  assert (Hpos : (0 < sqrt 2)%R) by (apply sqrt_lt_R0; lra).
  assert (Hlow : (1.4 <= sqrt 2)%R) by nra.
  split.
  - apply Rdiv_lt_0_compat; lra.
  - apply Rmult_le_reg_r with (sqrt 2); [exact Hpos |].
    unfold Rdiv. rewrite Rmult_assoc, Rinv_l by lra. lra.
Qed.

(** The seed of line [i] around a finite charge, as a point of the ray in
    the direction of its angle. *)
Lemma seedPoint_on_ray (charge : Charge.t) (cx cy cz q : R) (i : nat) :
  finite_charge charge cx cy cz q ->
  let angle := (INR i / 16 * PI * 2)%R in
  Vector3.new (seedPoint charge i).(Vec.x) (seedPoint charge i).(Vec.y)
              (seedPoint charge i).(Vec.z)
  = rayPoint cx cy cz (cos angle) (sin angle) 0 0.5.
Proof.
  intros Hcharge angle.
  pose proof (charge_z charge cx cy cz q Hcharge) as Hz.
  destruct Hcharge as (Hx & Hy & _).
  unfold seedPoint, Vector3.new, rayPoint. cbn [Vec.x Vec.y Vec.z].
  rewrite Hx, Hy, Hz. unfold Math.PI.
  rewrite div_Fin by lra.
  cbn [Js.mul Js.add Math.cos Math.sin]. fold angle.
  f_equal; f_equal; ring.
Qed.

Lemma unit_charge_finite : finite_charge unit_charge 0 0 0 1.
Proof. repeat split. now left. Qed.

Lemma faint_charge_finite : finite_charge faint_charge 0 0 0 1e-13.
Proof. repeat split. now left. Qed.

(** C5 as stated fails on the bundle the visualisation itself draws.  With
    the default [maxSteps = 200] and [stepSize = 0.1], the line seeded at
    the angle [PI / 4] (line 2 of 16) around a charge of one coulomb at the
    origin is still inside the box after 200 steps: the trace ends because
    [maxSteps] is reached, with 201 points.  Around a charge of [1e-13] the
    field at the seed of line 0 is already below [0.01]: the trace is the
    seed alone and ends because the field is too weak. *)
Lemma field_line_ends_without_leaving_the_box :
  (snd (traceFieldLine (seedPoint unit_charge 2) [unit_charge] None None)
   = MaxSteps
   /\ List.length (calculateFieldLine (seedPoint unit_charge 2) [unit_charge]
                     None None) = 201%nat)
  /\ (exists p,
         traceFieldLine (seedPoint faint_charge 0) [faint_charge] None None
         = ([p], FieldTooWeak)).
Proof.
  split.
  - unfold calculateFieldLine, traceFieldLine.
    rewrite (seedPoint_on_ray unit_charge 0 0 0 1 2 unit_charge_finite).
    cbv zeta.
    replace (INR 2 / 16 * PI * 2)%R with (PI / 4)%R by (cbn [INR]; lra).
    destruct cos_sin_PI4 as ((Hc0 & Hc1) & Hsin). rewrite Hsin.
    assert (Hunit : (cos (PI / 4) * cos (PI / 4) + cos (PI / 4) * cos (PI / 4)
                     + 0 * 0 = 1)%R).
    { pose proof (sin2_cos2 (PI / 4)) as H. unfold Rsqr in H.
      rewrite Hsin in H. lra. }
    apply (fieldLineLoop_ray_maxSteps unit_charge 0 0 0 1
             unit_charge_finite ltac:(lra) _ _ _ Hunit 0.1 200
             ltac:(lra) 0.5 ltac:(lra)).
    intros i Hi.
    assert (Hi0 : (0 <= INR i)%R) by apply pos_INR.
    assert (Hi1 : (INR i <= 199)%R).
    { assert (Hle : (i <= 199)%nat) by lia.
      apply le_INR in Hle. rewrite (INR_IZR_INZ 199) in Hle.
      exact Hle. }
    set (t := (0.5 + INR i * 0.1)%R).
    assert (Ht : (0.5 <= t <= 20.4)%R) by (unfold t; lra).
    assert (Hprod : (0 <= (t + 0.1) * cos (PI / 4) <= 20.5 * 0.72)%R).
    { split; [apply Rmult_le_pos; lra |].
      apply Rmult_le_compat; lra. }
    repeat split.
    + apply Rle_div_intro; nra.
    + rewrite Rabs_pos_eq; lra.
    + rewrite Rabs_pos_eq; lra.
  - unfold traceFieldLine.
    rewrite (seedPoint_on_ray faint_charge 0 0 0 1e-13 0 faint_charge_finite).
    cbv zeta. eexists.
    apply (fieldLineLoop_ray_weak faint_charge 0 0 0 1e-13
             faint_charge_finite ltac:(lra)).
    + pose proof (sin2_cos2 (INR 0 / 16 * PI * 2)) as H. unfold Rsqr in H. lra.
    + lra.
    + lra.
    + apply Rlt_div_intro; lra.
Qed.

(** ** Charges on top of the start point *)

Lemma totalField_all_near (charges : list Charge.t) (currentPoint : Vector3.t) :
  Forall (fun charge => (chargeDistance currentPoint charge <? Fin 0.3) = true)
         charges ->
  totalField charges currentPoint = (Fin 0, Fin 0, Fin 0).
Proof.
  intros Hall. unfold totalField. generalize (Fin 0, Fin 0, Fin 0).
  induction Hall as [| charge charges Hnear _ IH];
    intros [[fieldX fieldY] fieldZ].
  - reflexivity.
  - cbn [fold_left]. unfold chargeDistance in Hnear. cbv zeta in Hnear.
    rewrite Hnear. apply IH.
Qed.

(** C9.  When every charge is within [0.3] of the start point, the trace
    ends at once and consists of the start point alone, whatever
    [maxSteps] and [stepSize] are: the first iteration finds no field, or
    there is no iteration at all. *)
Theorem coincident_charges_give_single_point
    (startPoint : Vec.t) (charges : list Charge.t)
    (maxSteps : option nat) (stepSize : option num) :
  let start :=
    Vector3.new startPoint.(Vec.x) startPoint.(Vec.y) startPoint.(Vec.z) in
  Forall (fun charge => (chargeDistance start charge <? Fin 0.3) = true)
         charges ->
  calculateFieldLine startPoint charges maxSteps stepSize = [start]
  /\ (snd (traceFieldLine startPoint charges maxSteps stepSize) = FieldTooWeak
      \/ (maxSteps = Some 0%nat
          /\ snd (traceFieldLine startPoint charges maxSteps stepSize) = MaxSteps)).
Proof.
  intros start Hnear.
  unfold calculateFieldLine, traceFieldLine. fold start.
  destruct (match maxSteps with Some n => n | None => 200%nat end)
    as [| steps] eqn:Hsteps.
  - cbn [fieldLineLoop fst snd app]. split; [reflexivity | right].
    split; [| reflexivity].
    destruct maxSteps as [n |]; [now subst | discriminate].
  - cbn [fieldLineLoop]. unfold fieldLineStep.
    rewrite (totalField_all_near charges start Hnear).
    cbn [Js.mul Js.add].
    rewrite sqrt_Fin by lra.
    replace (0 * 0 + 0 * 0 + 0 * 0)%R with 0%R by ring. rewrite sqrt_0.
    cbn [Js.ltb]. rewrite Rltb_true by lra.
    cbn [fst snd app]. split; [reflexivity | now left].
Qed.

Lemma coincident_charges_give_single_point_witness :
  let startPoint := Vec.mk (Fin 1) (Fin 2) None in
  let charges :=
    [Charge.mk (Vec.mk (Fin 1) (Fin 2) None) (Fin 1);
     Charge.mk (Vec.mk (Fin 1) (Fin 2) (Some (Fin 0))) (Fin (-1))] in
  calculateFieldLine startPoint charges None None
  = [Vector3.mk (Fin 1) (Fin 2) (Fin 0)].
Proof.
  intros startPoint charges.
  apply (coincident_charges_give_single_point startPoint charges None None).
  assert (Hzero : sqrt ((1 + - (1)) * (1 + - (1)) + (2 + - (2)) * (2 + - (2))
                        + (0 + - 0) * (0 + - 0)) = 0%R).
  { replace ((1 + - (1)) * (1 + - (1)) + (2 + - (2)) * (2 + - (2))
             + (0 + - 0) * (0 + - 0))%R with 0%R by ring.
    apply sqrt_0. }
  repeat constructor.
  - unfold chargeDistance, startPoint, Vector3.new.
    cbn [Vec.x Vec.y Vec.z Vector3.x Vector3.y Vector3.z Charge.position].
    rewrite or_num_Fin. cbn [Js.or_num Js.sub Js.neg Js.add Js.mul].
    rewrite sqrt_Fin by lra. rewrite Hzero.
    cbn [Js.ltb]. apply Rltb_true. lra.
  - unfold chargeDistance, startPoint, Vector3.new.
    cbn [Vec.x Vec.y Vec.z Vector3.x Vector3.y Vector3.z Charge.position].
    rewrite !or_num_Fin. cbn [Js.sub Js.neg Js.add Js.mul].
    rewrite sqrt_Fin by lra. rewrite Hzero.
    cbn [Js.ltb]. apply Rltb_true. lra.
Defined.

(** * Further properties of the formula sets *)

Lemma Rabs_bounds (x a : R) : (Rabs x <= a)%R -> (- a <= x <= a)%R.
Proof. unfold Rabs. destruct (Rcase_abs x); lra. Qed.

(** ** The Lorentz factor below the speed of light *)

Lemma gamma_Fin (v c : R) :
  c <> 0%R -> (Rabs (v / c) < 1)%R ->
  RelativityFormulas.gamma (Fin v) (Some (Fin c))
  = Return (Fin (1 / sqrt (1 - v / c * (v / c)))).
Proof.
  intros Hc Hb. unfold RelativityFormulas.gamma.
  rewrite div_Fin by exact Hc. rewrite lorentz_Fin.
  rewrite Rltb_false by lra. rewrite Reqb_false by lra. reflexivity.
Qed.

Lemma square_below_one (b : R) :
  (Rabs b < 1)%R -> (0 <= b * b < 1)%R /\ (b * b = Rabs b * Rabs b)%R.
Proof.
  intros Hb. pose proof (Rabs_pos b) as Hpos.
  assert (Hsq : (b * b = Rabs b * Rabs b)%R).
  { unfold Rabs. destruct (Rcase_abs b); ring. }
  split; [| exact Hsq]. rewrite Hsq. split; nra.
Qed.

Lemma gamma_positive (v c : R) :
  c <> 0%R -> (Rabs (v / c) < 1)%R ->
  (1 <= 1 / sqrt (1 - v / c * (v / c)))%R
  /\ (sqrt (1 - v / c * (v / c)) * sqrt (1 - v / c * (v / c))
      = 1 - v / c * (v / c))%R
  /\ (0 < sqrt (1 - v / c * (v / c)))%R.
Proof.
  intros Hc Hb. destruct (square_below_one _ Hb) as ((H0 & H1) & _).
  assert (Hs : (0 < sqrt (1 - v / c * (v / c)))%R) by (apply sqrt_lt_R0; lra).
  assert (Hle : (sqrt (1 - v / c * (v / c)) <= 1)%R).
  { rewrite <- sqrt_1 at 2. apply sqrt_le_1_alt. lra. }
  split; [apply Rle_div_intro; lra |].
  split; [apply sqrt_sqrt; lra | exact Hs].
Qed.

(** X3.  Below the speed of light the energy and the momentum that the
    module computes satisfy [E^2 = (p c)^2 + (m c^2)^2]. *)
Theorem energy_momentum_relation (m v c : R) :
  c <> 0%R -> (Rabs (v / c) < 1)%R ->
  exists E p : R,
    RelativityFormulas.relativisticEnergy (Fin m) (Fin v) (Some (Fin c))
    = Return (Fin E)
    /\ RelativityFormulas.relativisticMomentum (Fin m) (Fin v) (Some (Fin c))
       = Return (Fin p)
    /\ (E * E = p * c * (p * c) + m * c * c * (m * c * c))%R.
Proof.
  intros Hc Hb. destruct (gamma_positive v c Hc Hb) as (_ & Hsq & Hs).
  unfold RelativityFormulas.relativisticEnergy,
    RelativityFormulas.relativisticMomentum.
  rewrite gamma_Fin by assumption.
  set (s := sqrt (1 - v / c * (v / c))) in *.
  cbn [RelativityFormulas.andThen Js.mul].
  do 2 eexists. split; [reflexivity |]. split; [reflexivity |].
  apply Rminus_diag_uniq.
  replace (1 / s * m * c * c * (1 / s * m * c * c)
           - (1 / s * m * v * c * (1 / s * m * v * c)
              + m * c * c * (m * c * c)))%R
    with (m * m * c * c * c * c * ((1 - v / c * (v / c)) - s * s) / (s * s))%R
    by (field; split; lra).
  rewrite <- Hsq. field. lra.
Qed.

Lemma energy_momentum_relation_witness :
  exists E p : R,
    RelativityFormulas.relativisticEnergy (Fin 1) (Fin 1.5e8) (Some (Fin 3e8))
    = Return (Fin E)
    /\ RelativityFormulas.relativisticMomentum (Fin 1) (Fin 1.5e8) (Some (Fin 3e8))
       = Return (Fin p)
    /\ (E * E = p * 3e8 * (p * 3e8) + 1 * 3e8 * 3e8 * (1 * 3e8 * 3e8))%R.
Proof.
  apply energy_momentum_relation; [lra |].
  replace (1.5e8 / 3e8)%R with 0.5%R by lra.
  rewrite Rabs_pos_eq by lra. lra.
Defined.

(** ** Projectiles, energy and momentum *)

Lemma projectile_values (v a g : R) :
  g <> 0%R ->
  let rad := (a * PI / 180)%R in
  ClassicalFormulas.projectileRange (Fin v) (Fin a) (Some (Fin g))
  = Fin (v * v * sin (2 * rad) / g)
  /\ ClassicalFormulas.projectileTimeOfFlight (Fin v) (Fin a) (Some (Fin g))
     = Fin (2 * v * sin rad / g)
  /\ ClassicalFormulas.projectileMaxHeight (Fin v) (Fin a) (Some (Fin g))
     = Fin (v * v * sin rad * sin rad / (2 * g)).
Proof.
  intros Hg rad.
  unfold ClassicalFormulas.projectileRange,
    ClassicalFormulas.projectileTimeOfFlight,
    ClassicalFormulas.projectileMaxHeight, Math.PI.
  cbn [Js.mul]. rewrite !div_Fin by lra.
  cbn [Js.mul Math.sin]. rewrite !div_Fin by lra.
  repeat split.
Qed.

(** X5.  For a finite launch and a gravity that is not zero, the range is
    the horizontal speed times the time of flight, and the maximal height
    is [g T^2 / 8] for the time of flight [T]. *)
Theorem projectile_range_is_speed_times_flight (v a g : R) :
  g <> 0%R ->
  exists range T height : R,
    ClassicalFormulas.projectileRange (Fin v) (Fin a) (Some (Fin g))
    = Fin range
    /\ ClassicalFormulas.projectileTimeOfFlight (Fin v) (Fin a) (Some (Fin g))
       = Fin T
    /\ ClassicalFormulas.projectileMaxHeight (Fin v) (Fin a) (Some (Fin g))
       = Fin height
    /\ range = (v * cos (a * PI / 180) * T)%R
    /\ height = (g * T * T / 8)%R.
Proof.
  intros Hg. destruct (projectile_values v a g Hg) as (HR & HT & HH).
  do 3 eexists. split; [exact HR |]. split; [exact HT |]. split; [exact HH |].
  split.
  - rewrite sin_2a. field. exact Hg.
  - field. exact Hg.
Qed.

Lemma projectile_range_is_speed_times_flight_witness :
  exists range T height : R,
    ClassicalFormulas.projectileRange (Fin 20) (Fin 35) (Some (Fin 9.8))
    = Fin range
    /\ ClassicalFormulas.projectileTimeOfFlight (Fin 20) (Fin 35) (Some (Fin 9.8))
       = Fin T
    /\ ClassicalFormulas.projectileMaxHeight (Fin 20) (Fin 35) (Some (Fin 9.8))
       = Fin height
    /\ range = (20 * cos (35 * PI / 180) * T)%R
    /\ height = (9.8 * T * T / 8)%R.
Proof.
  apply projectile_range_is_speed_times_flight. lra.
Defined.

Lemma ovec_speed_squared (vx vy vz : R) :
  (0 <= vx * vx + vy * vy + vz * vz)%R.
Proof. repeat apply Rplus_le_le_0_compat; apply Rle_0_sqr. Qed.

(** X7.  For a velocity object with finite components (a missing one
    counting as 0) the kinetic energy is [m |v|^2 / 2], the same as for the
    speed [|v|] given as a number, and for [m <> 0] it is [|p|^2 / (2 m)]
    for the momentum [p] that [momentum] returns. *)
Theorem kinetic_energy_of_momentum (m vx vy vz : R) (velocity : OVec.t) :
  finite_ovec velocity vx vy vz ->
  exists K px py pz : R,
    ClassicalFormulas.kineticEnergy (Fin m) (inr velocity) = Fin K
    /\ ClassicalFormulas.kineticEnergy (Fin m)
         (inl (Fin (sqrt (vx * vx + vy * vy + vz * vz)))) = Fin K
    /\ ClassicalFormulas.momentum (Fin m) velocity
       = XYZ.mk (Fin px) (Fin py) (Fin pz)
    /\ K = (m * (vx * vx + vy * vy + vz * vz) / 2)%R
    /\ (m <> 0%R -> K = ((px * px + py * py + pz * pz) / (2 * m))%R).
Proof.
  intros (Hx & Hy & Hz).
  pose proof (ovec_speed_squared vx vy vz) as Hnn.
  pose proof (sqrt_sqrt _ Hnn) as Hsq.
  unfold ClassicalFormulas.kineticEnergy, ClassicalFormulas.momentum,
    ClassicalFormulas.square.
  rewrite Hx, Hy, Hz. cbn [Js.mul Js.add].
  rewrite sqrt_Fin by exact Hnn. cbn [Js.mul].
  set (s := sqrt (vx * vx + vy * vy + vz * vz)) in *.
  exists (0.5 * m * s * s)%R, (m * vx)%R, (m * vy)%R, (m * vz)%R.
  repeat split.
  - rewrite <- Hsq. lra.
  - intros Hm.
    replace (0.5 * m * s * s)%R with (m * (s * s) / 2)%R by lra.
    rewrite Hsq. field. exact Hm.
Qed.

Lemma kinetic_energy_of_momentum_witness :
  exists K px py pz : R,
    ClassicalFormulas.kineticEnergy (Fin 2)
      (inr (OVec.mk (Some (Fin 3)) (Some (Fin 4)) None)) = Fin K
    /\ ClassicalFormulas.kineticEnergy (Fin 2)
         (inl (Fin (sqrt (3 * 3 + 4 * 4 + 0 * 0)))) = Fin K
    /\ ClassicalFormulas.momentum (Fin 2)
         (OVec.mk (Some (Fin 3)) (Some (Fin 4)) None)
       = XYZ.mk (Fin px) (Fin py) (Fin pz)
    /\ K = (2 * (3 * 3 + 4 * 4 + 0 * 0) / 2)%R
    /\ (2 <> 0%R -> K = ((px * px + py * py + pz * pz) / (2 * 2))%R).
Proof.
  apply kinetic_energy_of_momentum.
  repeat split; cbn [OVec.x OVec.y OVec.z]; try apply or_num_Fin.
Defined.

(** ** Fields and forces *)

(** X8.  For finite data the force that [lorentzForce] returns delivers
    the power [q (E . v)]: its magnetic part is perpendicular to the
    velocity.  With the velocity missing the force is [q E], whatever the
    magnetic field. *)
Theorem lorentzForce_power (q vx vy vz ex ey ez bx by' bz : R)
    (electricField : OVec.t) (magneticField : option XYZ.t) :
  finite_ovec electricField ex ey ez ->
  (exists fx fy fz : R,
      ElectromagnetismFormulas.lorentzForce (Fin q)
        (Some (XYZ.mk (Fin vx) (Fin vy) (Fin vz))) electricField
        (Some (XYZ.mk (Fin bx) (Fin by') (Fin bz)))
      = XYZ.mk (Fin fx) (Fin fy) (Fin fz)
      /\ (fx * vx + fy * vy + fz * vz = q * (ex * vx + ey * vy + ez * vz))%R)
  /\ (magneticField = None
      \/ (exists cx cy cz : R,
             magneticField = Some (XYZ.mk (Fin cx) (Fin cy) (Fin cz))) ->
      exists fx fy fz : R,
        ElectromagnetismFormulas.lorentzForce (Fin q) None electricField
          magneticField
        = XYZ.mk (Fin fx) (Fin fy) (Fin fz)
        /\ fx = (q * ex)%R /\ fy = (q * ey)%R /\ fz = (q * ez)%R).
Proof.
  intros (Hx & Hy & Hz). split.
  - unfold ElectromagnetismFormulas.lorentzForce.
    rewrite Hx, Hy, Hz.
    cbn [Js.or_obj XYZ.x XYZ.y XYZ.z Js.mul Js.sub Js.neg Js.add].
    do 3 eexists. split; [reflexivity | ring].
  - intros HB. unfold ElectromagnetismFormulas.lorentzForce.
    rewrite Hx, Hy, Hz.
    destruct HB as [-> | (cx & cy & cz & ->)];
      cbn [Js.or_obj XYZ.x XYZ.y XYZ.z Js.mul Js.sub Js.neg Js.add];
      do 3 eexists; (split; [reflexivity |]); repeat split; ring.
Qed.

Lemma lorentzForce_power_witness :
  exists fx fy fz : R,
    ElectromagnetismFormulas.lorentzForce (Fin 1)
      (Some (XYZ.mk (Fin 1) (Fin 0) (Fin 0)))
      (OVec.mk None (Some (Fin 2)) None)
      (Some (XYZ.mk (Fin 0) (Fin 0) (Fin 3)))
    = XYZ.mk (Fin fx) (Fin fy) (Fin fz)
    /\ (fx * 1 + fy * 0 + fz * 0 = 1 * (0 * 1 + 2 * 0 + 0 * 0))%R.
Proof.
  apply (proj1 (lorentzForce_power 1 1 0 0 0 2 0 0 0 3
                  (OVec.mk None (Some (Fin 2)) None) None
                  ltac:(repeat split; cbn [OVec.x OVec.y OVec.z];
                        try apply or_num_Fin))).
Defined.

(** ** Waves and optics *)



(** * Further properties of collision detection *)

(** ** Circles *)

(** The collision record of two circles at finite positions with finite
    radii, in real numbers. *)
Lemma checkCircleCollision_Fin (obj1 obj2 : Body.t)
    (x1 y1 z1 x2 y2 z2 r1 r2 : R) :
  finite_vec obj1.(Body.position) x1 y1 z1 ->
  finite_vec obj2.(Body.position) x2 y2 z2 ->
  (obj1.(Body.radius) ||| Fin 0.5) = Fin r1 ->
  (obj2.(Body.radius) ||| Fin 0.5) = Fin r2 ->
  let d := dist x1 y1 z1 x2 y2 z2 in
  checkCircleCollision obj1 obj2
  = Collision.mk
      (Rltb d (r1 + r2))
      (Fin d)
      (Some (Fin (r1 + r2)))
      (if Rltb 0 d
       then Vector3.mk (Fin ((x2 - x1) / d)) (Fin ((y2 - y1) / d))
                       (Fin ((z2 - z1) / d))
       else Vector3.mk (Fin 1) (Fin 0) (Fin 0))
      (if Rltb 0 (r1 + r2 - d) then Fin (r1 + r2 - d) else Fin 0).
Proof.
  intros (Hx1 & Hy1 & Hz1) (Hx2 & Hy2 & Hz2) Hr1 Hr2 d.
  unfold checkCircleCollision.
  rewrite Hx1, Hy1, Hz1, Hx2, Hy2, Hz2, Hr1, Hr2.
  cbn [Js.sub Js.neg Js.add Js.mul].
  rewrite sqrt_Fin by apply (dist2_nonneg x1 y1 z1 x2 y2 z2).
  change (sqrt _) with d.
  cbn [Js.ltb Js.gtb Js.sub Js.neg Js.add Math.max].
  destruct (Rltb 0 d) eqn:Hd.
  - apply Rltb_elim in Hd. rewrite !div_Fin by lra. reflexivity.
  - reflexivity.
Qed.

(** X13.  For two circles at finite positions with finite radii the
    collision record is finite: the distance is not negative, the normal is
    a unit vector, the overlap is not negative, it is positive exactly when
    the circles collide, and then it is [minDistance - distance]. *)
Theorem checkCircleCollision_record (obj1 obj2 : Body.t)
    (x1 y1 z1 x2 y2 z2 r1 r2 : R) :
  finite_vec obj1.(Body.position) x1 y1 z1 ->
  finite_vec obj2.(Body.position) x2 y2 z2 ->
  (obj1.(Body.radius) ||| Fin 0.5) = Fin r1 ->
  (obj2.(Body.radius) ||| Fin 0.5) = Fin r2 ->
  let collision := checkCircleCollision obj1 obj2 in
  exists d nx ny nz overlap : R,
    collision.(Collision.distance) = Fin d /\ (0 <= d)%R
    /\ collision.(Collision.normal) = Vector3.mk (Fin nx) (Fin ny) (Fin nz)
    /\ (nx * nx + ny * ny + nz * nz = 1)%R
    /\ collision.(Collision.overlap) = Fin overlap /\ (0 <= overlap)%R
    /\ (collision.(Collision.isColliding) = true <-> (0 < overlap)%R)
    /\ (collision.(Collision.isColliding) = true ->
        overlap = (r1 + r2 - d)%R).
Proof.
  intros Hp1 Hp2 Hr1 Hr2 collision. subst collision.
  rewrite (checkCircleCollision_Fin obj1 obj2 x1 y1 z1 x2 y2 z2 r1 r2)
    by assumption.
  cbv zeta. set (d := dist x1 y1 z1 x2 y2 z2).
  cbn [Collision.distance Collision.normal Collision.overlap
       Collision.isColliding].
  assert (Hd0 : (0 <= d)%R) by apply sqrt_pos.
  assert (Hsq : (d * d = dist2 x1 y1 z1 x2 y2 z2)%R)
    by (apply sqrt_sqrt, dist2_nonneg).
  assert (Hnormal : exists nx ny nz : R,
             (if Rltb 0 d
              then Vector3.mk (Fin ((x2 - x1) / d)) (Fin ((y2 - y1) / d))
                              (Fin ((z2 - z1) / d))
              else Vector3.mk (Fin 1) (Fin 0) (Fin 0))
             = Vector3.mk (Fin nx) (Fin ny) (Fin nz)
             /\ (nx * nx + ny * ny + nz * nz = 1)%R).
  { destruct (Rltb 0 d) eqn:Hpos.
    - apply Rltb_elim in Hpos. do 3 eexists. split; [reflexivity |].
      replace ((x2 - x1) / d * ((x2 - x1) / d) + (y2 - y1) / d * ((y2 - y1) / d)
               + (z2 - z1) / d * ((z2 - z1) / d))%R
        with (dist2 x1 y1 z1 x2 y2 z2 / (d * d))%R
        by (unfold dist2; field; lra).
      rewrite <- Hsq. field. lra.
    - exists 1%R, 0%R, 0%R. split; [reflexivity | ring]. }
  destruct Hnormal as (nx & ny & nz & Hn & Hunit).
  exists d, nx, ny, nz.
  destruct (Rlt_dec d (r1 + r2)) as [Hlt | Hge].
  - exists (r1 + r2 - d)%R.
    rewrite (Rltb_true d) by exact Hlt.
    rewrite (Rltb_true 0 (r1 + r2 - d)) by lra.
    repeat split; try assumption; try lra.
  - exists 0%R.
    rewrite (Rltb_false d) by lra. rewrite (Rltb_false 0 (r1 + r2 - d)) by lra.
    repeat split; try assumption; try lra; try discriminate.
Qed.

Lemma checkCircleCollision_record_witness :
  exists d nx ny nz overlap : R,
    (checkCircleCollision ball_left ball_right).(Collision.distance) = Fin d
    /\ (0 <= d)%R
    /\ (checkCircleCollision ball_left ball_right).(Collision.normal)
       = Vector3.mk (Fin nx) (Fin ny) (Fin nz)
    /\ (nx * nx + ny * ny + nz * nz = 1)%R
    /\ (checkCircleCollision ball_left ball_right).(Collision.overlap)
       = Fin overlap
    /\ (0 <= overlap)%R
    /\ ((checkCircleCollision ball_left ball_right).(Collision.isColliding)
        = true <-> (0 < overlap)%R)
    /\ ((checkCircleCollision ball_left ball_right).(Collision.isColliding)
        = true -> overlap = (0.5 + 0.5 - d)%R).
Proof.
  apply (checkCircleCollision_record ball_left ball_right 0 0 0 0.8 0 0 0.5 0.5);
    repeat split.
Defined.

(** X14.  Exchanging two circles at finite positions leaves [isColliding],
    [distance], [minDistance] and [overlap] unchanged and reverses the
    normal; when the centres coincide the normal is [(1, 0, 0)] in both
    orders. *)
Theorem checkCircleCollision_exchange (obj1 obj2 : Body.t)
    (x1 y1 z1 x2 y2 z2 r1 r2 : R) :
  finite_vec obj1.(Body.position) x1 y1 z1 ->
  finite_vec obj2.(Body.position) x2 y2 z2 ->
  (obj1.(Body.radius) ||| Fin 0.5) = Fin r1 ->
  (obj2.(Body.radius) ||| Fin 0.5) = Fin r2 ->
  let forth := checkCircleCollision obj1 obj2 in
  let back := checkCircleCollision obj2 obj1 in
  back.(Collision.isColliding) = forth.(Collision.isColliding)
  /\ back.(Collision.distance) = forth.(Collision.distance)
  /\ back.(Collision.minDistance) = forth.(Collision.minDistance)
  /\ back.(Collision.overlap) = forth.(Collision.overlap)
  /\ ((forth.(Collision.distance) >? Fin 0) = true ->
      back.(Collision.normal)
      = Vector3.mk (- forth.(Collision.normal).(Vector3.x))
                   (- forth.(Collision.normal).(Vector3.y))
                   (- forth.(Collision.normal).(Vector3.z)))
  /\ ((forth.(Collision.distance) >? Fin 0) = false ->
      back.(Collision.normal) = Vector3.mk (Fin 1) (Fin 0) (Fin 0)
      /\ forth.(Collision.normal) = Vector3.mk (Fin 1) (Fin 0) (Fin 0)).
Proof.
  intros Hp1 Hp2 Hr1 Hr2 forth back. subst forth back.
  rewrite (checkCircleCollision_Fin obj1 obj2 x1 y1 z1 x2 y2 z2 r1 r2)
    by assumption.
  rewrite (checkCircleCollision_Fin obj2 obj1 x2 y2 z2 x1 y1 z1 r2 r1)
    by assumption.
  cbv zeta.
  assert (Hsym : dist x2 y2 z2 x1 y1 z1 = dist x1 y1 z1 x2 y2 z2).
  { unfold dist, dist2. f_equal. ring. }
  rewrite Hsym. set (d := dist x1 y1 z1 x2 y2 z2).
  replace (r2 + r1)%R with (r1 + r2)%R by ring.
  cbn [Collision.distance Collision.normal Collision.overlap
       Collision.isColliding Collision.minDistance Js.gtb Js.ltb].
  repeat split.
  - intros Hpos. rewrite Hpos.
    cbn [Vector3.x Vector3.y Vector3.z Js.neg].
    f_equal; f_equal; unfold Rdiv; ring.
  - rewrite H. reflexivity.
  - rewrite H. reflexivity.
Qed.

Lemma checkCircleCollision_exchange_witness :
  (checkCircleCollision ball_right ball_left).(Collision.isColliding)
  = (checkCircleCollision ball_left ball_right).(Collision.isColliding)
  /\ (checkCircleCollision ball_right ball_left).(Collision.distance)
     = (checkCircleCollision ball_left ball_right).(Collision.distance).
Proof.
  pose proof (checkCircleCollision_exchange ball_left ball_right
                0 0 0 0.8 0 0 0.5 0.5
                ltac:(repeat split) ltac:(repeat split)
                eq_refl eq_refl) as (H1 & H2 & _).
  split; [exact H1 | exact H2].
Defined.

(** ** Boxes *)

(** X15.  [checkBoxCollision] does not depend on the order of its two
    arguments, whatever the positions and sizes are. *)
Theorem checkBoxCollision_symmetric (obj1 obj2 : Body.t) :
  checkBoxCollision obj2 obj1 = checkBoxCollision obj1 obj2.
Proof.
  unfold checkBoxCollision, Js.gtb.
  repeat match goal with
  | |- context [Js.ltb ?a ?b] =>
      let c := fresh "c" in
      generalize (Js.ltb a b); intros c
  end.
  repeat match goal with c : bool |- _ => destruct c end; reflexivity.
Qed.

(** The tests of [checkBoxCollision] on finite data: [w], [h] and [d] are
    the width, the height and the depth read with [|| 1]. *)
Lemma checkBoxCollision_Fin (obj1 obj2 : Body.t)
    (x1 y1 z1 w1 h1 d1 x2 y2 z2 w2 h2 d2 : R) :
  let size1 := Js.or_obj obj1.(Body.size) (Size.mk (Fin 1) (Fin 1) (Some (Fin 1))) in
  let size2 := Js.or_obj obj2.(Body.size) (Size.mk (Fin 1) (Fin 1) (Some (Fin 1))) in
  finite_vec obj1.(Body.position) x1 y1 z1 ->
  finite_vec obj2.(Body.position) x2 y2 z2 ->
  size1.(Size.width) = Fin w1 -> size1.(Size.height) = Fin h1 ->
  (size1.(Size.depth) ||| Fin 1) = Fin d1 ->
  size2.(Size.width) = Fin w2 -> size2.(Size.height) = Fin h2 ->
  (size2.(Size.depth) ||| Fin 1) = Fin d2 ->
  checkBoxCollision obj1 obj2
  = (Rltb x1 (x2 + w2) && Rltb x2 (x1 + w1)
     && Rltb y1 (y2 + h2) && Rltb y2 (y1 + h1)
     && Rltb z1 (z2 + d2) && Rltb z2 (z1 + d1)).
Proof.
  intros size1 size2 (Hx1 & Hy1 & Hz1) (Hx2 & Hy2 & Hz2) Hw1 Hh1 Hd1 Hw2 Hh2 Hd2.
  unfold checkBoxCollision. fold size1 size2.
  rewrite Hx1, Hy1, Hz1, Hx2, Hy2, Hz2, Hw1, Hh1, Hd1, Hw2, Hh2, Hd2.
  reflexivity.
Qed.

(** X16.  A box at a finite position whose width, height and depth (read
    with [|| 1]) are positive collides with itself, and it does not collide
    with a box that starts exactly where it ends along x: touching faces
    are not a collision. *)
Theorem checkBoxCollision_self_and_touching (obj1 obj2 : Body.t)
    (x1 y1 z1 w1 h1 d1 x2 y2 z2 w2 h2 d2 : R) :
  let size1 := Js.or_obj obj1.(Body.size) (Size.mk (Fin 1) (Fin 1) (Some (Fin 1))) in
  let size2 := Js.or_obj obj2.(Body.size) (Size.mk (Fin 1) (Fin 1) (Some (Fin 1))) in
  finite_vec obj1.(Body.position) x1 y1 z1 ->
  finite_vec obj2.(Body.position) x2 y2 z2 ->
  size1.(Size.width) = Fin w1 -> size1.(Size.height) = Fin h1 ->
  (size1.(Size.depth) ||| Fin 1) = Fin d1 ->
  size2.(Size.width) = Fin w2 -> size2.(Size.height) = Fin h2 ->
  (size2.(Size.depth) ||| Fin 1) = Fin d2 ->
  (0 < w1)%R -> (0 < h1)%R -> (0 < d1)%R ->
  checkBoxCollision obj1 obj1 = true
  /\ (x2 = (x1 + w1)%R -> checkBoxCollision obj1 obj2 = false).
Proof.
  intros size1 size2 Hp1 Hp2 Hw1 Hh1 Hd1 Hw2 Hh2 Hd2 Hw Hh Hd.
  split.
  - rewrite (checkBoxCollision_Fin obj1 obj1 x1 y1 z1 w1 h1 d1 x1 y1 z1 w1 h1 d1)
      by assumption.
    now rewrite !Rltb_true by lra.
  - intros ->.
    rewrite (checkBoxCollision_Fin obj1 obj2 x1 y1 z1 w1 h1 d1
               (x1 + w1) y2 z2 w2 h2 d2) by assumption.
    rewrite (Rltb_false (x1 + w1) (x1 + w1)) by lra.
    now rewrite andb_false_r.
Qed.

Lemma checkBoxCollision_self_and_touching_witness :
  let box1 :=
    Body.mk (Vec.mk (Fin 0) (Fin 0) None) None None None None
            (Some "box"%string) None in
  let box2 :=
    Body.mk (Vec.mk (Fin 1) (Fin 0) None) None None None None
            (Some "box"%string) None in
  checkBoxCollision box1 box1 = true
  /\ (1 = (0 + 1)%R -> checkBoxCollision box1 box2 = false).
Proof.
  intros box1 box2.
  apply (checkBoxCollision_self_and_touching box1 box2
           0 0 0 1 1 1 1 0 0 1 1 1);
    try (repeat split; cbn [Body.size Js.or_obj Size.depth]; apply or_num_Fin);
    try reflexivity; try lra.
  - unfold box1. cbn [Body.size Js.or_obj Size.depth Js.or_num Js.truthy].
    now rewrite Reqb_false by lra.
  - unfold box2. cbn [Body.size Js.or_obj Size.depth Js.or_num Js.truthy].
    now rewrite Reqb_false by lra.
Defined.

(** ** A circle against a box *)

Lemma circle_is_not_box : String.eqb "circle" "box" = false.
Proof. reflexivity. Qed.

(** X17.  For a circle and a box [checkCollision] returns the same record
    in both argument orders: the normal always points from the box towards
    the circle, also when the box is the first argument. *)
Theorem checkCollision_circle_box_order (circle box : Body.t) :
  or_shape circle.(Body.shape) = "circle"%string ->
  or_shape box.(Body.shape) = "box"%string ->
  checkCollision box circle = checkCollision circle box.
Proof.
  intros Hc Hb. unfold checkCollision. rewrite Hc, Hb.
  rewrite !String.eqb_refl, box_is_not_circle, circle_is_not_box.
  cbn [andb]. reflexivity.
Qed.

Lemma checkCollision_circle_box_order_witness :
  let circle :=
    Body.mk (Vec.mk (Fin 2) (Fin 0.5) None) None None None None None None in
  let box :=
    Body.mk (Vec.mk (Fin 0) (Fin 0) None) None None None None
            (Some "box"%string) None in
  checkCollision box circle = checkCollision circle box.
Proof.
  intros circle box.
  apply checkCollision_circle_box_order; reflexivity.
Defined.

(** ** Collision response for any masses and restitution *)

Lemma finite_mass_inverse (mass : option num) (m : R) :
  mass ||| Fin 1 = Fin m ->
  m <> 0%R /\ (forall a : R, Fin a / (mass ||| Fin 1) = Fin (a * / m)).
Proof.
  intros Hm. pose proof (or_num_one_nonzero mass m Hm) as Hm0.
  split; [exact Hm0 |]. intros a. rewrite Hm. now rewrite div_Fin.
Qed.

(** X18.  [resolveCollision] conserves the total momentum: for a colliding
    record with a finite normal (unit or not), finite velocities, a finite
    restitution and finite masses whose inverses do not cancel, the
    returned velocities satisfy [m1 v1' + m2 v2' = m1 v1 + m2 v2], whether
    the bodies approach or separate. *)
Theorem resolveCollision_conserves_momentum
    (obj1 obj2 : Body.t) (collision : Collision.t)
    (m1 m2 e x1 y1 z1 x2 y2 z2 nx ny nz : R) :
  collision.(Collision.isColliding) = true ->
  obj1.(Body.mass) ||| Fin 1 = Fin m1 ->
  obj2.(Body.mass) ||| Fin 1 = Fin m2 ->
  (/ m1 + / m2 <> 0)%R ->
  restitutionOf obj1 obj2 = Fin e ->
  finite_vec (velocityOf obj1) x1 y1 z1 ->
  finite_vec (velocityOf obj2) x2 y2 z2 ->
  collision.(Collision.normal) = Vector3.mk (Fin nx) (Fin ny) (Fin nz) ->
  exists a1 b1 c1 a2 b2 c2 : R,
    finite_vec (resolveCollision obj1 obj2 collision).(Velocities.velocity1)
               a1 b1 c1
    /\ finite_vec (resolveCollision obj1 obj2 collision).(Velocities.velocity2)
                  a2 b2 c2
    /\ (m1 * a1 + m2 * a2 = m1 * x1 + m2 * x2)%R
    /\ (m1 * b1 + m2 * b2 = m1 * y1 + m2 * y2)%R
    /\ (m1 * c1 + m2 * c2 = m1 * z1 + m2 * z2)%R.
Proof.
  intros Hcol Hm1 Hm2 Hw He Hv1 Hv2 Hn.
  destruct (finite_mass_inverse _ _ Hm1) as (Hm10 & Hw1).
  destruct (finite_mass_inverse _ _ Hm2) as (Hm20 & Hw2).
  assert (Hsum : (m2 + m1 <> 0)%R).
  { intros Hzero. apply Hw.
    replace (/ m1 + / m2)%R with ((m2 + m1) / (m1 * m2))%R
      by (field; split; assumption).
    rewrite Hzero. field. split; assumption. }
  set (V := ((x2 - x1) * nx + (y2 - y1) * ny + (z2 - z1) * nz)%R).
  destruct (Rle_dec V 0) as [HV | HV].
  - rewrite (resolveCollision_impulse obj1 obj2 collision
               x1 y1 z1 x2 y2 z2 nx ny nz e (/ m1) (/ m2)
               Hcol Hv1 Hv2 Hn He Hw1 Hw2 Hw HV).
    cbn [Velocities.velocity1 Velocities.velocity2].
    do 6 eexists.
    split; [repeat split; cbn [Vec.x Vec.y Vec.z]; try apply or_num_Fin |].
    split; [repeat split; cbn [Vec.x Vec.y Vec.z]; try apply or_num_Fin |].
    fold V. repeat split; field; auto.
  - assert (Hsep : resolveCollision obj1 obj2 collision
                   = Velocities.mk (velocityOf obj1) (velocityOf obj2)).
    { unfold resolveCollision. rewrite Hcol. cbn [negb].
      destruct Hv1 as (Hx1 & Hy1 & Hz1), Hv2 as (Hx2 & Hy2 & Hz2).
      unfold velocityOf in *.
      rewrite Hn, Hx1, Hy1, Hz1, Hx2, Hy2, Hz2.
      cbn [Vector3.x Vector3.y Vector3.z Js.sub Js.neg Js.add Js.mul
           Js.gtb Js.ltb].
      rewrite Rltb_true by (subst V; lra). reflexivity. }
    rewrite Hsep. cbn [Velocities.velocity1 Velocities.velocity2].
    exists x1, y1, z1, x2, y2, z2. repeat split; try apply Hv1; apply Hv2.
Qed.

Lemma heavy_light_data :
  heavy_ball.(Body.mass) ||| Fin 1 = Fin 2
  /\ light_ball.(Body.mass) ||| Fin 1 = Fin 1
  /\ restitutionOf heavy_ball light_ball = Fin 0.5
  /\ finite_vec (velocityOf heavy_ball) 1 0 0
  /\ finite_vec (velocityOf light_ball) 0 0 0.
Proof.
  unfold restitutionOf, velocityOf, finite_vec, heavy_ball, light_ball,
    zero_velocity.
  cbn [Body.mass Body.restitution Body.velocity Js.or_obj Js.or_num Js.truthy
       Vec.x Vec.y Vec.z].
  rewrite (Reqb_false 2 0), (Reqb_false 1 0), (Reqb_false 0.5 0) by lra.
  rewrite (Reqb_true 0 0) by reflexivity.
  cbn [negb Math.min Js.ltb]. rewrite (Rltb_false 0.5 0.5) by lra.
  repeat split.
Qed.

Lemma resolveCollision_conserves_momentum_witness :
  exists a1 b1 c1 a2 b2 c2 : R,
    finite_vec
      (resolveCollision heavy_ball light_ball contact_along_x)
        .(Velocities.velocity1) a1 b1 c1
    /\ finite_vec
         (resolveCollision heavy_ball light_ball contact_along_x)
           .(Velocities.velocity2) a2 b2 c2
    /\ (2 * a1 + 1 * a2 = 2 * 1 + 1 * 0)%R
    /\ (2 * b1 + 1 * b2 = 2 * 0 + 1 * 0)%R
    /\ (2 * c1 + 1 * c2 = 2 * 0 + 1 * 0)%R.
Proof.
  destruct heavy_light_data as (Hm1 & Hm2 & He & Hv1 & Hv2).
  apply (resolveCollision_conserves_momentum heavy_ball light_ball
           contact_along_x 2 1 0.5 1 0 0 0 0 0 1 0 0);
    try assumption; try reflexivity.
  lra.
Defined.

(** X19.  When the bodies approach along a unit normal, the relative
    velocity along the normal after the collision is [-e] times the one
    before, and for positive masses the kinetic energy drops by
    [(1 - e^2) V^2 / (2 (1/m1 + 1/m2))]: with [0 <= e <= 1] the collision
    never adds energy. *)
Theorem resolveCollision_restitution_and_energy
    (obj1 obj2 : Body.t) (collision : Collision.t)
    (m1 m2 e x1 y1 z1 x2 y2 z2 nx ny nz : R) :
  collision.(Collision.isColliding) = true ->
  obj1.(Body.mass) ||| Fin 1 = Fin m1 -> (0 < m1)%R ->
  obj2.(Body.mass) ||| Fin 1 = Fin m2 -> (0 < m2)%R ->
  restitutionOf obj1 obj2 = Fin e -> (0 <= e <= 1)%R ->
  finite_vec (velocityOf obj1) x1 y1 z1 ->
  finite_vec (velocityOf obj2) x2 y2 z2 ->
  collision.(Collision.normal) = Vector3.mk (Fin nx) (Fin ny) (Fin nz) ->
  (nx * nx + ny * ny + nz * nz = 1)%R ->
  let V := ((x2 - x1) * nx + (y2 - y1) * ny + (z2 - z1) * nz)%R in
  (V <= 0)%R ->
  exists a1 b1 c1 a2 b2 c2 : R,
    resolveCollision obj1 obj2 collision
    = Velocities.mk (Vec.mk (Fin a1) (Fin b1) (Some (Fin c1)))
                    (Vec.mk (Fin a2) (Fin b2) (Some (Fin c2)))
    /\ ((a2 - a1) * nx + (b2 - b1) * ny + (c2 - c1) * nz = - e * V)%R
    /\ (1 / 2 * m1 * (x1 * x1 + y1 * y1 + z1 * z1)
        + 1 / 2 * m2 * (x2 * x2 + y2 * y2 + z2 * z2)
        - (1 / 2 * m1 * (a1 * a1 + b1 * b1 + c1 * c1)
           + 1 / 2 * m2 * (a2 * a2 + b2 * b2 + c2 * c2))
        = (1 - e * e) * (V * V) / (2 * (/ m1 + / m2)))%R
    /\ (1 / 2 * m1 * (a1 * a1 + b1 * b1 + c1 * c1)
        + 1 / 2 * m2 * (a2 * a2 + b2 * b2 + c2 * c2)
        <= 1 / 2 * m1 * (x1 * x1 + y1 * y1 + z1 * z1)
           + 1 / 2 * m2 * (x2 * x2 + y2 * y2 + z2 * z2))%R.
Proof.
  intros Hcol Hm1 Hm1pos Hm2 Hm2pos He Hebound Hv1 Hv2 Hn Hunit V HV.
  destruct (finite_mass_inverse _ _ Hm1) as (Hm10 & Hw1).
  destruct (finite_mass_inverse _ _ Hm2) as (Hm20 & Hw2).
  assert (Hi1 : (0 < / m1)%R) by now apply Rinv_0_lt_compat.
  assert (Hi2 : (0 < / m2)%R) by now apply Rinv_0_lt_compat.
  assert (Hw : (/ m1 + / m2 <> 0)%R) by lra.
  pose proof (resolveCollision_impulse obj1 obj2 collision
                x1 y1 z1 x2 y2 z2 nx ny nz e (/ m1) (/ m2)
                Hcol Hv1 Hv2 Hn He Hw1 Hw2 Hw HV) as Hres.
  cbv zeta in Hres. fold V in Hres.
  set (W := (/ m1 + / m2)%R) in *.
  set (J := (- (1 + e) * V / W)%R) in *.
  do 6 eexists. split; [exact Hres |].
  assert (Hm1W : (m1 * / m1 = 1)%R) by (field; exact Hm10).
  assert (Hm2W : (m2 * / m2 = 1)%R) by (field; exact Hm20).
  assert (HJW : (J * W = - (1 + e) * V)%R) by (unfold J; field; exact Hw).
  assert (Hloss :
    (1 / 2 * m1 * (x1 * x1 + y1 * y1 + z1 * z1)
     + 1 / 2 * m2 * (x2 * x2 + y2 * y2 + z2 * z2)
     - (1 / 2 * m1 * ((x1 - J * nx * / m1) * (x1 - J * nx * / m1)
                      + (y1 - J * ny * / m1) * (y1 - J * ny * / m1)
                      + (z1 - J * nz * / m1) * (z1 - J * nz * / m1))
        + 1 / 2 * m2 * ((x2 + J * nx * / m2) * (x2 + J * nx * / m2)
                        + (y2 + J * ny * / m2) * (y2 + J * ny * / m2)
                        + (z2 + J * nz * / m2) * (z2 + J * nz * / m2)))
     = (1 - e * e) * (V * V) / (2 * W))%R).
  { replace (1 / 2 * m1 * (x1 * x1 + y1 * y1 + z1 * z1)
             + 1 / 2 * m2 * (x2 * x2 + y2 * y2 + z2 * z2)
             - (1 / 2 * m1 * ((x1 - J * nx * / m1) * (x1 - J * nx * / m1)
                              + (y1 - J * ny * / m1) * (y1 - J * ny * / m1)
                              + (z1 - J * nz * / m1) * (z1 - J * nz * / m1))
                + 1 / 2 * m2 * ((x2 + J * nx * / m2) * (x2 + J * nx * / m2)
                                + (y2 + J * ny * / m2) * (y2 + J * ny * / m2)
                                + (z2 + J * nz * / m2) * (z2 + J * nz * / m2))))%R
      with (- (J * V) * (m1 * / m1)
            + (m1 * / m1 - m2 * / m2) * J * (x1 * nx + y1 * ny + z1 * nz)
            + (1 - m2 * / m2) * J * V
            - 1 / 2 * J * J * (nx * nx + ny * ny + nz * nz)
              * (m1 * / m1 * / m1 + m2 * / m2 * / m2))%R
      by (unfold V; field; split; assumption).
    rewrite Hunit, Hm1W, Hm2W.
    replace (1 * / m1 + 1 * / m2)%R with W by (unfold W; ring).
    replace (- (J * V) * 1 + (1 - 1) * J * (x1 * nx + y1 * ny + z1 * nz)
             + (1 - 1) * J * V - 1 / 2 * J * J * 1 * W)%R
      with (- (J * V) - 1 / 2 * J * (J * W))%R by field.
    rewrite HJW. unfold J. field. exact Hw. }
  split; [| split; [exact Hloss |]].
  - replace ((x2 + J * nx * / m2 - (x1 - J * nx * / m1)) * nx
             + (y2 + J * ny * / m2 - (y1 - J * ny * / m1)) * ny
             + (z2 + J * nz * / m2 - (z1 - J * nz * / m1)) * nz)%R
      with (V + J * W * (nx * nx + ny * ny + nz * nz))%R
      by (unfold V, W; ring).
    rewrite Hunit, HJW. ring.
  - assert (Hge : (0 <= (1 - e * e) * (V * V) / (2 * W))%R).
    { apply Rmult_le_pos; [| left; apply Rinv_0_lt_compat; unfold W; lra].
      apply Rmult_le_pos; [nra | apply Rle_0_sqr]. }
    lra.
Qed.

Lemma resolveCollision_restitution_and_energy_witness :
  exists a1 b1 c1 a2 b2 c2 : R,
    resolveCollision heavy_ball light_ball contact_along_x
    = Velocities.mk (Vec.mk (Fin a1) (Fin b1) (Some (Fin c1)))
                    (Vec.mk (Fin a2) (Fin b2) (Some (Fin c2)))
    /\ ((a2 - a1) * 1 + (b2 - b1) * 0 + (c2 - c1) * 0
        = - (0.5) * ((0 - 1) * 1 + (0 - 0) * 0 + (0 - 0) * 0))%R.
Proof.
  destruct heavy_light_data as (Hm1 & Hm2 & He & Hv1 & Hv2).
  destruct (resolveCollision_restitution_and_energy heavy_ball light_ball
              contact_along_x 2 1 0.5 1 0 0 0 0 0 1 0 0
              eq_refl Hm1 ltac:(lra) Hm2 ltac:(lra) He ltac:(lra)
              Hv1 Hv2 eq_refl ltac:(lra) ltac:(lra))
    as (a1 & b1 & c1 & a2 & b2 & c2 & Hres & Hrel & _).
  exists a1, b1, c1, a2, b2, c2. split; [exact Hres | exact Hrel].
Defined.

(** ** All pairs *)

Section AllCollisionsProperties.

Variable Obj : Type.
Variable body : Obj -> Body.t.
Variable collisionEnabled : Obj -> option bool.

Local Abbreviation off := (disabled Obj collisionEnabled).
Local Abbreviation pairsWith := (collisionsWith Obj body collisionEnabled).
Local Abbreviation allPairs := (checkAllCollisions Obj body collisionEnabled).

(** What the inner loop reports for [obj1] and the objects after it. *)
Lemma collisionsWith_spec (obj1 : Obj) (following : list Obj)
    (a b : Obj) (c : Collision.t) :
  In (a, b, c) (pairsWith obj1 following)
  <-> a = obj1 /\ In b following
      /\ off a = false /\ off b = false
      /\ c = checkCollision (body a) (body b)
      /\ c.(Collision.isColliding) = true.
Proof.
  induction following as [| obj2 following IH]; cbn [collisionsWith In].
  - split; [contradiction | intros (_ & [] & _)].
  - destruct (off obj1) eqn:H1; cbn [orb].
    + rewrite IH. split.
      * intros (-> & _ & Hoff & _). congruence.
      * intros (-> & _ & Hoff & _). congruence.
    + destruct (off obj2) eqn:H2.
      * rewrite IH. split.
        -- intros (-> & Hin & Hrest). repeat split; auto; apply Hrest.
        -- intros (-> & [-> | Hin] & Ha & Hb & Hrest); [congruence |].
           repeat split; auto; apply Hrest.
      * destruct (Collision.isColliding
                    (checkCollision (body obj1) (body obj2))) eqn:Hcol.
        -- cbn [In]. rewrite IH. split.
           ++ intros [Heq | (-> & Hin & Hrest)].
              ** injection Heq as <- <- <-. repeat split; auto.
              ** repeat split; auto; apply Hrest.
           ++ intros (-> & [-> | Hin] & Ha & Hb & -> & Hc).
              ** now left.
              ** right. repeat split; auto.
        -- rewrite IH. split.
           ++ intros (-> & Hin & Hrest). repeat split; auto; apply Hrest.
           ++ intros (-> & [-> | Hin] & Ha & Hb & -> & Hc); [congruence |].
              repeat split; auto.
Qed.

(** X20.  [checkAllCollisions] reports exactly the pairs [(a, b)] in
    which [a] stands before [b] in the array, neither has
    [collisionEnabled === false], and [checkCollision (a, b)] is
    colliding; the record stored with the pair is that of
    [checkCollision (a, b)]. *)
Theorem checkAllCollisions_spec (objects : list Obj)
    (a b : Obj) (c : Collision.t) :
  In (a, b, c) (checkAllCollisions Obj body collisionEnabled objects)
  <-> (exists before between after : list Obj,
          objects = before ++ a :: between ++ b :: after)
      /\ disabled Obj collisionEnabled a = false
      /\ disabled Obj collisionEnabled b = false
      /\ c = checkCollision (body a) (body b)
      /\ c.(Collision.isColliding) = true.
Proof.
  induction objects as [| obj1 following IH]; cbn [checkAllCollisions].
  - split; [contradiction |].
    intros ((before & between & after & Heq) & _).
    destruct before; discriminate.
  - rewrite in_app_iff, collisionsWith_spec, IH. split.
    + intros [(-> & Hin & Hrest) | ((before & between & after & ->) & Hrest)].
      * split; [| exact Hrest].
        apply in_split in Hin as (between & after & ->).
        now exists [], between, after.
      * split; [| exact Hrest].
        now exists (obj1 :: before), between, after.
    + intros ((before & between & after & Heq) & Hrest).
      destruct before as [| first before]; cbn [app] in Heq;
        injection Heq as -> ->.
      * left. split; [reflexivity |]. split; [| exact Hrest].
        apply in_or_app. right. now left.
      * right. split; [| exact Hrest]. now exists before, between, after.
Qed.

Lemma collisionsWith_length (obj1 : Obj) (following : list Obj) :
  (List.length (pairsWith obj1 following) <= List.length following)%nat.
Proof.
  induction following as [| obj2 following IH]; cbn [collisionsWith List.length].
  - lia.
  - destruct (off obj1 || off obj2); [lia |].
    destruct (Collision.isColliding _); cbn [List.length]; lia.
Qed.

(** X21.  For [n] objects [checkAllCollisions] reports at most
    [n (n - 1) / 2] pairs; in particular none for an empty array or a
    single object. *)
Theorem checkAllCollisions_length (objects : list Obj) :
  (2 * List.length (checkAllCollisions Obj body collisionEnabled objects)
   <= List.length objects * (List.length objects - 1))%nat.
Proof.
  induction objects as [| obj1 following IH];
    cbn [checkAllCollisions List.length].
  - lia.
  - rewrite length_app.
    pose proof (collisionsWith_length obj1 following) as Hinner.
    nia.
Qed.

End AllCollisionsProperties.

(** * Further properties of the field-line tracer *)

(** ** Any charges *)

Lemma fieldLineLoop_length (charges : list Charge.t) (stepSize : num)
    (steps : nat) (currentPoint : Vector3.t) :
  (1 <= List.length (fst (fieldLineLoop charges stepSize steps [] currentPoint))
   <= S steps)%nat.
Proof.
  revert currentPoint.
  induction steps as [| steps IH]; intros currentPoint; cbn [fieldLineLoop].
  - cbn [fst app List.length]. lia.
  - destruct (fieldLineStep charges stepSize currentPoint) as [nextPoint | why].
    + rewrite fieldLineLoop_prefix. cbn [fst app List.length].
      specialize (IH nextPoint). lia.
    + cbn [fst app List.length]. lia.
Qed.

(** X22.  Whatever the charges and the start point are, the array that
    [calculateFieldLine] returns begins with the start point and holds at
    most [maxSteps + 1] points. *)
Theorem calculateFieldLine_bounded (startPoint : Vec.t)
    (charges : list Charge.t) (maxSteps : option nat) (stepSize : option num) :
  let start :=
    Vector3.new startPoint.(Vec.x) startPoint.(Vec.y) startPoint.(Vec.z) in
  let limit := match maxSteps with Some n => n | None => 200%nat end in
  (exists rest,
      calculateFieldLine startPoint charges maxSteps stepSize = start :: rest)
  /\ (List.length (calculateFieldLine startPoint charges maxSteps stepSize)
      <= limit + 1)%nat.
Proof.
  intros start limit. unfold calculateFieldLine, traceFieldLine.
  fold start limit. split.
  - apply fieldLineLoop_head.
  - pose proof (fieldLineLoop_length charges
                  (match stepSize with Some s => s | None => Fin 0.1 end)
                  limit start). lia.
Qed.

Lemma tooCloseTo_flag (charges : list Charge.t) (p : Vector3.t) :
  forall flag : bool,
    fold_left
      (fun tooClose charge =>
         let dist :=
           Vector3.distanceTo p
             (Vector3.new charge.(Charge.position).(Vec.x)
                          charge.(Charge.position).(Vec.y)
                          charge.(Charge.position).(Vec.z)) in
         if dist <? Fin 0.3 then true else tooClose)
      charges flag = false ->
    flag = false
    /\ Forall (fun charge =>
                 (Vector3.distanceTo p (chargeCentre charge) <? Fin 0.3) = false)
              charges.
Proof.
  induction charges as [| charge charges IH]; intros flag; cbn [fold_left].
  - intros ->. split; [reflexivity | constructor].
  - intros H. apply IH in H as (Hflag & Hall).
    change (Vector3.new _ _ _) with (chargeCentre charge) in Hflag.
    destruct (Vector3.distanceTo p (chargeCentre charge) <? Fin 0.3) eqn:Hd;
      [discriminate |].
    split; [exact Hflag | constructor; assumption].
Qed.

Lemma fieldLineStep_Push (charges : list Charge.t) (stepSize : num)
    (p nextPoint : Vector3.t) :
  fieldLineStep charges stepSize p = Push nextPoint ->
  admissible charges nextPoint.
Proof.
  unfold fieldLineStep.
  destruct (totalField charges p) as [[fieldX fieldY] fieldZ].
  destruct (_ <? Fin 0.01); [discriminate |].
  destruct (tooCloseTo charges _) eqn:Hclose; [discriminate |].
  destruct (_ || _) eqn:Hout; [discriminate |].
  intros H; injection H as <-.
  apply orb_false_elim in Hout as (Hx & Hy).
  apply tooCloseTo_flag in Hclose as (_ & Hall).
  split; [exact Hall | split; assumption].
Qed.

Lemma fieldLineLoop_steps (charges : list Charge.t) (stepSize : num)
    (steps : nat) :
  forall currentPoint : Vector3.t,
    stepwise (fun p p' => fieldLineStep charges stepSize p = Push p')
             (fst (fieldLineLoop charges stepSize steps [] currentPoint)).
Proof.
  induction steps as [| steps IH]; intros currentPoint; cbn [fieldLineLoop].
  - exact I.
  - destruct (fieldLineStep charges stepSize currentPoint)
      as [nextPoint | why] eqn:Hstep.
    + rewrite fieldLineLoop_prefix. cbn [fst app].
      destruct (fieldLineLoop_head charges stepSize steps nextPoint)
        as (rest & Hrest).
      specialize (IH nextPoint). rewrite Hrest in *.
      cbn [stepwise]. split; [exact Hstep | exact IH].
    + exact I.
Qed.

Lemma stepwise_tail {A : Type} (R : A -> A -> Prop) (P : A -> Prop)
    (l : list A) :
  (forall a b, R a b -> P b) -> stepwise R l -> Forall P (tl l).
Proof.
  intros HRP. destruct l as [| a l]; [constructor |]. cbn [tl].
  revert a. induction l as [| b l IH]; intros a; [constructor |].
  cbn [stepwise]. intros (Hab & Hrest). constructor.
  - exact (HRP a b Hab).
  - exact (IH b Hrest).
Qed.

(** X23.  Every point of a field line is produced from the one before by
    one iteration of the loop body, and every point after the start point
    has passed the loop's checks: no charge within [0.3] of it, [|x|] and
    [|y|] not above [15]. *)
Theorem calculateFieldLine_points_admissible (startPoint : Vec.t)
    (charges : list Charge.t) (maxSteps : option nat) (stepSize : option num) :
  let step := match stepSize with Some s => s | None => Fin 0.1 end in
  stepwise (fun p p' => fieldLineStep charges step p = Push p')
           (calculateFieldLine startPoint charges maxSteps stepSize)
  /\ Forall (admissible charges)
            (tl (calculateFieldLine startPoint charges maxSteps stepSize)).
Proof.
  intros step.
  assert (Hsteps : stepwise (fun p p' => fieldLineStep charges step p = Push p')
                     (calculateFieldLine startPoint charges maxSteps stepSize)).
  { unfold calculateFieldLine, traceFieldLine. apply fieldLineLoop_steps. }
  split; [exact Hsteps |].
  apply (stepwise_tail _ _ _ (fieldLineStep_Push charges step) Hsteps).
Qed.

(** ** The seeds of the bundle *)

(** X24.  Each of the seed points that the drawing effect puts around a
    finite charge that lies in the box, at least [0.5] from its border, has
    itself passed the checks of the tracing loop: it is not within [0.3] of
    its charge, as either loop of [calculateFieldLine] measures the
    distance, so that the first iteration counts the field of the charge,
    and neither [|x|] nor [|y|] exceeds [15]. *)
Theorem seedPoint_admissible (charge : Charge.t) (cx cy cz q : R) (i : nat) :
  finite_charge charge cx cy cz q ->
  (Rabs cx <= 14.5)%R -> (Rabs cy <= 14.5)%R ->
  let seed := seedPoint charge i in
  let start := Vector3.new seed.(Vec.x) seed.(Vec.y) seed.(Vec.z) in
  (chargeDistance start charge <? Fin 0.3) = false
  /\ admissible [charge] start.
Proof.
  intros Hcharge Hcx Hcy seed start.
  unfold start, seed.
  rewrite (seedPoint_on_ray charge cx cy cz q i Hcharge). cbv zeta.
  set (angle := (INR i / 16 * PI * 2)%R).
  unfold rayPoint.
  assert (Hdist : dist cx cy cz (cx + 0.5 * cos angle) (cy + 0.5 * sin angle)
                    (cz + 0.5 * 0) = 0.5%R).
  { apply dist_ray; [| lra].
    pose proof (sin2_cos2 angle) as Hunit. unfold Rsqr in Hunit. lra. }
  apply Rabs_bounds in Hcx. apply Rabs_bounds in Hcy.
  pose proof (COS_bound angle) as Hcos. pose proof (SIN_bound angle) as Hsin.
  split; [| split; [| split]].
  - rewrite (chargeDistance_finite charge cx cy cz q Hcharge), Hdist.
    cbn [Js.ltb]. apply Rltb_false. lra.
  - constructor; [| constructor].
    rewrite (distanceTo_centre charge cx cy cz q Hcharge), Hdist.
    cbn [Js.ltb]. apply Rltb_false. lra.
  - cbn [Vector3.x Math.abs Js.gtb Js.ltb]. apply Rltb_false.
    apply Rabs_le. lra.
  - cbn [Vector3.y Math.abs Js.gtb Js.ltb]. apply Rltb_false.
    apply Rabs_le. lra.
Qed.

Lemma seedPoint_admissible_witness :
  let seed := seedPoint unit_charge 3 in
  let start := Vector3.new seed.(Vec.x) seed.(Vec.y) seed.(Vec.z) in
  (chargeDistance start unit_charge <? Fin 0.3) = false
  /\ admissible [unit_charge] start.
Proof.
  apply (seedPoint_admissible unit_charge 0 0 0 1 3).
  - repeat split. now left.
  - rewrite Rabs_R0. lra.
  - rewrite Rabs_R0. lra.
Defined.

(** ** A charge of value zero *)

Lemma tooCloseTo_set (charges : list Charge.t) (p : Vector3.t) :
  fold_left
    (fun tooClose charge =>
       let dist :=
         Vector3.distanceTo p
           (Vector3.new charge.(Charge.position).(Vec.x)
                        charge.(Charge.position).(Vec.y)
                        charge.(Charge.position).(Vec.z)) in
       if dist <? Fin 0.3 then true else tooClose)
    charges true = true.
Proof.
  induction charges as [| charge charges IH]; cbn [fold_left]; [reflexivity |].
  destruct (_ <? Fin 0.3); exact IH.
Qed.

(** X25.  A charge whose value [q] is zero adds nothing to the field that
    the first loop accumulates at a finite point, whatever the other charges
    are; it still ends a line, since the second loop looks at positions
    only: a point within [0.3] of it sets [tooClose]. *)
Theorem totalField_neutral_charge (before after : list Charge.t)
    (neutral : Charge.t) (cx cy cz px py pz : R) :
  finite_charge neutral cx cy cz 0 ->
  let p := Vector3.mk (Fin px) (Fin py) (Fin pz) in
  totalField (before ++ neutral :: after) p = totalField (before ++ after) p
  /\ ((dist cx cy cz px py pz < 0.3)%R ->
      tooCloseTo (before ++ neutral :: after) p = true).
Proof.
  intros Hneutral p. split.
  - unfold totalField. rewrite !fold_left_app. cbn [fold_left]. f_equal.
    destruct (fold_left _ before _) as [[fieldX fieldY] fieldZ].
    change (Math.sqrt _) with (chargeDistance p neutral).
    unfold p. rewrite (chargeDistance_finite neutral cx cy cz 0 Hneutral).
    cbn [Js.ltb].
    destruct (Rltb (dist cx cy cz px py pz) 0.3) eqn:Hnear; [reflexivity |].
    assert (Hr : (0.3 <= dist cx cy cz px py pz)%R).
    { revert Hnear. unfold Rltb. destruct (Rlt_dec _ _); [discriminate | lra]. }
    pose proof (dist_square cx cy cz px py pz) as Hsq.
    assert (Hr2 : (dist2 cx cy cz px py pz <> 0)%R).
    { rewrite <- Hsq. nra. }
    rewrite (charge_z neutral cx cy cz 0 Hneutral).
    destruct Hneutral as (Hx & Hy & _ & Hq). rewrite Hx, Hy, Hq.
    cbn [Vector3.x Vector3.y Vector3.z]. rewrite or_num_Fin.
    unfold k. cbn [Js.sub Js.add Js.neg Js.mul].
    change ((px + - cx) * (px + - cx) + (py + - cy) * (py + - cy)
            + (pz + - cz) * (pz + - cz))%R with (dist2 cx cy cz px py pz).
    rewrite !div_Fin by lra.
    assert (Hzero : forall d : R,
               (8.99e9 * 0 / dist2 cx cy cz px py pz * d = 0)%R).
    { intros d. field. exact Hr2. }
    cbn [Js.mul]. rewrite !Hzero.
    assert (Hadd : forall a : num, a + Fin 0 = a).
    { intros [a | | |]; cbn [Js.add]; [f_equal; ring | reflexivity ..]. }
    rewrite !Hadd. reflexivity.
  - intros Hnear. unfold tooCloseTo. rewrite fold_left_app. cbn [fold_left].
    change (Vector3.new (Vec.x (Charge.position neutral)) _ _)
      with (chargeCentre neutral).
    unfold p. rewrite (distanceTo_centre neutral cx cy cz 0 Hneutral).
    cbn [Js.ltb]. rewrite Rltb_true by exact Hnear.
    apply tooCloseTo_set.
Qed.

Lemma totalField_neutral_charge_witness :
  let neutral := Charge.mk (Vec.mk (Fin 1) (Fin 0) None) (Fin 0) in
  let p := Vector3.mk (Fin 1) (Fin 0.2) (Fin 0) in
  totalField ([unit_charge] ++ neutral :: [faint_charge]) p
  = totalField ([unit_charge] ++ [faint_charge]) p
  /\ ((dist 1 0 0 1 0.2 0 < 0.3)%R ->
      tooCloseTo ([unit_charge] ++ neutral :: [faint_charge]) p = true).
Proof.
  intros neutral p.
  apply (totalField_neutral_charge [unit_charge] [faint_charge] neutral
           1 0 0 1 0.2 0).
  repeat split. right. split; reflexivity.
Defined.

(** ** A single negative charge *)

Lemma Rltb_elim_false (a b : R) : Rltb a b = false -> (b <= a)%R.
Proof. unfold Rltb. destruct (Rlt_dec a b); [discriminate | lra]. Qed.

Section NegativeCharge.

Variable charge : Charge.t.
Variables cx cy cz q : R.
Hypothesis charge_finite : finite_charge charge cx cy cz q.
Hypothesis charge_negative : (q < 0)%R.

Local Abbreviation rho2 := (dist2 cx cy cz).
Local Abbreviation rho := (dist cx cy cz).

(** One step of length [s] against the radius moves the point from
    distance [r] to distance [|r - s|]. *)
Lemma dist_previous (s px py pz : R) :
  (0 < rho px py pz)%R ->
  rho (px - s * ((px - cx) / rho px py pz))
      (py - s * ((py - cy) / rho px py pz))
      (pz - s * ((pz - cz) / rho px py pz))
  = Rabs (rho px py pz - s).
Proof.
  intros Hr. pose proof (dist_square cx cy cz px py pz) as Hsq.
  set (r := rho px py pz) in *.
  unfold dist at 1.
  replace (dist2 cx cy cz (px - s * ((px - cx) / r)) (py - s * ((py - cy) / r))
             (pz - s * ((pz - cz) / r)))
    with (Rsqr (r - s)).
  - apply sqrt_Rsqr_abs.
  - unfold dist2, Rsqr in *.
    replace ((px - s * ((px - cx) / r) - cx) * (px - s * ((px - cx) / r) - cx)
             + (py - s * ((py - cy) / r) - cy) * (py - s * ((py - cy) / r) - cy)
             + (pz - s * ((pz - cz) / r) - cz) * (pz - s * ((pz - cz) / r) - cz))%R
      with (((px - cx) * (px - cx) + (py - cy) * (py - cy) + (pz - cz) * (pz - cz))
            * ((r - s) / r) * ((r - s) / r))%R by (field; lra).
    rewrite <- Hsq. field. lra.
Qed.

(** The magnitude of the field of the negative charge is [- k q / r^2]. *)
Lemma field_magnitude_negative (px py pz : R) :
  (0 < rho px py pz)%R ->
  let E := (8.99e9 * q / rho2 px py pz)%R in
  sqrt ((0 + E * ((px - cx) / rho px py pz)) * (0 + E * ((px - cx) / rho px py pz))
        + (0 + E * ((py - cy) / rho px py pz)) * (0 + E * ((py - cy) / rho px py pz))
        + (0 + E * ((pz - cz) / rho px py pz)) * (0 + E * ((pz - cz) / rho px py pz)))
  = (- E)%R /\ (E < 0)%R.
Proof.
  intros Hr E. pose proof (dist_square cx cy cz px py pz) as Hsq.
  set (r := rho px py pz) in *.
  assert (HE : (0 < - E)%R).
  { unfold E. rewrite <- Hsq.
    replace (- (8.99e9 * q / (r * r)))%R with (8.99e9 * (- q) / (r * r))%R
      by (field; lra).
    apply Rdiv_lt_0_compat; nra. }
  split; [| lra].
  replace ((0 + E * ((px - cx) / r)) * (0 + E * ((px - cx) / r))
           + (0 + E * ((py - cy) / r)) * (0 + E * ((py - cy) / r))
           + (0 + E * ((pz - cz) / r)) * (0 + E * ((pz - cz) / r)))%R
    with (- E * - E * (dist2 cx cy cz px py pz / (r * r)))%R
    by (unfold dist2; field; lra).
  rewrite Hsq.
  replace (- E * - E * (dist2 cx cy cz px py pz / dist2 cx cy cz px py pz))%R
    with (- E * - E)%R by (field; rewrite <- Hsq; nra).
  apply sqrt_square. lra.
Qed.

(** From [0.3] outwards one iteration either stops because the field is
    below [0.01], or moves the point by [s] towards the charge, and then
    stops if the new point is within [0.3] of the charge or outside the
    box. *)
Lemma fieldLineStep_negative (s px py pz : R) :
  (0.3 <= rho px py pz)%R ->
  fieldLineStep [charge] (Fin s) (Vector3.mk (Fin px) (Fin py) (Fin pz))
  = if Rltb (- (8.99e9 * q / rho2 px py pz)) 0.01 then Break FieldTooWeak
    else
      let nx := (px - s * ((px - cx) / rho px py pz))%R in
      let ny := (py - s * ((py - cy) / rho px py pz))%R in
      let nz := (pz - s * ((pz - cz) / rho px py pz))%R in
      if Rltb (Rabs (rho px py pz - s)) 0.3 then Break TooClose
      else if Rltb 15 (Rabs nx) || Rltb 15 (Rabs ny) then Break OutOfBounds
      else Push (Vector3.mk (Fin nx) (Fin ny) (Fin nz)).
Proof.
  intros Hr. unfold fieldLineStep.
  rewrite (totalField_single charge cx cy cz q charge_finite).
  rewrite Rltb_false by exact Hr.
  destruct (field_magnitude_negative px py pz ltac:(lra)) as (Hmag & HE).
  cbv zeta in Hmag, HE.
  cbn [Js.mul Js.add].
  rewrite sqrt_Fin by
    (repeat apply Rplus_le_le_0_compat; apply Rle_0_sqr).
  rewrite Hmag. cbn [Js.ltb].
  destruct (Rltb (- (8.99e9 * q / rho2 px py pz)) 0.01) eqn:Hweak;
    [reflexivity |].
  rewrite !div_Fin by lra.
  unfold Vector3.add, Vector3.multiplyScalar, Vector3.clone.
  cbn [Vector3.x Vector3.y Vector3.z Js.mul Js.add].
  assert (Hn : forall p d : R,
             (p + (0 + 8.99e9 * q / rho2 px py pz * d)
                  / - (8.99e9 * q / rho2 px py pz) * s
              = p - s * d)%R).
  { intros p d. set (E := (8.99e9 * q / rho2 px py pz)%R) in *. field. lra. }
  rewrite !Hn.
  unfold tooCloseTo. cbn [fold_left].
  change (Vector3.new _ _ _) with (chargeCentre charge).
  rewrite (distanceTo_centre charge cx cy cz q charge_finite).
  rewrite dist_previous by lra.
  cbn [Js.ltb].
  destruct (Rltb (Rabs (rho px py pz - s)) 0.3); [reflexivity |].
  cbn [Math.abs Js.gtb Js.ltb].
  reflexivity.
Qed.

(** A step of at most the distance to the charge stays between the point
    and the charge, coordinate by coordinate. *)
Lemma step_inside_box (s r p c : R) :
  (0 < s <= r)%R -> (Rabs p <= 15)%R -> (Rabs c <= 15)%R ->
  Rltb 15 (Rabs (p - s * ((p - c) / r))) = false.
Proof.
  intros Hs Hp Hc. apply Rltb_false.
  assert (Hp' : (-15 <= p <= 15)%R)
    by (revert Hp; unfold Rabs; destruct (Rcase_abs p); lra).
  assert (Hc' : (-15 <= c <= 15)%R)
    by (revert Hc; unfold Rabs; destruct (Rcase_abs c); lra).
  assert (Ht : (0 <= s / r <= 1)%R).
  { split.
    - apply Rlt_le, Rdiv_lt_0_compat; lra.
    - apply Rmult_le_reg_r with r; [lra |].
      unfold Rdiv. rewrite Rmult_assoc, Rinv_l by lra. lra. }
  replace (p - s * ((p - c) / r))%R with (p - s / r * (p - c))%R
    by (field; lra).
  apply Rabs_le. set (t := (s / r)%R) in *. nra.
Qed.

Lemma negative_trace (s : R) (steps : nat) :
  (0 < s <= 0.3)%R ->
  forall px py pz : R,
    stepwise (fun p p' => nearer (chargeCentre charge) p' p)
      (fst (fieldLineLoop [charge] (Fin s) steps []
              (Vector3.mk (Fin px) (Fin py) (Fin pz))))
    /\ ((Rabs cx <= 15)%R -> (Rabs cy <= 15)%R ->
        (Rabs px <= 15)%R -> (Rabs py <= 15)%R ->
        snd (fieldLineLoop [charge] (Fin s) steps []
               (Vector3.mk (Fin px) (Fin py) (Fin pz))) <> OutOfBounds).
Proof.
  intros Hs. induction steps as [| steps IH]; intros px py pz.
  - cbn [fieldLineLoop fst snd app stepwise]. split; [exact I | discriminate].
  - cbn [fieldLineLoop].
    destruct (Rlt_dec (rho px py pz) 0.3) as [Hnear | Hfar].
    { rewrite (fieldLineStep_near charge cx cy cz q charge_finite)
        by exact Hnear.
      cbn [fst snd app stepwise]. split; [exact I | discriminate]. }
    rewrite fieldLineStep_negative by lra.
    destruct (Rltb (- (8.99e9 * q / rho2 px py pz)) 0.01).
    { cbn [fst snd app stepwise]. split; [exact I | discriminate]. }
    cbv zeta.
    destruct (Rltb (Rabs (rho px py pz - s)) 0.3).
    { cbn [fst snd app stepwise]. split; [exact I | discriminate]. }
    destruct (Rltb 15 (Rabs _) || Rltb 15 (Rabs _)) eqn:Hout.
    { cbn [fst snd app stepwise]. split; [exact I |].
      intros Hcx Hcy Hpx Hpy _.
      rewrite !step_inside_box in Hout by (assumption || lra).
      discriminate. }
    apply orb_false_elim in Hout as (Hnx & Hny).
    apply Rltb_elim_false in Hnx. apply Rltb_elim_false in Hny.
    rewrite fieldLineLoop_prefix. cbn [fst snd app].
    destruct (IH (px - s * ((px - cx) / rho px py pz))%R
                 (py - s * ((py - cy) / rho px py pz))%R
                 (pz - s * ((pz - cz) / rho px py pz))%R) as (Hsteps & Hwhy).
    split.
    + destruct (fieldLineLoop_head [charge] (Fin s) steps
                  (Vector3.mk (Fin (px - s * ((px - cx) / rho px py pz)))
                              (Fin (py - s * ((py - cy) / rho px py pz)))
                              (Fin (pz - s * ((pz - cz) / rho px py pz)))))
        as (rest & Hrest).
      rewrite Hrest in *. cbn [stepwise]. split; [| exact Hsteps].
      unfold nearer.
      rewrite !(distanceTo_centre charge cx cy cz q charge_finite).
      rewrite dist_previous by lra.
      cbn [Js.ltb]. apply Rltb_true.
      rewrite Rabs_pos_eq by lra. lra.
    + intros Hcx Hcy _ _. apply Hwhy; (assumption || lra).
Qed.

End NegativeCharge.

(** X26.  A field line traced with a step [0 < s <= 0.3] from a finite
    start point in the field of a single finite charge [q < 0] runs towards
    the charge: every point of the line is strictly nearer to the charge
    than the one before; and when the charge and the start point are inside
    the box [|x| <= 15, |y| <= 15] the line never ends by leaving the
    box. *)
Theorem isolated_negative_charge_field_line
    (charge : Charge.t) (startPoint : Vec.t)
    (maxSteps : option nat) (stepSize : option num)
    (cx cy cz q sx sy sz s : R) :
  finite_charge charge cx cy cz q -> (q < 0)%R ->
  finite_position startPoint sx sy sz ->
  match stepSize with Some v => v | None => Fin 0.1 end = Fin s ->
  (0 < s <= 0.3)%R ->
  stepwise (fun p p' => nearer (chargeCentre charge) p' p)
    (calculateFieldLine startPoint [charge] maxSteps stepSize)
  /\ ((Rabs cx <= 15)%R -> (Rabs cy <= 15)%R ->
      (Rabs sx <= 15)%R -> (Rabs sy <= 15)%R ->
      snd (traceFieldLine startPoint [charge] maxSteps stepSize)
      <> OutOfBounds).
Proof.
  intros Hcharge Hq Hstart Hstep Hs.
  unfold calculateFieldLine, traceFieldLine.
  rewrite Hstep, (start_point_finite startPoint sx sy sz Hstart).
  apply (negative_trace charge cx cy cz q Hcharge Hq s
           (match maxSteps with Some n => n | None => 200%nat end) Hs sx sy sz).
Qed.

Lemma isolated_negative_charge_field_line_witness :
  let charge := Charge.mk (Vec.mk (Fin 0) (Fin 0) None) (Fin (-1)) in
  let startPoint := Vec.mk (Fin 2) (Fin 0) None in
  stepwise (fun p p' => nearer (chargeCentre charge) p' p)
    (calculateFieldLine startPoint [charge] None None)
  /\ ((Rabs 0 <= 15)%R -> (Rabs 0 <= 15)%R ->
      (Rabs 2 <= 15)%R -> (Rabs 0 <= 15)%R ->
      snd (traceFieldLine startPoint [charge] None None) <> OutOfBounds).
Proof.
  intros charge startPoint.
  apply (isolated_negative_charge_field_line charge startPoint None None
           0 0 0 (-1) 2 0 0 0.1).
  - repeat split. right. split; reflexivity.
  - lra.
  - repeat split. right. split; reflexivity.
  - reflexivity.
  - lra.
Defined.

(** * Further properties of the wave visualisation *)

(** ** Bounds *)

(** The triangle inequality in the plane, one source at a time. *)
Lemma phasor_step (c0 s0 B0 a A phi : R) :
  (0 <= B0)%R -> (c0 * c0 + s0 * s0 <= B0 * B0)%R -> (Rabs a <= Rabs A)%R ->
  (0 <= B0 + Rabs A)%R
  /\ ((c0 + a * cos phi) * (c0 + a * cos phi)
      + (s0 + a * sin phi) * (s0 + a * sin phi)
      <= (B0 + Rabs A) * (B0 + Rabs A))%R.
Proof.
  intros HB HN Ha.
  pose proof (Rabs_pos a) as Ha0. pose proof (Rabs_pos A) as HA0.
  split; [lra |].
  pose proof (sin2_cos2 phi) as Hunit. unfold Rsqr in Hunit.
  set (D := (c0 * cos phi + s0 * sin phi)%R).
  assert (HD : (D * D <= B0 * B0)%R).
  { assert (HCS : (c0 * c0 + s0 * s0 - D * D
                   = (c0 * sin phi - s0 * cos phi)
                     * (c0 * sin phi - s0 * cos phi))%R).
    { unfold D.
      replace (c0 * c0 + s0 * s0)%R
        with ((c0 * c0 + s0 * s0) * (sin phi * sin phi + cos phi * cos phi))%R
        by (rewrite Hunit; ring).
      ring. }
    pose proof (Rle_0_sqr (c0 * sin phi - s0 * cos phi)) as Hsq.
    unfold Rsqr in Hsq. lra. }
  assert (HDabs : (Rabs D <= B0)%R).
  { apply Rsqr_le_abs_0 in HD. rewrite (Rabs_pos_eq B0) in HD by exact HB.
    exact HD. }
  assert (HaD : (a * D <= Rabs A * B0)%R).
  { apply Rle_trans with (Rabs (a * D)); [apply Rle_abs |].
    rewrite Rabs_mult.
    apply Rmult_le_compat; try assumption; apply Rabs_pos. }
  assert (Haa : (a * a <= Rabs A * Rabs A)%R).
  { replace (a * a)%R with (Rabs a * Rabs a)%R.
    - apply Rmult_le_compat; assumption.
    - unfold Rabs. destruct (Rcase_abs a); ring. }
  replace ((c0 + a * cos phi) * (c0 + a * cos phi)
           + (s0 + a * sin phi) * (s0 + a * sin phi))%R
    with (c0 * c0 + s0 * s0 + 2 * (a * D)
          + a * a * (sin phi * sin phi + cos phi * cos phi))%R
    by (unfold D; ring).
  rewrite Hunit. lra.
Qed.

(** The attenuation [1 / (1 + 0.1 d)] never amplifies. *)
Lemma attenuated_amplitude (A d : R) :
  (0 <= d)%R -> (Rabs (A / (1 + d * 0.1)) <= Rabs A)%R.
Proof.
  intros Hd. unfold Rdiv. rewrite Rabs_mult.
  rewrite <- (Rmult_1_r (Rabs A)) at 2.
  apply Rmult_le_compat_l; [apply Rabs_pos |].
  rewrite Rabs_pos_eq by (apply Rlt_le, Rinv_0_lt_compat; lra).
  rewrite <- Rinv_1. apply Rinv_le_contravar; lra.
Qed.

Lemma bounded_sums (x y t : R) (sources : list WaveSource.t) :
  Forall finite_source sources ->
  forall c0 s0 B0 : R,
    exists c s B : R,
      sumCos (Fin x) (Fin y) (Fin t) sources (Fin c0) = Fin c
      /\ sumSin (Fin x) (Fin y) (Fin t) sources (Fin s0) = Fin s
      /\ fold_left
           (fun total source => total + Math.abs source.(WaveSource.amplitude))
           sources (Fin B0) = Fin B
      /\ ((0 <= B0)%R -> (c0 * c0 + s0 * s0 <= B0 * B0)%R ->
          (0 <= B)%R /\ (c * c + s * s <= B * B)%R).
Proof.
  induction 1 as [| source sources Hsrc _ IH]; intros c0 s0 B0.
  - exists c0, s0, B0. cbn [fold_left]. unfold sumCos, sumSin. cbn [fold_left].
    repeat split; assumption.
  - destruct Hsrc as (px & py & A & lambda & f & p & Hpos & HA & Hl & Hl0 & Hf & Hp).
    destruct (source_values x y t px py A lambda f p source
                Hpos HA Hl Hl0 Hf Hp) as (_ & Ha & Hph).
    unfold sumSin, sumCos. cbn [fold_left]. rewrite Ha, Hph, HA.
    cbn [Math.sin Math.cos Math.abs Js.mul Js.add].
    set (d := sqrt ((x - px) * (x - px) + (y - py) * (y - py))) in *.
    set (a := (A / (1 + d * 0.1))%R).
    set (phi := (2 * PI * (d / lambda - f * t) + p)%R).
    destruct (IH (c0 + a * cos phi)%R (s0 + a * sin phi)%R (B0 + Rabs A)%R)
      as (c & s & B & Hc & Hs & HB & Hbound).
    exists c, s, B. split; [exact Hc | split; [exact Hs | split; [exact HB |]]].
    intros HB0 HN.
    destruct (phasor_step c0 s0 B0 a A phi HB0 HN
                (attenuated_amplitude A d (sqrt_pos _))) as (Hpos' & Hle).
    exact (Hbound Hpos' Hle).
Qed.

(** X27.  For sources of the data model and a finite point and time, the
    amplitude that [calculateInterference] returns is at most the sum of the
    magnitudes of the sources' amplitudes, the intensity at most the square
    of that sum, and the height that the frame callback gives the vertex is
    [0.15] times the amplitude. *)
Theorem interference_bounded (x y time : R) (sources : list WaveSource.t) :
  Forall finite_source sources ->
  exists a i B : R,
    calculateInterference (Fin x) (Fin y) sources (Fin time)
    = Interference.mk (Fin a) (Fin i)
    /\ totalSourceAmplitude sources = Fin B
    /\ (Rabs a <= B)%R
    /\ (i <= B * B)%R
    /\ waveHeight (Fin x) (Fin y) sources (Fin time) = Fin (a * 0.15).
Proof.
  intros Hfin. rewrite calculateInterference_sums.
  destruct (bounded_sums x y time sources Hfin 0 0 0)
    as (c & s & B & Hc & Hs & HB & Hbound).
  destruct Hbound as (HB0 & Hcs); [lra | lra |].
  pose proof (Rle_0_sqr c) as Hc2. pose proof (Rle_0_sqr s) as Hs2.
  unfold Rsqr in Hc2, Hs2.
  rewrite Hc, Hs. cbn [Js.mul Js.add].
  assert (Habs : (Rabs s <= B)%R).
  { assert (Hss : (Rsqr s <= Rsqr B)%R) by (unfold Rsqr; lra).
    apply Rsqr_le_abs_0 in Hss. now rewrite (Rabs_pos_eq B) in Hss. }
  assert (Hheight : waveHeight (Fin x) (Fin y) sources (Fin time)
                    = Fin (s * 0.15)).
  { unfold waveHeight.
    change (fold_left _ sources (Fin 0))
      with (sumSin (Fin x) (Fin y) (Fin time) sources (Fin 0)).
    rewrite Hs. reflexivity. }
  destruct (1 <? List.length sources)%nat.
  - exists s, (c * c + s * s)%R, B. repeat split; try assumption.
  - exists s, (s * s)%R, B. repeat split; try assumption. lra.
Qed.

Lemma interference_bounded_witness :
  exists a i B : R,
    calculateInterference (Fin 0) (Fin 0)
      [WaveSource.mk (Vec2.mk (Fin 1) (Fin 0)) (Fin 1) (Fin 1) (Fin 1) None;
       WaveSource.mk (Vec2.mk (Fin (-1)) (Fin 0)) (Fin 1) (Fin 1) (Fin 1) None]
      (Fin 0)
    = Interference.mk (Fin a) (Fin i)
    /\ totalSourceAmplitude
         [WaveSource.mk (Vec2.mk (Fin 1) (Fin 0)) (Fin 1) (Fin 1) (Fin 1) None;
          WaveSource.mk (Vec2.mk (Fin (-1)) (Fin 0)) (Fin 1) (Fin 1) (Fin 1) None]
       = Fin B
    /\ (Rabs a <= B)%R
    /\ (i <= B * B)%R
    /\ waveHeight (Fin 0) (Fin 0)
         [WaveSource.mk (Vec2.mk (Fin 1) (Fin 0)) (Fin 1) (Fin 1) (Fin 1) None;
          WaveSource.mk (Vec2.mk (Fin (-1)) (Fin 0)) (Fin 1) (Fin 1) (Fin 1) None]
         (Fin 0)
       = Fin (a * 0.15).
Proof.
  apply (interference_bounded 0 0 0).
  repeat constructor.
  - exists 1%R, 0%R, 1%R, 1%R, 1%R, 0%R.
    repeat split; try reflexivity. exact R1_neq_R0.
  - exists (-1)%R, 0%R, 1%R, 1%R, 1%R, 0%R.
    repeat split; try reflexivity. exact R1_neq_R0.
Defined.

(** ** One source and many *)

(** X28.  The two branches of the intensity do not agree: a single source
    of the data model gives the intensity [(a sin phi)^2], which changes
    with the phase, while the same source together with a second one of
    amplitude zero gives [a^2], whatever the phase is.  Here [a] is the
    attenuated amplitude [A / (1 + 0.1 d)] and [phi] the phase of the source
    at the point. *)
Theorem silent_source_changes_intensity
    (x y time px py A lambda f p : R) (source silent : WaveSource.t) :
  source.(WaveSource.position) = Vec2.mk (Fin px) (Fin py) ->
  source.(WaveSource.amplitude) = Fin A ->
  source.(WaveSource.wavelength) = Fin lambda -> lambda <> 0%R ->
  source.(WaveSource.frequency) = Fin f ->
  (source.(WaveSource.phase) ||| Fin 0) = Fin p ->
  finite_source silent -> silent.(WaveSource.amplitude) = Fin 0 ->
  let d := sqrt ((x - px) * (x - px) + (y - py) * (y - py)) in
  let a := (A / (1 + d * 0.1))%R in
  let phi := (2 * PI * (d / lambda - f * time) + p)%R in
  (calculateInterference (Fin x) (Fin y) [source] (Fin time))
    .(Interference.intensity) = Fin ((a * sin phi) * (a * sin phi))
  /\ (calculateInterference (Fin x) (Fin y) [source; silent] (Fin time))
       .(Interference.intensity) = Fin (a * a).
Proof.
  intros Hpos HA Hl Hl0 Hf Hp Hsilent Hzero d a phi.
  destruct (source_values x y time px py A lambda f p source
              Hpos HA Hl Hl0 Hf Hp) as (_ & Ha & Hph).
  fold d in Ha, Hph. fold a in Ha. fold phi in Hph.
  destruct Hsilent as (qx & qy & A' & lambda' & f' & p'
                       & Hpos' & HA' & Hl' & Hl0' & Hf' & Hp').
  destruct (source_values x y time qx qy A' lambda' f' p' silent
              Hpos' HA' Hl' Hl0' Hf' Hp') as (_ & Ha' & Hph').
  assert (HA0 : A' = 0%R) by congruence. subst A'.
  pose proof (sqrt_pos ((x - qx) * (x - qx) + (y - qy) * (y - qy))) as Hd'.
  replace (0 / (1 + sqrt ((x - qx) * (x - qx) + (y - qy) * (y - qy)) * 0.1))%R
    with 0%R in Ha' by (field; lra).
  rewrite !calculateInterference_sums.
  cbn [Interference.intensity List.length Nat.ltb Nat.leb].
  unfold sumCos, sumSin. cbn [fold_left].
  rewrite Ha, Hph, Ha', Hph'.
  cbn [Math.sin Math.cos Js.mul Js.add].
  split; f_equal; [ring |].
  pose proof (sin2_cos2 phi) as Hunit. unfold Rsqr in Hunit.
  match goal with
  | |- ((0 + a * cos phi + 0 * ?u) * _ + (0 + a * sin phi + 0 * ?v) * _)%R = _ =>
      replace ((0 + a * cos phi + 0 * u) * (0 + a * cos phi + 0 * u)
               + (0 + a * sin phi + 0 * v) * (0 + a * sin phi + 0 * v))%R
        with (a * a * (sin phi * sin phi + cos phi * cos phi))%R by ring
  end.
  rewrite Hunit. ring.
Qed.

Lemma silent_source_changes_intensity_witness :
  let source :=
    WaveSource.mk (Vec2.mk (Fin 0) (Fin 0)) (Fin 1) (Fin 1) (Fin 1) None in
  let silent :=
    WaveSource.mk (Vec2.mk (Fin 3) (Fin 4)) (Fin 0) (Fin 1) (Fin 1) None in
  let d := sqrt ((0 - 0) * (0 - 0) + (0 - 0) * (0 - 0)) in
  let a := (1 / (1 + d * 0.1))%R in
  let phi := (2 * PI * (d / 1 - 1 * 0) + 0)%R in
  (calculateInterference (Fin 0) (Fin 0) [source] (Fin 0))
    .(Interference.intensity) = Fin ((a * sin phi) * (a * sin phi))
  /\ (calculateInterference (Fin 0) (Fin 0) [source; silent] (Fin 0))
       .(Interference.intensity) = Fin (a * a).
Proof.
  intros source silent.
  apply (silent_source_changes_intensity 0 0 0 0 0 1 1 1 0 source silent);
    try reflexivity.
  - exact R1_neq_R0.
  - exists 3%R, 4%R, 0%R, 1%R, 1%R, 0%R.
    repeat split; try reflexivity. exact R1_neq_R0.
Defined.

(** ** The colours of the mesh *)

Lemma intensity_finite (x y time : R) (sources : list WaveSource.t) :
  Forall finite_source sources ->
  exists i : R,
    (calculateInterference (Fin x) (Fin y) sources (Fin time))
      .(Interference.intensity) = Fin i
    /\ (0 <= i)%R.
Proof.
  intros Hfin. rewrite calculateInterference_sums.
  destruct (finite_sums x y time sources Hfin 0) as ((s & Hs) & (c & Hc)).
  rewrite Hs, Hc. cbn [Interference.intensity Js.mul Js.add].
  destruct (1 <? List.length sources)%nat; eexists; (split; [reflexivity |]).
  - apply Rplus_le_le_0_compat; apply Rle_0_sqr.
  - apply Rle_0_sqr.
Qed.

(** The first pass only appends to [intensities]. *)
Lemma meshIntensities_prefix (sources : list WaveSource.t) (time : num)
    (vertices : list (num * num)) :
  forall (intensities : list num) (maxIntensity : num),
    exists rest : list num,
      fst (fold_left
             (fun '(intensities, maxIntensity) '(x, y) =>
                let result := calculateInterference x y sources time in
                (intensities ++ [result.(Interference.intensity)],
                 Math.max maxIntensity result.(Interference.intensity)))
             vertices (intensities, maxIntensity))
      = (intensities ++ rest)%list.
Proof.
  induction vertices as [| [vx vy] vertices IH]; intros intensities maxIntensity.
  - exists []. cbn [fold_left fst]. now rewrite app_nil_r.
  - cbn [fold_left].
    destruct (IH (intensities
                  ++ [(calculateInterference vx vy sources time)
                        .(Interference.intensity)])%list
                 (Math.max maxIntensity
                    (calculateInterference vx vy sources time)
                      .(Interference.intensity))) as (rest & Hrest).
    eexists. etransitivity; [exact Hrest |].
    rewrite <- app_assoc. reflexivity.
Qed.

(** The first pass: every stored intensity is a finite number between [0]
    and the final [maxIntensity], which is one of them unless it still has
    its start value. *)
Lemma meshIntensities_loop (sources : list WaveSource.t) (time : R)
    (vertices : list (num * num)) :
  Forall finite_source sources ->
  Forall finite_vertex vertices ->
  forall (intensities : list num) (m0 : R),
    Forall (fun n => exists i : R, n = Fin i /\ (0 <= i <= m0)%R) intensities ->
    exists (all : list num) (m : R),
      fold_left
        (fun '(intensities, maxIntensity) '(x, y) =>
           let result := calculateInterference x y sources (Fin time) in
           (intensities ++ [result.(Interference.intensity)],
            Math.max maxIntensity result.(Interference.intensity)))
        vertices (intensities, Fin m0)
      = (all, Fin m)
      /\ (m0 <= m)%R
      /\ Forall (fun n => exists i : R, n = Fin i /\ (0 <= i <= m)%R) all
      /\ List.length all = (List.length intensities + List.length vertices)%nat
      /\ (m = m0 \/ In (Fin m) all).
Proof.
  intros Hfin. induction 1 as [| vertex vertices Hv _ IH];
    intros intensities m0 Hacc.
  - exists intensities, m0. cbn [fold_left List.length].
    repeat split; [lra | exact Hacc | lia | now left].
  - destruct Hv as (vx & vy & ->). cbn [fold_left].
    destruct (intensity_finite vx vy time sources Hfin) as (i & Hi & Hi0).
    rewrite Hi. cbn [Math.max Js.ltb].
    assert (Hold : forall m' : R,
               (m0 <= m')%R ->
               Forall (fun n => exists j : R, n = Fin j /\ (0 <= j <= m')%R)
                      intensities).
    { intros m' Hm'. eapply Forall_impl; [| exact Hacc].
      cbn beta. intros n (j & -> & Hj). exists j. split; [reflexivity | lra]. }
    destruct (Rltb m0 i) eqn:Hlt.
    + apply Rltb_elim in Hlt.
      destruct (IH (intensities ++ [Fin i])%list i)
        as (all & m & Hfold & Hm & Hall & Hlen & Hmax).
      { apply Forall_app. split; [apply Hold; lra |].
        constructor; [| constructor]. exists i. split; [reflexivity | lra]. }
      exists all, m. split; [exact Hfold |].
      repeat split; try assumption; try lra.
      * rewrite Hlen, length_app. cbn [List.length]. lia.
      * right. destruct Hmax as [-> | Hin]; [| exact Hin].
        destruct (meshIntensities_prefix sources (Fin time) vertices
                    (intensities ++ [Fin i])%list (Fin i)) as (rest & Hrest).
        change (fst (fold_left
                       (fun '(intensities, maxIntensity) '(x, y) =>
                          let result :=
                            calculateInterference x y sources (Fin time) in
                          (intensities ++ [result.(Interference.intensity)],
                           Math.max maxIntensity
                                    result.(Interference.intensity)))
                       vertices ((intensities ++ [Fin i])%list, Fin i))
                = ((intensities ++ [Fin i]) ++ rest)%list) in Hrest.
        rewrite Hfold in Hrest. cbn [fst] in Hrest. subst all.
        apply in_or_app. left. apply in_or_app. right. now left.
    + apply Rltb_elim_false in Hlt.
      destruct (IH (intensities ++ [Fin i])%list m0)
        as (all & m & Hfold & Hm & Hall & Hlen & Hmax).
      { apply Forall_app. split; [apply Hold; lra |].
        constructor; [| constructor]. exists i. split; [reflexivity | lra]. }
      exists all, m. split; [exact Hfold |].
      repeat split; try assumption.
      rewrite Hlen, length_app. cbn [List.length]. lia.
Qed.

(** X30.  The second pass of the mesh effect, for vertices with finite
    coordinates and sources of the data model: there is one normalised
    intensity per vertex, each lies in [[0, 1]] and gives a brightness in
    [[0.3, 1]]; and unless every intensity is zero, some vertex has the
    normalised intensity [1]. *)
Theorem meshNormalized_range (vertices : list (num * num))
    (sources : list WaveSource.t) (time : R) :
  Forall finite_vertex vertices ->
  Forall finite_source sources ->
  List.length (meshNormalized vertices sources (Fin time))
  = List.length vertices
  /\ Forall shade_in_range (meshNormalized vertices sources (Fin time))
  /\ ((snd (meshIntensities vertices sources (Fin time)) >? Fin 0) = true ->
      In (Fin 1) (meshNormalized vertices sources (Fin time))).
Proof.
  intros Hv Hfin.
  destruct (meshIntensities_loop sources time vertices Hfin Hv [] 0
              (Forall_nil _))
    as (all & m & Hfold & Hm & Hall & Hlen & Hmax).
  change (meshIntensities vertices sources (Fin time) = (all, Fin m)) in Hfold.
  unfold meshNormalized. rewrite Hfold. cbn [snd]. split; [| split].
  - rewrite length_map. exact Hlen.
  - apply Forall_map. eapply Forall_impl; [| exact Hall].
    cbn beta. intros n (i & -> & Hi).
    unfold shade_in_range, normalizedIntensity. cbn [Js.gtb Js.ltb].
    destruct (Rltb 0 m) eqn:Hpos.
    + apply Rltb_elim in Hpos. rewrite div_Fin by lra.
      assert (Hr : (0 <= i / m <= 1)%R).
      { split.
        - apply Rmult_le_pos; [lra | apply Rlt_le, Rinv_0_lt_compat; lra].
        - apply Rmult_le_reg_r with m; [lra |].
          unfold Rdiv. rewrite Rmult_assoc, Rinv_l by lra. lra. }
      exists (i / m)%R, (0.3 + i / m * 0.7)%R.
      repeat split; try lra.
    + exists 0%R, (0.3 + 0 * 0.7)%R. repeat split; lra.
  - cbn [Js.gtb Js.ltb]. intros Hpos.
    pose proof (Rltb_elim _ _ Hpos) as Hm0.
    destruct Hmax as [-> | Hin]; [lra |].
    apply in_map_iff. exists (Fin m). split; [| exact Hin].
    unfold normalizedIntensity. cbn [Js.gtb Js.ltb]. rewrite Hpos.
    rewrite div_Fin by lra. f_equal. field. lra.
Qed.

Lemma meshNormalized_range_witness :
  let vertices := [(Fin 0, Fin 0); (Fin 1, Fin 0.5)] in
  let sources :=
    [WaveSource.mk (Vec2.mk (Fin 1) (Fin 0)) (Fin 1) (Fin 1) (Fin 1) None] in
  List.length (meshNormalized vertices sources (Fin 0)) = List.length vertices
  /\ Forall shade_in_range (meshNormalized vertices sources (Fin 0))
  /\ ((snd (meshIntensities vertices sources (Fin 0)) >? Fin 0) = true ->
      In (Fin 1) (meshNormalized vertices sources (Fin 0))).
Proof.
  intros vertices sources.
  apply (meshNormalized_range vertices sources 0).
  - repeat constructor.
    + exists 0%R, 0%R. reflexivity.
    + exists 1%R, 0.5%R. reflexivity.
  - repeat constructor.
    exists 1%R, 0%R, 1%R, 1%R, 1%R, 0%R.
    repeat split; try reflexivity. exact R1_neq_R0.
Defined.

(** * Properties of the code with rounding

    ** Error bounds

    The rounding [fl] is any function with relative error at most [u], the
    standard model of floating-point arithmetic: for binary64 and rounding
    to nearest, [u = 2 ^ -53] as long as no result overflows or falls into
    the subnormal range. *)

Section RoundingError.

Variable fl : R -> R.
Variable u : R.
Hypothesis u_small : (0 <= u <= 1 / 1000)%R.
Hypothesis fl_error : forall x : R, (Rabs (fl x - x) <= u * Rabs x)%R.

Lemma fl_0 : fl 0 = 0%R.
Proof.
  pose proof (fl_error 0) as H. rewrite Rabs_R0, Rmult_0_r, Rminus_0_r in H.
  pose proof (Rabs_pos (fl 0)) as H0.
  destruct (Req_dec (fl 0) 0) as [E | E]; [exact E |].
  apply Rabs_pos_lt in E. lra.
Qed.

(** A rounded value is the exact one times [1 + e] with [|e| <= u]. *)
Lemma fl_rel (x : R) : exists e : R, fl x = (x * (1 + e))%R /\ (Rabs e <= u)%R.
Proof.
  destruct (Req_dec x 0) as [-> | Hx].
  - exists 0%R. rewrite fl_0, Rabs_R0. split; [ring | lra].
  - exists ((fl x - x) / x)%R. split; [field; exact Hx |].
    unfold Rdiv. rewrite Rabs_mult, Rabs_inv.
    apply Rmult_le_reg_r with (Rabs x); [now apply Rabs_pos_lt |].
    rewrite Rmult_assoc, Rinv_l by (now apply Rabs_no_R0).
    rewrite Rmult_1_r. apply fl_error.
Qed.

Lemma fl_nonzero (x : R) : x <> 0%R -> fl x <> 0%R.
Proof.
  intros Hx. destruct (fl_rel x) as (e & -> & He).
  apply Rabs_bounds in He.
  apply Rmult_integral_contrapositive_currified; lra.
Qed.


Lemma fl_pos (x : R) : (0 < x)%R -> (0 < fl x)%R.
Proof.
  intros Hx. destruct (fl_rel x) as (e & -> & He).
  apply Rabs_bounds in He. apply Rmult_lt_0_compat; lra.
Qed.

Local Abbreviation near := (Rounded.near u).

Lemma pow_1u_ge_1 (k : nat) : (1 <= (1 + u) ^ k)%R.
Proof. apply pow_R1_Rle. lra. Qed.

Lemma near_rel (e : R) : (Rabs e <= u)%R -> near 1 (1 + e).
Proof.
  intros He. unfold Rounded.near. replace (1 + e - 1)%R with e by ring.
  simpl. lra.
Qed.

Lemma near_mul (a b : nat) (s t : R) :
  near a s -> near b t -> near (a + b) (s * t).
Proof.
  unfold Rounded.near. intros Hs Ht. rewrite pow_add.
  pose proof (pow_1u_ge_1 a) as Ha. pose proof (pow_1u_ge_1 b) as Hb.
  replace (s * t - 1)%R with ((s - 1) * (t - 1) + (s - 1) + (t - 1))%R by ring.
  eapply Rle_trans; [apply Rabs_triang |].
  eapply Rle_trans; [apply Rplus_le_compat_r, Rabs_triang |].
  rewrite Rabs_mult.
  pose proof (Rabs_pos (s - 1)) as Hs0. pose proof (Rabs_pos (t - 1)) as Ht0.
  assert (Hprod : (Rabs (s - 1) * Rabs (t - 1)
                   <= ((1 + u) ^ a - 1) * ((1 + u) ^ b - 1))%R)
    by (apply Rmult_le_compat; assumption).
  lra.
Qed.

Lemma near_inv (t : R) : near 1 t -> near 2 (/ t).
Proof.
  unfold Rounded.near. simpl. rewrite !Rmult_1_r. intros Ht.
  apply Rabs_bounds in Ht.
  assert (Hpos : (0 < t)%R) by lra.
  replace (/ t - 1)%R with ((1 - t) / t)%R by (field; lra).
  apply Rabs_le. split.
  - apply Rmult_le_reg_r with t; [exact Hpos |].
    unfold Rdiv. rewrite Rmult_assoc, Rinv_l by lra. nra.
  - apply Rmult_le_reg_r with t; [exact Hpos |].
    unfold Rdiv. rewrite Rmult_assoc, Rinv_l by lra. nra.
Qed.

Lemma near_weaken (a b : nat) (t : R) : (a <= b)%nat -> near a t -> near b t.
Proof.
  unfold Rounded.near. intros Hab Ht.
  eapply Rle_trans; [exact Ht |].
  apply Rplus_le_compat_r. apply Rle_pow; [lra | exact Hab].
Qed.

Lemma near_1 (k : nat) : near k 1.
Proof.
  unfold Rounded.near. replace (1 - 1)%R with 0%R by ring. rewrite Rabs_R0.
  pose proof (pow_1u_ge_1 k). lra.
Qed.

(** For the few factors that occur here the bound is almost linear. *)
Lemma pow_1u_bound (k : nat) :
  (k <= 16)%nat -> ((1 + u) ^ k - 1 <= (INR k + INR k / 50) * u)%R.
Proof.
  induction k as [| k IH]; intros Hk.
  - simpl. lra.
  - assert (Hk' : (k <= 16)%nat) by lia. specialize (IH Hk').
    assert (HkR : (0 <= INR k <= 16)%R).
    { split; [apply pos_INR |]. apply le_INR in Hk'. simpl in Hk'. lra. }
    rewrite S_INR. change ((1 + u) ^ S k)%R with ((1 + u) * (1 + u) ^ k)%R.
    nra.
Qed.

Lemma near_bound (k : nat) (t : R) :
  (k <= 16)%nat -> near k t -> (Rabs (t - 1) <= (INR k + INR k / 50) * u)%R.
Proof.
  intros Hk Ht. eapply Rle_trans; [exact Ht | now apply pow_1u_bound].
Qed.

(** [fl] of a product of an exact value and a factor. *)
Lemma fl_near (k : nat) (x t : R) :
  near k t -> exists t' : R, fl (x * t) = (x * t')%R /\ near (S k) t'.
Proof.
  intros Ht. destruct (fl_rel (x * t)) as (e & -> & He).
  exists (t * (1 + e))%R. split; [ring |].
  replace (S k) with (k + 1)%nat by lia.
  apply near_mul; [exact Ht | now apply near_rel].
Qed.

(** Multiplying and dividing by the same number gives the first factor
    back up to two roundings. *)
Lemma fl_mul_div (a b : R) :
  b <> 0%R ->
  (Rabs (fl (fl (a * b) / b) - a) <= (2 * u + u * u) * Rabs a)%R.
Proof.
  intros Hb.
  destruct (fl_rel (a * b)) as (e1 & -> & He1).
  replace (a * b * (1 + e1) / b)%R with (a * (1 + e1))%R by (field; exact Hb).
  destruct (fl_rel (a * (1 + e1))) as (e2 & -> & He2).
  replace (a * (1 + e1) * (1 + e2) - a)%R with (a * (e1 + e2 + e1 * e2))%R by ring.
  rewrite Rabs_mult, Rmult_comm.
  apply Rmult_le_compat_r; [apply Rabs_pos |].
  apply Rabs_bounds in He1. apply Rabs_bounds in He2.
  apply Rabs_le. nra.
Qed.

(** X10.  Speed, frequency and wavelength round trips in rounded
    arithmetic: from the speed [waveSpeed (f, lambda)] the wavelength gives
    back the frequency when [lambda <> 0], and the frequency gives back the
    wavelength when [f <> 0], each within the relative error [2 u + u^2] of
    two roundings, where [u] bounds the relative error of one. *)
Theorem wave_speed_round_trip_rounded (f lambda : R) :
  (lambda <> 0%R ->
   exists f' : R,
     Rounded.waveFrequency fl
       (Rounded.waveSpeed fl (Fin f) (Fin lambda)) (Fin lambda) = Fin f'
     /\ (Rabs (f' - f) <= (2 * u + u * u) * Rabs f)%R)
  /\ (f <> 0%R ->
      exists lambda' : R,
        Rounded.waveWavelength fl
          (Rounded.waveSpeed fl (Fin f) (Fin lambda)) (Fin f) = Fin lambda'
        /\ (Rabs (lambda' - lambda) <= (2 * u + u * u) * Rabs lambda)%R).
Proof.
  unfold Rounded.waveFrequency, Rounded.waveWavelength, Rounded.waveSpeed,
    Rounded.div, Rounded.mul.
  cbn [Js.mul Rounded.rnd]. split.
  - intros Hl. rewrite div_Fin by exact Hl. cbn [Rounded.rnd].
    eexists. split; [reflexivity |]. now apply fl_mul_div.
  - intros Hf. rewrite div_Fin by exact Hf. cbn [Rounded.rnd].
    eexists. split; [reflexivity |].
    rewrite (Rmult_comm f lambda). now apply fl_mul_div.
Qed.


(** Below the speed of light, by more than two roundings, the rounded
    Lorentz factor is a finite positive number. *)
Lemma gamma_rounded_finite (v c : R) :
  c <> 0%R -> (Rabs (v / c) < 1 - 2 * u)%R ->
  exists g : R, Rounded.gamma fl (Fin v) (Some (Fin c)) = Fin g /\ (0 < g)%R.
Proof.
  intros Hc Hv.
  unfold Rounded.gamma, Rounded.div, Rounded.mul, Rounded.sub, Rounded.sqrt,
    Rounded.lit.
  rewrite div_Fin by exact Hc. cbn [Rounded.rnd Js.mul Js.sub Js.add Js.neg].
  set (beta := fl (v / c)).
  set (b := fl (beta * beta)).
  assert (Hone : (1 - u <= fl 1)%R).
  { destruct (fl_rel 1) as (e & -> & He). apply Rabs_bounds in He. lra. }
  assert (Hb : (b < 1 - u)%R).
  { assert (Hbeta : (Rabs beta <= Rabs (v / c) * (1 + u))%R).
    { unfold beta. destruct (fl_rel (v / c)) as (e & -> & He).
      rewrite Rabs_mult. apply Rmult_le_compat_l; [apply Rabs_pos |].
      apply Rabs_bounds in He. apply Rabs_le. lra. }
    pose proof (Rabs_pos (v / c)) as Hv0. pose proof (Rabs_pos beta) as Hbeta0.
    assert (Hbeta1 : (Rabs beta < 1 - u)%R) by nra.
    assert (Hsq : (beta * beta = Rabs beta * Rabs beta)%R).
    { unfold Rabs. destruct (Rcase_abs beta); ring. }
    unfold b. destruct (fl_rel (beta * beta)) as (e & -> & He).
    apply Rabs_bounds in He. rewrite Hsq. nra. }
  assert (Hd : (0 < fl 1 + - b)%R) by lra.
  apply fl_pos in Hd.
  unfold Math.sqrt. rewrite Rltb_false by lra. cbn [Rounded.rnd].
  assert (Hs : (0 < fl (sqrt (fl (fl 1 + - b))))%R)
    by (apply fl_pos, sqrt_lt_R0; exact Hd).
  rewrite div_Fin by lra. cbn [Rounded.rnd].
  eexists. split; [reflexivity |].
  apply fl_pos. apply Rdiv_lt_0_compat; lra.
Qed.

(** X2.  Below the speed of light, by more than two roundings, contracting
    a dilated interval gives the interval back within the relative error
    [2 u + u^2] of two roundings: [lengthContraction (timeDilation (x, v, c),
    v, c)] is [x] up to that error. *)
Theorem dilation_contraction_round_trip_rounded (x v c : R) :
  c <> 0%R -> (Rabs (v / c) < 1 - 2 * u)%R ->
  exists dilated back : R,
    Rounded.timeDilation fl (Fin x) (Fin v) (Some (Fin c)) = Fin dilated
    /\ Rounded.lengthContraction fl (Fin dilated) (Fin v) (Some (Fin c))
       = Fin back
    /\ (Rabs (back - x) <= (2 * u + u * u) * Rabs x)%R.
Proof.
  intros Hc Hv.
  destruct (gamma_rounded_finite v c Hc Hv) as (g & Hg & Hg0).
  exists (fl (g * x)), (fl (fl (g * x) / g)).
  unfold Rounded.timeDilation, Rounded.lengthContraction.
  rewrite Hg. unfold Rounded.mul, Rounded.div. cbn [Js.mul Rounded.rnd].
  rewrite div_Fin by lra. cbn [Rounded.rnd].
  split; [reflexivity |]. split; [reflexivity |].
  rewrite (Rmult_comm g x). apply fl_mul_div. lra.
Qed.


Lemma near_error (k : nat) (c t ref : R) :
  (k <= 16)%nat -> near k t -> (INR k + INR k / 50 <= c)%R ->
  (Rabs (ref * t - ref) <= c * u * Rabs ref)%R.
Proof.
  intros Hk Ht Hc. apply (near_bound k t Hk) in Ht.
  replace (ref * t - ref)%R with (ref * (t - 1))%R by ring.
  rewrite Rabs_mult, (Rmult_comm (Rabs ref)).
  apply Rmult_le_compat_r; [apply Rabs_pos |].
  eapply Rle_trans; [exact Ht |].
  apply Rmult_le_compat_r; lra.
Qed.

(** What the Coulomb formulas return, as the exact value times an error
    factor. *)
Lemma coulombForce_rounded (q1 q2 d : R) :
  d <> 0%R ->
  exists t : R,
    Rounded.coulombForce fl (Fin q1) (Fin q2) (Fin d)
    = Fin (8.99e9 * q1 * q2 / (d * d) * t)
    /\ near 6 t.
Proof.
  intros Hd.
  unfold Rounded.coulombForce, Rounded.div, Rounded.mul, Rounded.lit.
  cbn [Js.mul Rounded.rnd].
  destruct (fl_rel 8.99e9) as (e0 & -> & He0).
  destruct (fl_rel (8.99e9 * (1 + e0) * q1)) as (e1 & -> & He1).
  destruct (fl_rel (8.99e9 * (1 + e0) * q1 * (1 + e1) * q2)) as (e2 & -> & He2).
  destruct (fl_rel (d * d)) as (e3 & -> & He3).
  pose proof (near_rel e3 He3) as Hn3. pose proof (near_inv _ Hn3) as Hi3.
  assert (H3 : (1 + e3 <> 0)%R) by (apply Rabs_bounds in He3; lra).
  rewrite div_Fin by (apply Rmult_integral_contrapositive_currified;
                      [nra | exact H3]).
  cbn [Rounded.rnd].
  destruct (fl_rel (8.99e9 * (1 + e0) * q1 * (1 + e1) * q2 * (1 + e2)
                    / (d * d * (1 + e3)))) as (e4 & -> & He4).
  exists ((1 + e0) * (1 + e1) * (1 + e2) * / (1 + e3) * (1 + e4))%R. split.
  - f_equal. field. split; [exact H3 | exact Hd].
  - change 6%nat with (1 + 1 + 1 + 2 + 1)%nat.
    repeat apply near_mul; try (now apply near_rel); exact Hi3.
Qed.

Lemma electricField_rounded (q d : R) :
  d <> 0%R ->
  exists t : R,
    Rounded.electricField fl (Fin q) (Fin d)
    = Fin (8.99e9 * q / (d * d) * t)
    /\ near 5 t.
Proof.
  intros Hd.
  unfold Rounded.electricField, Rounded.div, Rounded.mul, Rounded.lit.
  cbn [Js.mul Rounded.rnd].
  destruct (fl_rel 8.99e9) as (e0 & -> & He0).
  destruct (fl_rel (8.99e9 * (1 + e0) * q)) as (e1 & -> & He1).
  destruct (fl_rel (d * d)) as (e3 & -> & He3).
  pose proof (near_rel e3 He3) as Hn3. pose proof (near_inv _ Hn3) as Hi3.
  assert (H3 : (1 + e3 <> 0)%R) by (apply Rabs_bounds in He3; lra).
  rewrite div_Fin by (apply Rmult_integral_contrapositive_currified;
                      [nra | exact H3]).
  cbn [Rounded.rnd].
  destruct (fl_rel (8.99e9 * (1 + e0) * q * (1 + e1) / (d * d * (1 + e3))))
    as (e4 & -> & He4).
  exists ((1 + e0) * (1 + e1) * / (1 + e3) * (1 + e4))%R. split.
  - f_equal. field. split; [exact H3 | exact Hd].
  - change 5%nat with (1 + 1 + 2 + 1)%nat.
    repeat apply near_mul; try (now apply near_rel); exact Hi3.
Qed.

(** X9.  At a finite distance that is not zero, in rounded arithmetic,
    [coulombForce] agrees with Coulomb's law [k q1 q2 / d^2] within the
    relative error [8 u], with the charges in either order, and so does
    [q1] times [electricField (q2, d)]; [u] bounds the relative error of
    one rounding. *)
Theorem coulomb_force_field_rounded (q1 q2 d : R) :
  d <> 0%R ->
  let law := (8.99e9 * q1 * q2 / (d * d))%R in
  exists F12 F21 E2 : R,
    Rounded.coulombForce fl (Fin q1) (Fin q2) (Fin d) = Fin F12
    /\ Rounded.coulombForce fl (Fin q2) (Fin q1) (Fin d) = Fin F21
    /\ Rounded.electricField fl (Fin q2) (Fin d) = Fin E2
    /\ (Rabs (F12 - law) <= 8 * u * Rabs law)%R
    /\ (Rabs (F21 - law) <= 8 * u * Rabs law)%R
    /\ (Rabs (q1 * E2 - law) <= 8 * u * Rabs law)%R.
Proof.
  intros Hd law.
  destruct (coulombForce_rounded q1 q2 d Hd) as (t12 & H12 & Ht12).
  destruct (coulombForce_rounded q2 q1 d Hd) as (t21 & H21 & Ht21).
  destruct (electricField_rounded q2 d Hd) as (t2 & H2 & Ht2).
  do 3 eexists.
  split; [exact H12 |]. split; [exact H21 |]. split; [exact H2 |].
  fold law.
  replace (8.99e9 * q2 * q1 / (d * d))%R with law by (unfold law; field; exact Hd).
  replace (q1 * (8.99e9 * q2 / (d * d) * t2))%R with (law * t2)%R
    by (unfold law; field; exact Hd).
  split; [| split].
  - apply (near_error 6); [lia | exact Ht12 | simpl; lra].
  - apply (near_error 6); [lia | exact Ht21 | simpl; lra].
  - apply (near_error 5); [lia | exact Ht2 | simpl; lra].
Qed.

(** ** Collision response *)

Lemma zero_velocity_rounded : Rounded.zero_velocity fl = zero_velocity.
Proof. unfold Rounded.zero_velocity, Rounded.lit. now rewrite fl_0. Qed.

Lemma mass_rounded_nonzero (mass : option num) (m : R) :
  mass ||| Rounded.lit fl 1 = Fin m -> m <> 0%R.
Proof.
  unfold Js.or_num, Rounded.lit. destruct mass as [[r | | |] |]; cbn [Js.truthy].
  - unfold Reqb. destruct (Req_dec_T r 0); cbn [negb].
    + intros [= <-]. apply fl_nonzero. lra.
    + now intros [= <-].
  - discriminate.
  - discriminate.
  - intros [= <-]. apply fl_nonzero. lra.
  - intros [= <-]. apply fl_nonzero. lra.
Qed.

Lemma near_half (e : R) : (Rabs e <= u)%R -> near 1 (1 + e / 2).
Proof.
  intros He. apply near_rel. apply Rabs_bounds in He. apply Rabs_le. lra.
Qed.

(** The computed [velAlongNormal]: each term of the scalar product carries
    at most four roundings. *)
Lemma velAlongNormal_rounded (obj1 obj2 : Body.t) (collision : Collision.t)
    (x1 y1 z1 x2 y2 z2 nx ny nz : R) :
  finite_vec (velocityOf obj1) x1 y1 z1 ->
  finite_vec (velocityOf obj2) x2 y2 z2 ->
  collision.(Collision.normal) = Vector3.mk (Fin nx) (Fin ny) (Fin nz) ->
  exists sx sy sz : R,
    Rounded.velAlongNormal fl obj1 obj2 collision
    = Fin ((x2 - x1) * nx * sx + (y2 - y1) * ny * sy + (z2 - z1) * nz * sz)
    /\ near 4 sx /\ near 4 sy /\ near 4 sz.
Proof.
  intros (Hx1 & Hy1 & Hz1) (Hx2 & Hy2 & Hz2) Hn.
  unfold Rounded.velAlongNormal. rewrite zero_velocity_rounded, Hn.
  fold (velocityOf obj1) (velocityOf obj2).
  unfold Rounded.lit at 1 2. rewrite fl_0.
  rewrite Hx1, Hy1, Hz1, Hx2, Hy2, Hz2.
  unfold Rounded.add, Rounded.sub, Rounded.mul.
  cbn [Vector3.x Vector3.y Vector3.z Js.sub Js.add Js.neg Js.mul Rounded.rnd].
  destruct (fl_rel (x2 + - x1)) as (dx & -> & Hdx).
  destruct (fl_rel (y2 + - y1)) as (dy & -> & Hdy).
  destruct (fl_rel (z2 + - z1)) as (dz & -> & Hdz).
  destruct (fl_rel ((x2 + - x1) * (1 + dx) * nx)) as (px & -> & Hpx).
  destruct (fl_rel ((y2 + - y1) * (1 + dy) * ny)) as (py & -> & Hpy).
  destruct (fl_rel ((z2 + - z1) * (1 + dz) * nz)) as (pz & -> & Hpz).
  destruct (fl_rel ((x2 + - x1) * (1 + dx) * nx * (1 + px)
                    + (y2 + - y1) * (1 + dy) * ny * (1 + py)))
    as (s1 & -> & Hs1).
  destruct (fl_rel (((x2 + - x1) * (1 + dx) * nx * (1 + px)
                     + (y2 + - y1) * (1 + dy) * ny * (1 + py)) * (1 + s1)
                    + (z2 + - z1) * (1 + dz) * nz * (1 + pz)))
    as (s2 & -> & Hs2).
  exists ((1 + dx) * (1 + px) * (1 + s1) * (1 + s2))%R,
         ((1 + dy) * (1 + py) * (1 + s1) * (1 + s2))%R,
         ((1 + dz) * (1 + pz) * (1 + s2))%R.
  split; [f_equal; ring |].
  split; [| split].
  - change 4%nat with (1 + 1 + 1 + 1)%nat.
    repeat apply near_mul; now apply near_rel.
  - change 4%nat with (1 + 1 + 1 + 1)%nat.
    repeat apply near_mul; now apply near_rel.
  - apply (near_weaken 3 4); [lia |].
    change 3%nat with (1 + 1 + 1)%nat.
    repeat apply near_mul; now apply near_rel.
Qed.

(** The impulse scalar [j] for equal masses and restitution [1]. *)
Lemma impulse_rounded (m W : R) :
  m <> 0%R ->
  exists tj : R,
    fl (fl (- fl (fl 1 + 1) * W) / fl (fl (fl 1 / m) + fl (fl 1 / m)))
    = (- (W * m * tj))%R
    /\ near 10 tj
    /\ fl (fl (fl 1 / m) + fl (fl 1 / m)) <> 0%R.
Proof.
  intros Hm.
  destruct (fl_rel 1) as (e0 & -> & He0). rewrite Rmult_1_l.
  replace (1 + e0 + 1)%R with (2 * (1 + e0 / 2))%R by field.
  destruct (fl_rel (2 * (1 + e0 / 2))) as (e1 & -> & He1).
  destruct (fl_rel (- (2 * (1 + e0 / 2) * (1 + e1)) * W)) as (e2 & -> & He2).
  destruct (fl_rel ((1 + e0) / m)) as (e3 & -> & He3).
  replace ((1 + e0) / m * (1 + e3) + (1 + e0) / m * (1 + e3))%R
    with (2 * ((1 + e0) * (1 + e3)) / m)%R by (field; exact Hm).
  destruct (fl_rel (2 * ((1 + e0) * (1 + e3)) / m)) as (e4 & -> & He4).
  pose proof (near_rel e0 He0) as N0. pose proof (near_rel e3 He3) as N3.
  pose proof (near_rel e4 He4) as N4.
  assert (P0 : (1 + e0 <> 0)%R) by (apply Rabs_bounds in He0; lra).
  assert (P3 : (1 + e3 <> 0)%R) by (apply Rabs_bounds in He3; lra).
  assert (P4 : (1 + e4 <> 0)%R) by (apply Rabs_bounds in He4; lra).
  assert (Hden : (2 * ((1 + e0) * (1 + e3)) / m * (1 + e4) <> 0)%R).
  { unfold Rdiv. repeat apply Rmult_integral_contrapositive_currified;
      try assumption; try lra. now apply Rinv_neq_0_compat. }
  destruct (fl_rel (- (2 * (1 + e0 / 2) * (1 + e1)) * W * (1 + e2)
                    / (2 * ((1 + e0) * (1 + e3)) / m * (1 + e4))))
    as (e5 & -> & He5).
  exists ((1 + e0 / 2) * (1 + e1) * (1 + e2) * (1 + e5)
          * / (1 + e0) * / (1 + e3) * / (1 + e4))%R.
  split; [field; repeat split; assumption |].
  split; [| exact Hden].
  change 10%nat with (1 + 1 + 1 + 1 + 2 + 2 + 2)%nat.
  repeat apply near_mul;
    try (now apply near_rel); try (now apply near_half);
    now apply near_inv.
Qed.

(** One component of [impulse / m]. *)
Lemma impulse_component_rounded (J m W n tj : R) :
  m <> 0%R -> J = (- (W * m * tj))%R -> near 10 tj ->
  exists t : R, fl (fl (J * n) / m) = (- (W * n * t))%R /\ near 12 t.
Proof.
  intros Hm -> Hj.
  destruct (fl_rel (- (W * m * tj) * n)) as (e6 & -> & He6).
  destruct (fl_rel (- (W * m * tj) * n * (1 + e6) / m)) as (e7 & -> & He7).
  exists (tj * (1 + e6) * (1 + e7))%R. split; [field; exact Hm |].
  change 12%nat with (10 + 1 + 1)%nat.
  repeat apply near_mul; try assumption; now apply near_rel.
Qed.

(** The velocities that [resolveCollision] returns for approaching bodies
    of equal mass and restitution [1], written with the rounding errors of
    the single operations: [W] is the computed [velAlongNormal], and the
    same impulse component, with the same error factor, is subtracted from
    one velocity and added to the other. *)
Lemma resolveCollision_rounded_shape (obj1 obj2 : Body.t)
    (collision : Collision.t) (m x1 y1 z1 x2 y2 z2 nx ny nz : R) :
  collision.(Collision.isColliding) = true ->
  obj1.(Body.mass) ||| Rounded.lit fl 1 = Fin m ->
  obj2.(Body.mass) ||| Rounded.lit fl 1 = Fin m ->
  Rounded.restitutionOf fl obj1 obj2 = Fin 1 ->
  finite_vec (velocityOf obj1) x1 y1 z1 ->
  finite_vec (velocityOf obj2) x2 y2 z2 ->
  collision.(Collision.normal) = Vector3.mk (Fin nx) (Fin ny) (Fin nz) ->
  (Rounded.velAlongNormal fl obj1 obj2 collision <=? Fin 0) = true ->
  exists W sx sy sz tx ty tz cx1 cy1 cz1 cx2 cy2 cz2 : R,
    Rounded.resolveCollision fl obj1 obj2 collision
    = Velocities.mk
        (Vec.mk (Fin ((x1 + W * nx * tx) * (1 + cx1)))
                (Fin ((y1 + W * ny * ty) * (1 + cy1)))
                (Some (Fin ((z1 + W * nz * tz) * (1 + cz1)))))
        (Vec.mk (Fin ((x2 - W * nx * tx) * (1 + cx2)))
                (Fin ((y2 - W * ny * ty) * (1 + cy2)))
                (Some (Fin ((z2 - W * nz * tz) * (1 + cz2)))))
    /\ W = ((x2 - x1) * nx * sx + (y2 - y1) * ny * sy + (z2 - z1) * nz * sz)%R
    /\ (near 4 sx /\ near 4 sy /\ near 4 sz)
    /\ (near 12 tx /\ near 12 ty /\ near 12 tz)
    /\ (Rabs cx1 <= u /\ Rabs cy1 <= u /\ Rabs cz1 <= u)%R
    /\ (Rabs cx2 <= u /\ Rabs cy2 <= u /\ Rabs cz2 <= u)%R.
Proof.
  intros Hcol Hm1 Hm2 He (Hx1 & Hy1 & Hz1) (Hx2 & Hy2 & Hz2) Hn HV.
  pose proof (mass_rounded_nonzero _ _ Hm1) as Hm.
  destruct (velAlongNormal_rounded obj1 obj2 collision x1 y1 z1 x2 y2 z2
              nx ny nz (conj Hx1 (conj Hy1 Hz1)) (conj Hx2 (conj Hy2 Hz2)) Hn)
    as (sx & sy & sz & HW & Hsx & Hsy & Hsz).
  set (W := ((x2 - x1) * nx * sx + (y2 - y1) * ny * sy
             + (z2 - z1) * nz * sz)%R) in *.
  destruct (impulse_rounded m W Hm) as (tj & HJ & Htj & Hden).
  set (J := fl (fl (- fl (fl 1 + 1) * W)
                / fl (fl (fl 1 / m) + fl (fl 1 / m)))) in *.
  destruct (impulse_component_rounded J m W nx tj Hm HJ Htj) as (tx & Hpx & Htx).
  destruct (impulse_component_rounded J m W ny tj Hm HJ Htj) as (ty & Hpy & Hty).
  destruct (impulse_component_rounded J m W nz tj Hm HJ Htj) as (tz & Hpz & Htz).
  destruct (fl_rel (x1 + W * nx * tx)) as (cx1 & Hcx1 & Bcx1).
  destruct (fl_rel (y1 + W * ny * ty)) as (cy1 & Hcy1 & Bcy1).
  destruct (fl_rel (z1 + W * nz * tz)) as (cz1 & Hcz1 & Bcz1).
  destruct (fl_rel (x2 - W * nx * tx)) as (cx2 & Hcx2 & Bcx2).
  destruct (fl_rel (y2 - W * ny * ty)) as (cy2 & Hcy2 & Bcy2).
  destruct (fl_rel (z2 - W * nz * tz)) as (cz2 & Hcz2 & Bcz2).
  exists W, sx, sy, sz, tx, ty, tz, cx1, cy1, cz1, cx2, cy2, cz2.
  split; [| repeat split; assumption].
  unfold Rounded.resolveCollision. rewrite Hcol. cbn [negb].
  fold (Rounded.velAlongNormal fl obj1 obj2 collision).
  fold (Rounded.restitutionOf fl obj1 obj2).
  rewrite HW in HV |- *. rewrite He, Hm1, Hm2, Hn, zero_velocity_rounded.
  fold (velocityOf obj1) (velocityOf obj2).
  unfold Rounded.lit at 1. rewrite fl_0.
  cbn [Js.leb] in HV. apply Rleb_elim in HV.
  cbn [Js.gtb Js.ltb]. rewrite Rltb_false by exact HV.
  replace (Rounded.lit fl 0) with (Fin 0) by (unfold Rounded.lit; now rewrite fl_0).
  rewrite Hx1, Hy1, Hz1, Hx2, Hy2, Hz2.
  unfold Rounded.add, Rounded.sub, Rounded.mul, Rounded.div, Rounded.lit.
  rewrite (div_Fin (fl 1) m) by exact Hm.
  cbn [Vector3.x Vector3.y Vector3.z Js.sub Js.add Js.neg Js.mul Rounded.rnd].
  rewrite (div_Fin _ (fl (fl (fl 1 / m) + fl (fl 1 / m)))) by exact Hden.
  cbn [Rounded.rnd Js.mul]. fold J.
  rewrite !(div_Fin _ m) by exact Hm.
  cbn [Rounded.rnd Js.add Js.neg].
  rewrite Hpx, Hpy, Hpz.
  replace (x1 + - - (W * nx * tx))%R with (x1 + W * nx * tx)%R by ring.
  replace (y1 + - - (W * ny * ty))%R with (y1 + W * ny * ty)%R by ring.
  replace (z1 + - - (W * nz * tz))%R with (z1 + W * nz * tz)%R by ring.
  replace (x2 + - (W * nx * tx))%R with (x2 - W * nx * tx)%R by ring.
  replace (y2 + - (W * ny * ty))%R with (y2 - W * ny * ty)%R by ring.
  replace (z2 + - (W * nz * tz))%R with (z2 - W * nz * tz)%R by ring.
  rewrite Hcx1, Hcy1, Hcz1, Hcx2, Hcy2, Hcz2. reflexivity.
Qed.


(** From here on the errors are bounded by multiples of [u * S], where [S]
    is the sum of the magnitudes of the six velocity components. *)

Lemma Rabs_mult_le (a b A B : R) :
  (Rabs a <= A)%R -> (Rabs b <= B)%R -> (Rabs (a * b) <= A * B)%R.
Proof.
  intros Ha Hb. rewrite Rabs_mult.
  apply Rmult_le_compat; try apply Rabs_pos; assumption.
Qed.

Lemma Rabs_plus_le (a b A B : R) :
  (Rabs a <= A)%R -> (Rabs b <= B)%R -> (Rabs (a + b) <= A + B)%R.
Proof.
  intros Ha Hb. eapply Rle_trans; [apply Rabs_triang | lra].
Qed.

(** A normal whose squared length is within [8 u] of [1] has components
    of magnitude at most [1.004]. *)
Lemma normal_component (a b c : R) :
  (Rabs (a * a + b * b + c * c - 1) <= 8 * u)%R -> (Rabs a <= 251 / 250)%R.
Proof.
  intros H. apply Rabs_bounds in H.
  pose proof (Rle_0_sqr b) as Hb. pose proof (Rle_0_sqr c) as Hc.
  unfold Rsqr in Hb, Hc.
  apply Rabs_le. split; nra.
Qed.

Lemma component_error (x n W V t c S : R) :
  (Rabs x <= S)%R -> (Rabs n <= 251 / 250)%R ->
  (Rabs V <= 251 / 250 * S)%R -> (Rabs (W - V) <= 413 / 100 * (u * S))%R ->
  near 12 t -> (Rabs c <= u)%R ->
  (Rabs ((x + W * n * t) * (1 + c) - (x + V * n)) <= 19 * (u * S))%R.
Proof.
  intros Hx Hn HV HW Ht Hc.
  apply (near_bound 12 t) in Ht; [| lia]. simpl INR in Ht.
  assert (HS : (0 <= S)%R) by (pose proof (Rabs_pos x); lra).
  assert (HP : (0 <= u * S)%R) by (apply Rmult_le_pos; lra).
  set (P := (u * S)%R) in *.
  assert (Htau : (Rabs (t * (1 + c) - 1) <= 133 / 10 * u)%R).
  { apply Rabs_bounds in Ht. apply Rabs_bounds in Hc. apply Rabs_le. nra. }
  assert (HT : (Rabs (t * (1 + c)) <= 1014 / 1000)%R).
  { apply Rabs_bounds in Htau. apply Rabs_le. lra. }
  replace ((x + W * n * t) * (1 + c) - (x + V * n))%R
    with (x * c + n * ((W - V) * (t * (1 + c)) + V * (t * (1 + c) - 1)))%R
    by ring.
  pose proof (Rabs_mult_le _ _ _ _ Hx Hc) as H1.
  pose proof (Rabs_mult_le _ _ _ _ HW HT) as H2.
  pose proof (Rabs_mult_le _ _ _ _ HV Htau) as H3.
  pose proof (Rabs_plus_le _ _ _ _ H2 H3) as H4.
  pose proof (Rabs_mult_le _ _ _ _ Hn H4) as H5.
  pose proof (Rabs_plus_le _ _ _ _ H1 H5) as H6.
  eapply Rle_trans; [exact H6 |].
  replace (251 / 250 * S * (133 / 10 * u))%R with (251 / 250 * 133 / 10 * P)%R
    by (unfold P; field).
  replace (S * u)%R with P by (unfold P; ring).
  lra.
Qed.

(** The scalar product and its computed value. *)
Lemma velAlongNormal_error (x1 y1 z1 x2 y2 z2 nx ny nz sx sy sz : R) :
  (Rabs nx <= 251 / 250)%R -> (Rabs ny <= 251 / 250)%R ->
  (Rabs nz <= 251 / 250)%R ->
  near 4 sx -> near 4 sy -> near 4 sz ->
  let S := (Rabs x1 + Rabs y1 + Rabs z1 + Rabs x2 + Rabs y2 + Rabs z2)%R in
  let V := ((x2 - x1) * nx + (y2 - y1) * ny + (z2 - z1) * nz)%R in
  let W := ((x2 - x1) * nx * sx + (y2 - y1) * ny * sy
            + (z2 - z1) * nz * sz)%R in
  (Rabs V <= 251 / 250 * S)%R /\ (Rabs (W - V) <= 413 / 100 * (u * S))%R.
Proof.
  intros Hnx Hny Hnz Hsx Hsy Hsz S V W.
  apply (near_bound 4 sx) in Hsx; [| lia].
  apply (near_bound 4 sy) in Hsy; [| lia].
  apply (near_bound 4 sz) in Hsz; [| lia].
  simpl INR in Hsx, Hsy, Hsz.
  assert (Hd : forall a b : R, (Rabs (b - a) <= Rabs a + Rabs b)%R).
  { intros a b. unfold Rminus. eapply Rle_trans; [apply Rabs_triang |].
    rewrite Rabs_Ropp. lra. }
  pose proof (Rabs_mult_le _ _ _ _ (Hd x1 x2) Hnx) as HX.
  pose proof (Rabs_mult_le _ _ _ _ (Hd y1 y2) Hny) as HY.
  pose proof (Rabs_mult_le _ _ _ _ (Hd z1 z2) Hnz) as HZ.
  pose proof (Rabs_pos x1). pose proof (Rabs_pos y1). pose proof (Rabs_pos z1).
  pose proof (Rabs_pos x2). pose proof (Rabs_pos y2). pose proof (Rabs_pos z2).
  split.
  - unfold V. pose proof (Rabs_plus_le _ _ _ _ (Rabs_plus_le _ _ _ _ HX HY) HZ).
    unfold S. lra.
  - replace (W - V)%R
      with ((x2 - x1) * nx * (sx - 1) + (y2 - y1) * ny * (sy - 1)
            + (z2 - z1) * nz * (sz - 1))%R by (unfold W, V; ring).
    pose proof (Rabs_mult_le _ _ _ _ HX Hsx) as EX.
    pose proof (Rabs_mult_le _ _ _ _ HY Hsy) as EY.
    pose proof (Rabs_mult_le _ _ _ _ HZ Hsz) as EZ.
    pose proof (Rabs_plus_le _ _ _ _ (Rabs_plus_le _ _ _ _ EX EY) EZ) as E.
    eapply Rle_trans; [exact E |]. unfold S.
    assert (0 <= u)%R by lra. nra.
Qed.

(** The error of a square. *)
Lemma square_error (p d B D : R) :
  (Rabs p <= B)%R -> (Rabs d <= D)%R ->
  (Rabs ((p + d) * (p + d) - p * p) <= D * (2 * B + D))%R.
Proof.
  intros Hp Hd.
  replace ((p + d) * (p + d) - p * p)%R with (d * (2 * p + d))%R by ring.
  apply Rabs_mult_le; [exact Hd |].
  apply Rabs_plus_le; [| exact Hd].
  rewrite Rabs_mult, (Rabs_pos_eq 2) by lra. lra.
Qed.


Lemma rnd_Fin_inv (a : num) (s : R) :
  Rounded.rnd fl a = Fin s -> exists x : R, a = Fin x /\ s = fl x.
Proof.
  destruct a as [x | | |]; cbn [Rounded.rnd]; try discriminate.
  intros [= <-]. now exists x.
Qed.

Lemma square_factor (e : R) :
  (Rabs e <= u)%R ->
  ((1 - u) * (1 - u) <= (1 + e) * (1 + e) <= (1 + u) * (1 + u))%R.
Proof. intros He. apply Rabs_bounds in He. nra. Qed.

(** The squared length of the quotients [a / d], [b / d], [c / d] as the
    code rounds them, where [d] is the computed length of [(a, b, c)]. *)
Lemma normal_length_rounded (a b c ra rb rc e6 e7 e8 e9 : R) :
  (0 < a * a + b * b + c * c)%R ->
  near 3 ra -> near 3 rb -> near 3 rc ->
  (Rabs e6 <= u)%R -> (Rabs e7 <= u)%R -> (Rabs e8 <= u)%R -> (Rabs e9 <= u)%R ->
  let r := (a * a * ra + b * b * rb + c * c * rc)%R in
  let d := (sqrt r * (1 + e6))%R in
  (0 < r)%R
  /\ (Rabs (a / d * (1 + e7) * (a / d * (1 + e7))
            + b / d * (1 + e8) * (b / d * (1 + e8))
            + c / d * (1 + e9) * (c / d * (1 + e9)) - 1) <= 8 * u)%R.
Proof.
  intros HQ Hra Hrb Hrc He6 He7 He8 He9 r d.
  apply (near_bound 3) in Hra; [| lia]. apply (near_bound 3) in Hrb; [| lia].
  apply (near_bound 3) in Hrc; [| lia]. simpl INR in Hra, Hrb, Hrc.
  apply Rabs_bounds in Hra. apply Rabs_bounds in Hrb. apply Rabs_bounds in Hrc.
  pose proof (Rle_0_sqr a) as Ha. pose proof (Rle_0_sqr b) as Hb.
  pose proof (Rle_0_sqr c) as Hc. unfold Rsqr in Ha, Hb, Hc.
  set (Q := (a * a + b * b + c * c)%R) in *.
  set (g := ((3 + 3 / 50) * u)%R) in *.
  assert (Hterm : forall s t : R,
             (0 <= s)%R -> (- g <= t - 1 <= g)%R ->
             (s * (1 - g) <= s * t <= s * (1 + g))%R).
  { intros s t Hs Ht. split; apply Rmult_le_compat_l; lra. }
  assert (Hr : (Q * (1 - g) <= r <= Q * (1 + g))%R).
  { assert (Hra' : (- g <= ra - 1 <= g)%R) by (unfold g; lra).
    assert (Hrb' : (- g <= rb - 1 <= g)%R) by (unfold g; lra).
    assert (Hrc' : (- g <= rc - 1 <= g)%R) by (unfold g; lra).
    pose proof (Hterm _ _ Ha Hra'). pose proof (Hterm _ _ Hb Hrb').
    pose proof (Hterm _ _ Hc Hrc'). unfold r, Q. lra. }
  assert (Hg : (0 <= g <= 4 / 1000)%R) by (unfold g; lra).
  assert (Hr0 : (0 < r)%R) by nra.
  split; [exact Hr0 |].
  pose proof (square_factor e6 He6) as S6. pose proof (square_factor e7 He7) as S7.
  pose proof (square_factor e8 He8) as S8. pose proof (square_factor e9 He9) as S9.
  assert (Hdd : (d * d = r * ((1 + e6) * (1 + e6)))%R).
  { unfold d. replace (sqrt r * (1 + e6) * (sqrt r * (1 + e6)))%R
      with (sqrt r * sqrt r * ((1 + e6) * (1 + e6)))%R by ring.
    rewrite sqrt_sqrt by lra. reflexivity. }
  assert (Hd0 : (d <> 0)%R).
  { unfold d. apply Rmult_integral_contrapositive_currified.
    - apply Rgt_not_eq, sqrt_lt_R0, Hr0.
    - apply Rabs_bounds in He6. lra. }
  set (num := (a * a * ((1 + e7) * (1 + e7)) + b * b * ((1 + e8) * (1 + e8))
               + c * c * ((1 + e9) * (1 + e9)))%R).
  replace (a / d * (1 + e7) * (a / d * (1 + e7))
           + b / d * (1 + e8) * (b / d * (1 + e8))
           + c / d * (1 + e9) * (c / d * (1 + e9)) - 1)%R
    with ((num - d * d) / (d * d))%R by (unfold num; field; exact Hd0).
  assert (Hsq : forall s t : R,
             (0 <= s)%R -> ((1 - u) * (1 - u) <= t <= (1 + u) * (1 + u))%R ->
             (s * ((1 - u) * (1 - u)) <= s * t <= s * ((1 + u) * (1 + u)))%R).
  { intros s t Hs Ht. split; apply Rmult_le_compat_l; lra. }
  assert (Hnum : (Q * ((1 - u) * (1 - u)) <= num <= Q * ((1 + u) * (1 + u)))%R).
  { pose proof (Hsq _ _ Ha S7). pose proof (Hsq _ _ Hb S8).
    pose proof (Hsq _ _ Hc S9). unfold num, Q. lra. }
  assert (Hden : (Q * (1 - g) * ((1 - u) * (1 - u)) <= d * d
                  <= Q * (1 + g) * ((1 + u) * (1 + u)))%R).
  { rewrite Hdd. split.
    - apply Rmult_le_compat; try nra.
    - apply Rmult_le_compat; try nra. }
  assert (Hdpos : (0 < d * d)%R) by (rewrite Hdd; nra).
  assert (Hup : ((1 + u) * (1 + u) <= (1 + 8 * u) * ((1 - g) * ((1 - u) * (1 - u))))%R)
    by (unfold g; nra).
  assert (Hlo : ((1 - 8 * u) * ((1 + g) * ((1 + u) * (1 + u))) <= (1 - u) * (1 - u))%R)
    by (unfold g; nra).
  apply Rabs_le. split.
  - apply Rmult_le_reg_r with (d * d)%R; [exact Hdpos |].
    unfold Rdiv. rewrite Rmult_assoc, Rinv_l by lra.
    assert (H8 : (0 <= 1 - 8 * u)%R) by lra.
    assert (Hchain : ((1 - 8 * u) * (d * d) <= num)%R).
    { apply Rle_trans with ((1 - 8 * u) * (Q * (1 + g) * ((1 + u) * (1 + u))))%R.
      - apply Rmult_le_compat_l; lra.
      - apply Rle_trans with (Q * ((1 - u) * (1 - u)))%R; [| lra].
        replace ((1 - 8 * u) * (Q * (1 + g) * ((1 + u) * (1 + u))))%R
          with (Q * ((1 - 8 * u) * ((1 + g) * ((1 + u) * (1 + u)))))%R by ring.
        apply Rmult_le_compat_l; lra. }
    lra.
  - apply Rmult_le_reg_r with (d * d)%R; [exact Hdpos |].
    unfold Rdiv. rewrite Rmult_assoc, Rinv_l by lra.
    assert (Hchain : (num <= (1 + 8 * u) * (d * d))%R).
    { apply Rle_trans with (Q * ((1 + u) * (1 + u)))%R; [lra |].
      apply Rle_trans with ((1 + 8 * u) * (Q * (1 - g) * ((1 - u) * (1 - u))))%R.
      - replace ((1 + 8 * u) * (Q * (1 - g) * ((1 - u) * (1 - u))))%R
          with (Q * ((1 + 8 * u) * ((1 - g) * ((1 - u) * (1 - u)))))%R by ring.
        apply Rmult_le_compat_l; lra.
      - apply Rmult_le_compat_l; lra. }
    lra.
Qed.

(** A colliding pair of circles has finite centre offsets, and the normal
    of the collision record is finite and of length [1] up to rounding. *)
Lemma circle_normal_rounded (dx dy dz minDistance : num) :
  let distance :=
    Rounded.sqrt fl
      (Rounded.add fl
         (Rounded.add fl (Rounded.mul fl dx dx) (Rounded.mul fl dy dy))
         (Rounded.mul fl dz dz)) in
  (distance <? minDistance) = true ->
  exists nx ny nz : R,
    (if distance >? Rounded.lit fl 0
     then Vector3.mk (Rounded.div fl dx distance) (Rounded.div fl dy distance)
                     (Rounded.div fl dz distance)
     else Vector3.mk (Rounded.lit fl 1) (Rounded.lit fl 0) (Rounded.lit fl 0))
    = Vector3.mk (Fin nx) (Fin ny) (Fin nz)
    /\ (Rabs (nx * nx + ny * ny + nz * nz - 1) <= 8 * u)%R.
Proof.
  intros distance Hlt.
  destruct distance as [d | | |] eqn:Hd;
    try discriminate; try (destruct minDistance; discriminate).
  2: { exfalso. revert Hd. unfold distance, Rounded.sqrt.
       destruct (Math.sqrt _) as [s | | |] eqn:Hs; cbn [Rounded.rnd];
         try discriminate.
       revert Hs. unfold Math.sqrt.
       destruct (Rounded.add fl _ _) as [r | | |]; try discriminate.
       destruct (Rltb r 0); discriminate. }
  unfold distance, Rounded.sqrt in Hd.
  apply rnd_Fin_inv in Hd as (s & Hs & ->).
  unfold Math.sqrt in Hs.
  destruct (Rounded.add fl _ _) as [r | | |] eqn:Hr; try discriminate.
  destruct (Rltb r 0) eqn:Hr0; [discriminate |]. injection Hs as <-.
  apply Rltb_elim_false in Hr0.
  unfold Rounded.add in Hr.
  apply rnd_Fin_inv in Hr as (r2 & Hr2 & ->).
  apply add_Fin_inv in Hr2 as (sxy & sz & Hsxy & Hsz & ->).
  apply rnd_Fin_inv in Hsxy as (r1 & Hr1 & ->).
  apply add_Fin_inv in Hr1 as (sx & sy & Hsx & Hsy & ->).
  unfold Rounded.mul in Hsx, Hsy, Hsz.
  apply rnd_Fin_inv in Hsx as (qx & Hqx & ->).
  apply rnd_Fin_inv in Hsy as (qy & Hqy & ->).
  apply rnd_Fin_inv in Hsz as (qz & Hqz & ->).
  apply mul_Fin_inv in Hqx as (a & a' & Ha & Ha' & ->).
  apply mul_Fin_inv in Hqy as (b & b' & Hb & Hb' & ->).
  apply mul_Fin_inv in Hqz as (c & c' & Hc & Hc' & ->).
  subst dx dy dz.
  injection Ha' as <-. injection Hb' as <-. injection Hc' as <-.
  unfold Rounded.lit. rewrite fl_0. cbn [Js.gtb Js.ltb].
  destruct (Rltb 0 _) eqn:Hpos.
  - apply Rltb_elim in Hpos.
    revert Hr0 Hpos.
    destruct (fl_rel (a * a)) as (e1 & -> & He1).
    destruct (fl_rel (b * b)) as (e2 & -> & He2).
    destruct (fl_rel (c * c)) as (e3 & -> & He3).
    destruct (fl_rel (a * a * (1 + e1) + b * b * (1 + e2))) as (e4 & -> & He4).
    destruct (fl_rel ((a * a * (1 + e1) + b * b * (1 + e2)) * (1 + e4)
                      + c * c * (1 + e3))) as (e5 & -> & He5).
    set (ra := ((1 + e1) * (1 + e4) * (1 + e5))%R).
    set (rb := ((1 + e2) * (1 + e4) * (1 + e5))%R).
    set (rc := ((1 + e3) * (1 + e5))%R).
    replace (((a * a * (1 + e1) + b * b * (1 + e2)) * (1 + e4)
              + c * c * (1 + e3)) * (1 + e5))%R
      with (a * a * ra + b * b * rb + c * c * rc)%R by (unfold ra, rb, rc; ring).
    set (r := (a * a * ra + b * b * rb + c * c * rc)%R).
    destruct (fl_rel (sqrt r)) as (e6 & -> & He6).
    intros Hr0 Hpos.
    assert (Hra : near 3 ra).
    { unfold ra. change 3%nat with (1 + 1 + 1)%nat.
      repeat apply near_mul; now apply near_rel. }
    assert (Hrb : near 3 rb).
    { unfold rb. change 3%nat with (1 + 1 + 1)%nat.
      repeat apply near_mul; now apply near_rel. }
    assert (Hrc : near 3 rc).
    { apply (near_weaken 2 3); [lia |]. unfold rc.
      change 2%nat with (1 + 1)%nat.
      repeat apply near_mul; now apply near_rel. }
    assert (HQ : (0 < a * a + b * b + c * c)%R).
    { destruct (Rle_lt_dec (a * a + b * b + c * c) 0) as [Hle | Hgt];
        [| exact Hgt].
      exfalso.
      assert (Ha0 : (a * a = 0)%R) by nra.
      assert (Hb0 : (b * b = 0)%R) by nra.
      assert (Hc0 : (c * c = 0)%R) by nra.
      unfold r in Hpos. rewrite Ha0, Hb0, Hc0, !Rmult_0_l, !Rplus_0_r in Hpos.
      rewrite sqrt_0, Rmult_0_l in Hpos. lra. }
    destruct (normal_length_rounded a b c ra rb rc e6
                0 0 0 HQ Hra Hrb Hrc He6) as (Hrpos & _);
      try (rewrite Rabs_R0; lra).
    fold r in Hrpos.
    assert (Hdist : (sqrt r * (1 + e6) <> 0)%R) by lra.
    unfold Rounded.div. rewrite !div_Fin by exact Hdist. cbn [Rounded.rnd].
    destruct (fl_rel (a / (sqrt r * (1 + e6)))) as (e7 & -> & He7).
    destruct (fl_rel (b / (sqrt r * (1 + e6)))) as (e8 & -> & He8).
    destruct (fl_rel (c / (sqrt r * (1 + e6)))) as (e9 & -> & He9).
    do 3 eexists. split; [reflexivity |].
    apply (normal_length_rounded a b c ra rb rc e6 e7 e8 e9); assumption.
  - destruct (fl_rel 1) as (e0 & -> & He0).
    do 3 eexists. split; [reflexivity |].
    apply Rabs_bounds in He0. apply Rabs_le. nra.
Qed.

(** The exchange for any collision record whose normal has length [1] up
    to rounding. *)
Lemma resolveCollision_up_to_rounding
    (obj1 obj2 : Body.t) (collision : Collision.t)
    (m x1 y1 z1 x2 y2 z2 nx ny nz : R) :
  collision.(Collision.isColliding) = true ->
  obj1.(Body.mass) ||| Rounded.lit fl 1 = Fin m ->
  obj2.(Body.mass) ||| Rounded.lit fl 1 = Fin m ->
  Rounded.restitutionOf fl obj1 obj2 = Fin 1 ->
  finite_vec (velocityOf obj1) x1 y1 z1 ->
  finite_vec (velocityOf obj2) x2 y2 z2 ->
  collision.(Collision.normal) = Vector3.mk (Fin nx) (Fin ny) (Fin nz) ->
  (Rabs (nx * nx + ny * ny + nz * nz - 1) <= 8 * u)%R ->
  (Rounded.velAlongNormal fl obj1 obj2 collision <=? Fin 0) = true ->
  let S := (Rabs x1 + Rabs y1 + Rabs z1 + Rabs x2 + Rabs y2 + Rabs z2)%R in
  exists a1 b1 c1 a2 b2 c2 : R,
    Rounded.resolveCollision fl obj1 obj2 collision
    = Velocities.mk (Vec.mk (Fin a1) (Fin b1) (Some (Fin c1)))
                    (Vec.mk (Fin a2) (Fin b2) (Some (Fin c2)))
    /\ (Rabs (a1 * nx + b1 * ny + c1 * nz - (x2 * nx + y2 * ny + z2 * nz))
        <= 66 * u * S)%R
    /\ (Rabs (a2 * nx + b2 * ny + c2 * nz - (x1 * nx + y1 * ny + z1 * nz))
        <= 66 * u * S)%R
    /\ (Rabs (m * a1 + m * a2 - (m * x1 + m * x2)) <= 38 * u * Rabs m * S)%R
    /\ (Rabs (m * b1 + m * b2 - (m * y1 + m * y2)) <= 38 * u * Rabs m * S)%R
    /\ (Rabs (m * c1 + m * c2 - (m * z1 + m * z2)) <= 38 * u * Rabs m * S)%R
    /\ (Rabs (1 / 2 * m * (a1 * a1 + b1 * b1 + c1 * c1)
              + 1 / 2 * m * (a2 * a2 + b2 * b2 + c2 * c2)
              - (1 / 2 * m * (x1 * x1 + y1 * y1 + z1 * z1)
                 + 1 / 2 * m * (x2 * x2 + y2 * y2 + z2 * z2)))
        <= 240 * u * Rabs m * (S * S))%R.
Proof.
  intros Hcol Hm1 Hm2 He Hv1 Hv2 Hn HN HV S.
  destruct (resolveCollision_rounded_shape obj1 obj2 collision
              m x1 y1 z1 x2 y2 z2 nx ny nz Hcol Hm1 Hm2 He Hv1 Hv2 Hn HV)
    as (W & sx & sy & sz & tx & ty & tz & cx1 & cy1 & cz1 & cx2 & cy2 & cz2
        & Hres & HW & (Hsx & Hsy & Hsz) & (Htx & Hty & Htz)
        & (Bx1 & By1 & Bz1) & (Bx2 & By2 & Bz2)).
  do 6 eexists. split; [exact Hres |].
  pose proof (normal_component nx ny nz HN) as Hnx.
  assert (Hny : (Rabs ny <= 251 / 250)%R).
  { apply (normal_component ny nx nz).
    replace (ny * ny + nx * nx + nz * nz)%R with (nx * nx + ny * ny + nz * nz)%R
      by ring. exact HN. }
  assert (Hnz : (Rabs nz <= 251 / 250)%R).
  { apply (normal_component nz nx ny).
    replace (nz * nz + nx * nx + ny * ny)%R with (nx * nx + ny * ny + nz * nz)%R
      by ring. exact HN. }
  destruct (velAlongNormal_error x1 y1 z1 x2 y2 z2 nx ny nz sx sy sz
              Hnx Hny Hnz Hsx Hsy Hsz) as (HVb & HWV).
  fold S in HVb, HWV. rewrite <- HW in HWV.
  set (V := ((x2 - x1) * nx + (y2 - y1) * ny + (z2 - z1) * nz)%R) in *.
  pose proof (Rabs_pos x1) as P1. pose proof (Rabs_pos y1) as P2.
  pose proof (Rabs_pos z1) as P3. pose proof (Rabs_pos x2) as P4.
  pose proof (Rabs_pos y2) as P5. pose proof (Rabs_pos z2) as P6.
  assert (HS : (0 <= S)%R) by (unfold S; lra).
  assert (HP : (0 <= u * S)%R) by (apply Rmult_le_pos; lra).
  (* the six component errors *)
  assert (D1x := component_error x1 nx W V tx cx1 S
                   ltac:(unfold S; lra) Hnx HVb HWV Htx Bx1).
  assert (D1y := component_error y1 ny W V ty cy1 S
                   ltac:(unfold S; lra) Hny HVb HWV Hty By1).
  assert (D1z := component_error z1 nz W V tz cz1 S
                   ltac:(unfold S; lra) Hnz HVb HWV Htz Bz1).
  assert (Hneg : forall n : R, (Rabs n <= 251 / 250)%R ->
                               (Rabs (- n) <= 251 / 250)%R)
    by (intros n Hb; now rewrite Rabs_Ropp).
  assert (D2x := component_error x2 (- nx) W V tx cx2 S
                   ltac:(unfold S; lra) (Hneg _ Hnx) HVb HWV Htx Bx2).
  assert (D2y := component_error y2 (- ny) W V ty cy2 S
                   ltac:(unfold S; lra) (Hneg _ Hny) HVb HWV Hty By2).
  assert (D2z := component_error z2 (- nz) W V tz cz2 S
                   ltac:(unfold S; lra) (Hneg _ Hnz) HVb HWV Htz Bz2).
  replace ((x2 + W * - nx * tx) * (1 + cx2))%R
    with ((x2 - W * nx * tx) * (1 + cx2))%R in D2x by ring.
  replace ((y2 + W * - ny * ty) * (1 + cy2))%R
    with ((y2 - W * ny * ty) * (1 + cy2))%R in D2y by ring.
  replace ((z2 + W * - nz * tz) * (1 + cz2))%R
    with ((z2 - W * nz * tz) * (1 + cz2))%R in D2z by ring.
  set (a1 := ((x1 + W * nx * tx) * (1 + cx1))%R) in *.
  set (b1 := ((y1 + W * ny * ty) * (1 + cy1))%R) in *.
  set (c1 := ((z1 + W * nz * tz) * (1 + cz1))%R) in *.
  set (a2 := ((x2 - W * nx * tx) * (1 + cx2))%R) in *.
  set (b2 := ((y2 - W * ny * ty) * (1 + cy2))%R) in *.
  set (c2 := ((z2 - W * nz * tz) * (1 + cz2))%R) in *.
  set (d1x := (a1 - (x1 + V * nx))%R) in *.
  set (d1y := (b1 - (y1 + V * ny))%R) in *.
  set (d1z := (c1 - (z1 + V * nz))%R) in *.
  set (d2x := (a2 - (x2 + V * - nx))%R) in *.
  set (d2y := (b2 - (y2 + V * - ny))%R) in *.
  set (d2z := (c2 - (z2 + V * - nz))%R) in *.
  set (P := (u * S)%R) in *.
  set (N2 := (nx * nx + ny * ny + nz * nz)%R) in *.
  assert (HVN : (Rabs (V * (N2 - 1)) <= 251 / 250 * S * (8 * u))%R)
    by (apply Rabs_mult_le; assumption).
  replace (251 / 250 * S * (8 * u))%R with (251 / 250 * 8 * P)%R in HVN
    by (unfold P; ring).
  assert (Hdot : forall dx dy dz : R,
             (Rabs dx <= 19 * P)%R -> (Rabs dy <= 19 * P)%R ->
             (Rabs dz <= 19 * P)%R ->
             (Rabs (dx * nx + dy * ny + dz * nz) <= 3 * (19 * P * (251 / 250)))%R).
  { intros dx dy dz Hx Hy Hz.
    pose proof (Rabs_mult_le _ _ _ _ Hx Hnx) as Ex.
    pose proof (Rabs_mult_le _ _ _ _ Hy Hny) as Ey.
    pose proof (Rabs_mult_le _ _ _ _ Hz Hnz) as Ez.
    pose proof (Rabs_plus_le _ _ _ _ (Rabs_plus_le _ _ _ _ Ex Ey) Ez). lra. }
  split; [| split; [| split; [| split; [| split]]]].
  - replace (a1 * nx + b1 * ny + c1 * nz - (x2 * nx + y2 * ny + z2 * nz))%R
      with ((d1x * nx + d1y * ny + d1z * nz) + V * (N2 - 1))%R
      by (unfold d1x, d1y, d1z, V, N2; ring).
    pose proof (Rabs_plus_le _ _ _ _ (Hdot _ _ _ D1x D1y D1z) HVN) as H.
    eapply Rle_trans; [exact H |].
    replace (66 * u * S)%R with (66 * P)%R by (unfold P; ring). lra.
  - replace (a2 * nx + b2 * ny + c2 * nz - (x1 * nx + y1 * ny + z1 * nz))%R
      with ((d2x * nx + d2y * ny + d2z * nz) + - (V * (N2 - 1)))%R
      by (unfold d2x, d2y, d2z, V, N2; ring).
    rewrite <- Rabs_Ropp in HVN.
    pose proof (Rabs_plus_le _ _ _ _ (Hdot _ _ _ D2x D2y D2z) HVN) as H.
    eapply Rle_trans; [exact H |].
    replace (66 * u * S)%R with (66 * P)%R by (unfold P; ring). lra.
  - replace (m * a1 + m * a2 - (m * x1 + m * x2))%R with (m * (d1x + d2x))%R
      by (unfold d1x, d2x; ring).
    rewrite Rabs_mult.
    replace (38 * u * Rabs m * S)%R with (Rabs m * (38 * P))%R
      by (unfold P; ring).
    apply Rmult_le_compat_l; [apply Rabs_pos |].
    pose proof (Rabs_plus_le _ _ _ _ D1x D2x). lra.
  - replace (m * b1 + m * b2 - (m * y1 + m * y2))%R with (m * (d1y + d2y))%R
      by (unfold d1y, d2y; ring).
    rewrite Rabs_mult.
    replace (38 * u * Rabs m * S)%R with (Rabs m * (38 * P))%R
      by (unfold P; ring).
    apply Rmult_le_compat_l; [apply Rabs_pos |].
    pose proof (Rabs_plus_le _ _ _ _ D1y D2y). lra.
  - replace (m * c1 + m * c2 - (m * z1 + m * z2))%R with (m * (d1z + d2z))%R
      by (unfold d1z, d2z; ring).
    rewrite Rabs_mult.
    replace (38 * u * Rabs m * S)%R with (Rabs m * (38 * P))%R
      by (unfold P; ring).
    apply Rmult_le_compat_l; [apply Rabs_pos |].
    pose proof (Rabs_plus_le _ _ _ _ D1z D2z). lra.
  - set (B := ((1 + 251 / 250 * (251 / 250)) * S)%R).
    assert (Hp : forall x n : R, (Rabs x <= S)%R -> (Rabs n <= 251 / 250)%R ->
                                 (Rabs (x + V * n) <= B)%R).
    { intros x n Hx Hb.
      pose proof (Rabs_plus_le _ _ _ _ Hx (Rabs_mult_le _ _ _ _ HVb Hb)) as H.
      unfold B. lra. }
    assert (Hsq : forall x n d : R,
               (Rabs x <= S)%R -> (Rabs n <= 251 / 250)%R ->
               (Rabs d <= 19 * P)%R ->
               (Rabs ((x + V * n + d) * (x + V * n + d)
                      - (x + V * n) * (x + V * n))
                <= 19 * P * (2 * B + 19 * P))%R).
    { intros x n d Hx Hb Hd. apply square_error; [now apply Hp | exact Hd]. }
    pose proof (Hsq x1 nx d1x ltac:(unfold S; lra) Hnx D1x) as E1.
    pose proof (Hsq y1 ny d1y ltac:(unfold S; lra) Hny D1y) as E2.
    pose proof (Hsq z1 nz d1z ltac:(unfold S; lra) Hnz D1z) as E3.
    pose proof (Hsq x2 (- nx)%R d2x ltac:(unfold S; lra) (Hneg _ Hnx) D2x) as E4.
    pose proof (Hsq y2 (- ny)%R d2y ltac:(unfold S; lra) (Hneg _ Hny) D2y) as E5.
    pose proof (Hsq z2 (- nz)%R d2z ltac:(unfold S; lra) (Hneg _ Hnz) D2z) as E6.
    assert (HV2 : (Rabs (2 * (V * (V * (N2 - 1))))
                   <= 2 * (251 / 250 * S * (251 / 250 * 8 * P)))%R).
    { rewrite Rabs_mult, (Rabs_pos_eq 2) by lra.
      apply Rmult_le_compat_l; [lra |]. now apply Rabs_mult_le. }
    replace (1 / 2 * m * (a1 * a1 + b1 * b1 + c1 * c1)
             + 1 / 2 * m * (a2 * a2 + b2 * b2 + c2 * c2)
             - (1 / 2 * m * (x1 * x1 + y1 * y1 + z1 * z1)
                + 1 / 2 * m * (x2 * x2 + y2 * y2 + z2 * z2)))%R
      with (m * (1 / 2
                 * (((x1 + V * nx + d1x) * (x1 + V * nx + d1x)
                     - (x1 + V * nx) * (x1 + V * nx))
                    + ((y1 + V * ny + d1y) * (y1 + V * ny + d1y)
                       - (y1 + V * ny) * (y1 + V * ny))
                    + ((z1 + V * nz + d1z) * (z1 + V * nz + d1z)
                       - (z1 + V * nz) * (z1 + V * nz))
                    + ((x2 + V * - nx + d2x) * (x2 + V * - nx + d2x)
                       - (x2 + V * - nx) * (x2 + V * - nx))
                    + ((y2 + V * - ny + d2y) * (y2 + V * - ny + d2y)
                       - (y2 + V * - ny) * (y2 + V * - ny))
                    + ((z2 + V * - nz + d2z) * (z2 + V * - nz + d2z)
                       - (z2 + V * - nz) * (z2 + V * - nz))
                    + 2 * (V * (V * (N2 - 1))))))%R
      by (unfold d1x, d1y, d1z, d2x, d2y, d2z, V, N2; ring).
    rewrite Rabs_mult.
    replace (240 * u * Rabs m * (S * S))%R with (Rabs m * (240 * (P * S)))%R
      by (unfold P; ring).
    apply Rmult_le_compat_l; [apply Rabs_pos |].
    rewrite Rabs_mult, (Rabs_pos_eq (1 / 2)) by lra.
    pose proof (Rabs_plus_le _ _ _ _
                  (Rabs_plus_le _ _ _ _
                     (Rabs_plus_le _ _ _ _
                        (Rabs_plus_le _ _ _ _
                           (Rabs_plus_le _ _ _ _
                              (Rabs_plus_le _ _ _ _ E1 E2) E3) E4) E5) E6) HV2)
      as E.
    eapply Rle_trans; [apply Rmult_le_compat_l; [lra | exact E] |].
    assert (HPS : (0 <= P * S)%R) by (apply Rmult_le_pos; assumption).
    assert (HPP : (P * P <= P * S / 1000)%R).
    { unfold P. assert (0 <= u * S * S)%R by (apply Rmult_le_pos; assumption).
      nra. }
    unfold B. nra.
Qed.


(** C2, as amended.  For two colliding circles of equal mass and
    restitution [1] that approach along the normal, [resolveCollision]
    exchanges the components of the velocities along the normal and
    conserves momentum and kinetic energy up to rounding, not exactly.  With
    [u] the relative error of one operation and [S] the sum of the
    magnitudes of the six velocity components: the normal [n] of the
    collision record has a squared length within [8 u] of [1], the new
    components along [n] differ from the exchanged ones by at most
    [66 u S], each component of the total momentum changes by at most
    [38 u |m| S], and the kinetic energy by at most [240 u |m| S^2]. *)
Theorem elastic_equal_mass_collision_swaps_up_to_rounding
    (obj1 obj2 : Body.t) (m x1 y1 z1 x2 y2 z2 : R) :
  let collision := Rounded.checkCircleCollision fl obj1 obj2 in
  collision.(Collision.isColliding) = true ->
  obj1.(Body.mass) ||| Rounded.lit fl 1 = Fin m ->
  obj2.(Body.mass) ||| Rounded.lit fl 1 = Fin m ->
  obj1.(Body.restitution) = Some (Fin 1) ->
  obj2.(Body.restitution) = Some (Fin 1) ->
  finite_vec (velocityOf obj1) x1 y1 z1 ->
  finite_vec (velocityOf obj2) x2 y2 z2 ->
  (Rounded.velAlongNormal fl obj1 obj2 collision <=? Fin 0) = true ->
  let S := (Rabs x1 + Rabs y1 + Rabs z1 + Rabs x2 + Rabs y2 + Rabs z2)%R in
  exists nx ny nz a1 b1 c1 a2 b2 c2 : R,
    collision.(Collision.normal) = Vector3.mk (Fin nx) (Fin ny) (Fin nz)
    /\ (Rabs (nx * nx + ny * ny + nz * nz - 1) <= 8 * u)%R
    /\ Rounded.resolveCollision fl obj1 obj2 collision
       = Velocities.mk (Vec.mk (Fin a1) (Fin b1) (Some (Fin c1)))
                       (Vec.mk (Fin a2) (Fin b2) (Some (Fin c2)))
    (* the normal components are exchanged *)
    /\ (Rabs (a1 * nx + b1 * ny + c1 * nz - (x2 * nx + y2 * ny + z2 * nz))
        <= 66 * u * S)%R
    /\ (Rabs (a2 * nx + b2 * ny + c2 * nz - (x1 * nx + y1 * ny + z1 * nz))
        <= 66 * u * S)%R
    (* total momentum *)
    /\ (Rabs (m * a1 + m * a2 - (m * x1 + m * x2)) <= 38 * u * Rabs m * S)%R
    /\ (Rabs (m * b1 + m * b2 - (m * y1 + m * y2)) <= 38 * u * Rabs m * S)%R
    /\ (Rabs (m * c1 + m * c2 - (m * z1 + m * z2)) <= 38 * u * Rabs m * S)%R
    (* total kinetic energy *)
    /\ (Rabs (1 / 2 * m * (a1 * a1 + b1 * b1 + c1 * c1)
              + 1 / 2 * m * (a2 * a2 + b2 * b2 + c2 * c2)
              - (1 / 2 * m * (x1 * x1 + y1 * y1 + z1 * z1)
                 + 1 / 2 * m * (x2 * x2 + y2 * y2 + z2 * z2)))
        <= 240 * u * Rabs m * (S * S))%R.
Proof.
  intros collision Hcol Hm1 Hm2 Hr1 Hr2 Hv1 Hv2 HV S.
  pose proof Hcol as Hnormal.
  unfold collision, Rounded.checkCircleCollision in Hnormal.
  cbn [Collision.isColliding] in Hnormal.
  apply circle_normal_rounded in Hnormal as (nx & ny & nz & Hn & HN).
  assert (Hn' : collision.(Collision.normal)
                = Vector3.mk (Fin nx) (Fin ny) (Fin nz)) by exact Hn.
  assert (He : Rounded.restitutionOf fl obj1 obj2 = Fin 1).
  { unfold Rounded.restitutionOf. rewrite Hr1, Hr2.
    cbn [Js.or_num Js.truthy]. rewrite Reqb_false by lra. cbn [negb Math.min Js.ltb].
    unfold Rltb. destruct (Rlt_dec 1 1); [lra | reflexivity]. }
  destruct (resolveCollision_up_to_rounding obj1 obj2 collision
              m x1 y1 z1 x2 y2 z2 nx ny nz Hcol Hm1 Hm2 He Hv1 Hv2 Hn' HN HV)
    as (a1 & b1 & c1 & a2 & b2 & c2 & Hres & Hbounds).
  exists nx, ny, nz, a1, b1, c1, a2, b2, c2.
  split; [exact Hn' |]. split; [exact HN |]. split; [exact Hres |].
  exact Hbounds.
Qed.

(** ** The amplitude of two interfering waves *)

Lemma fl_abs_le (x b : R) :
  (Rabs x <= b)%R -> (Rabs (fl x) <= b * (1 + u))%R.
Proof.
  intros Hx. destruct (fl_rel x) as (e & -> & He).
  rewrite Rabs_mult. pose proof (Rabs_pos x) as Hx0.
  apply Rabs_bounds in He.
  assert (H1 : (Rabs (1 + e) <= 1 + u)%R) by (apply Rabs_le; lra).
  pose proof (Rabs_pos (1 + e)) as H2. nra.
Qed.

Lemma fl_sign (x : R) : (0 <= x)%R -> (0 <= fl x)%R.
Proof.
  intros Hx. destruct (fl_rel x) as (e & -> & He).
  apply Rabs_bounds in He. apply Rmult_le_pos; lra.
Qed.

Section Interference.

Variable fcos : R -> R.
Hypothesis fcos_range : forall x : R, (Rabs (fcos x) <= 1)%R.

(** X11.  In rounded arithmetic, for finite amplitudes and phase,
    [interferenceAmplitude] returns NaN, when the rounded sum under the
    root is negative, or a finite number between [0] and
    [(1 + 5 u) (|a1| + |a2|)]; it does not return NaN when
    [a1 a2 cos (phase)] is not negative.  [u] bounds the relative error of
    one rounding and [Math.cos] has values in [[-1, 1]]. *)
Theorem interferenceAmplitude_rounded_bound (a1 a2 phi : R) :
  (Rounded.interferenceAmplitude fl fcos (Fin a1) (Fin a2) (Fin phi) = NaN
   \/ exists A : R,
        Rounded.interferenceAmplitude fl fcos (Fin a1) (Fin a2) (Fin phi)
        = Fin A
        /\ (0 <= A <= (1 + 5 * u) * (Rabs a1 + Rabs a2))%R)
  /\ ((0 <= a1 * a2 * fcos phi)%R ->
      Rounded.interferenceAmplitude fl fcos (Fin a1) (Fin a2) (Fin phi) <> NaN).
Proof.
  unfold Rounded.interferenceAmplitude, Rounded.sqrt, Rounded.add, Rounded.mul,
    Rounded.lit, Rounded.cos.
  cbn [Js.mul Js.add Rounded.rnd].
  set (p := fl (a1 * a1)). set (q := fl (a2 * a2)). set (s := fl (p + q)).
  set (d := fl (fl 2 * a1)). set (e := fl (d * a2)).
  set (t := fl (e * fcos phi)). set (r := fl (s + t)).
  set (A := Rabs a1). set (B := Rabs a2). set (w := (1 + u)%R).
  assert (HA : (0 <= A)%R) by apply Rabs_pos.
  assert (HB : (0 <= B)%R) by apply Rabs_pos.
  assert (Hw : (1 <= w <= 1 + 1 / 1000)%R) by (unfold w; lra).
  assert (Hsq1 : (a1 * a1 = A * A)%R).
  { unfold A, Rabs. destruct (Rcase_abs a1); ring. }
  assert (Hsq2 : (a2 * a2 = B * B)%R).
  { unfold B, Rabs. destruct (Rcase_abs a2); ring. }
  assert (Habs : forall x b : R, (0 <= x)%R -> (x <= b)%R -> (Rabs x <= b)%R).
  { intros x b H0 Hb. rewrite Rabs_pos_eq; assumption. }
  assert (Hp0 : (0 <= p)%R) by (apply fl_sign; rewrite Hsq1; nra).
  assert (Hq0 : (0 <= q)%R) by (apply fl_sign; rewrite Hsq2; nra).
  assert (Hs0 : (0 <= s)%R) by (apply fl_sign; lra).
  assert (Hp : (Rabs p <= A * A * w)%R).
  { apply fl_abs_le. rewrite Hsq1. apply Habs; nra. }
  assert (Hq : (Rabs q <= B * B * w)%R).
  { apply fl_abs_le. rewrite Hsq2. apply Habs; nra. }
  assert (Hs : (Rabs s <= (A * A * w + B * B * w) * w)%R).
  { apply fl_abs_le. now apply Rabs_plus_le. }
  assert (H2 : (Rabs (fl 2) <= 2 * w)%R).
  { apply fl_abs_le. rewrite Rabs_pos_eq; lra. }
  assert (Hd : (Rabs d <= 2 * w * A * w)%R).
  { apply fl_abs_le. apply Rabs_mult_le; [exact H2 | apply Rle_refl]. }
  assert (He : (Rabs e <= 2 * w * A * w * B * w)%R).
  { apply fl_abs_le. apply Rabs_mult_le; [exact Hd | apply Rle_refl]. }
  assert (Ht : (Rabs t <= 2 * w * A * w * B * w * 1 * w)%R).
  { apply fl_abs_le. apply Rabs_mult_le; [exact He | apply fcos_range]. }
  assert (Hr : (Rabs r
                <= ((A * A * w + B * B * w) * w
                    + 2 * w * A * w * B * w * 1 * w) * w)%R).
  { apply fl_abs_le. now apply Rabs_plus_le. }
  set (top := ((A + B) * (w * w * w))%R).
  assert (Htop0 : (0 <= top)%R).
  { unfold top. apply Rmult_le_pos; [lra |].
    apply Rmult_le_pos; [apply Rmult_le_pos |]; lra. }
  assert (Hrtop : (r <= top * top)%R).
  { apply Rabs_bounds in Hr. eapply Rle_trans; [apply Hr |].
    unfold top.
    assert (HAB : (0 <= A * B)%R) by now apply Rmult_le_pos.
    assert (HAA : (0 <= A * A)%R) by now apply Rmult_le_pos.
    assert (HBB : (0 <= B * B)%R) by now apply Rmult_le_pos.
    assert (Hw2 : (1 <= w * w)%R) by nra.
    assert (Hw3 : (1 <= w * w * w)%R) by nra.
    assert (Hw5 : (w * w * w <= w * w * w * (w * w * w))%R) by nra.
    assert (Hw6 : (w * w * w * w * w <= w * w * w * (w * w * w))%R) by nra.
    replace (((A * A * w + B * B * w) * w + 2 * w * A * w * B * w * 1 * w) * w)%R
      with ((A * A + B * B) * (w * w * w) + 2 * (A * B) * (w * w * w * w * w))%R
      by ring.
    replace ((A + B) * (w * w * w) * ((A + B) * (w * w * w)))%R
      with ((A * A + B * B) * (w * w * w * (w * w * w))
            + 2 * (A * B) * (w * w * w * (w * w * w)))%R by ring.
    apply Rplus_le_compat.
    - apply Rmult_le_compat_l; lra.
    - apply Rmult_le_compat_l; lra. }
  split.
  - destruct (Rlt_dec r 0) as [Hneg | Hpos].
    + left. now rewrite sqrt_Fin_neg.
    + right. apply Rnot_lt_le in Hpos. rewrite sqrt_Fin by exact Hpos.
      cbn [Rounded.rnd]. eexists. split; [reflexivity |].
      assert (Hroot : (sqrt r <= top)%R).
      { rewrite <- (sqrt_square top) by exact Htop0.
        apply sqrt_le_1_alt. exact Hrtop. }
      pose proof (sqrt_pos r) as Hroot0.
      split; [now apply fl_sign |].
      assert (Hfl : (Rabs (fl (sqrt r)) <= top * w)%R).
      { apply fl_abs_le. now apply Habs. }
      apply Rabs_bounds in Hfl. eapply Rle_trans; [apply Hfl |].
      unfold top. rewrite (Rmult_comm (1 + 5 * u)), Rmult_assoc.
      apply Rmult_le_compat_l; [lra |].
      unfold w. nra.
  - intros Hsign.
    assert (Hr0 : (0 <= r)%R).
    { apply fl_sign. apply Rplus_le_le_0_compat; [exact Hs0 |].
      unfold t, e, d.
      destruct (fl_rel 2) as (e0 & -> & He0).
      destruct (fl_rel (2 * (1 + e0) * a1)) as (e1 & -> & He1).
      destruct (fl_rel (2 * (1 + e0) * a1 * (1 + e1) * a2)) as (e2 & -> & He2).
      apply fl_sign.
      apply Rabs_bounds in He0. apply Rabs_bounds in He1.
      apply Rabs_bounds in He2.
      replace (2 * (1 + e0) * a1 * (1 + e1) * a2 * (1 + e2) * fcos phi)%R
        with (a1 * a2 * fcos phi * (2 * (1 + e0) * (1 + e1) * (1 + e2)))%R
        by ring.
      apply Rmult_le_pos; [exact Hsign |].
      repeat apply Rmult_le_pos; lra. }
    rewrite sqrt_Fin by exact Hr0. cbn [Rounded.rnd]. discriminate.
Qed.

End Interference.

End RoundingError.

(** Exact arithmetic is one such rounding, for every [u], and the unit
    roundoff of binary64 is small enough. *)
Lemma exact_arithmetic_error (u : R) :
  (0 <= u)%R -> forall x : R, (Rabs ((fun r : R => r) x - x) <= u * Rabs x)%R.
Proof.
  intros Hu x. cbn beta. replace (x - x)%R with 0%R by ring. rewrite Rabs_R0.
  apply Rmult_le_pos; [exact Hu | apply Rabs_pos].
Qed.

Lemma binary64_unit_roundoff_small :
  (0 <= Rounded.binary64_unit_roundoff <= 1 / 1000)%R.
Proof. unfold Rounded.binary64_unit_roundoff. lra. Qed.

Lemma wave_speed_round_trip_rounded_witness :
  let fl := fun r : R => r in
  let u := Rounded.binary64_unit_roundoff in
  exists f' : R,
    Rounded.waveFrequency fl
      (Rounded.waveSpeed fl (Fin 440) (Fin 0.78)) (Fin 0.78) = Fin f'
    /\ (Rabs (f' - 440) <= (2 * u + u * u) * Rabs 440)%R.
Proof.
  intros fl u.
  apply (proj1 (wave_speed_round_trip_rounded fl u binary64_unit_roundoff_small
                  (exact_arithmetic_error u (proj1 binary64_unit_roundoff_small))
                  440 0.78)).
  lra.
Defined.

Lemma dilation_contraction_round_trip_rounded_witness :
  let fl := fun r : R => r in
  let u := Rounded.binary64_unit_roundoff in
  exists dilated back : R,
    Rounded.timeDilation fl (Fin 0.99) (Fin 6.2e7) (Some (Fin 3e8)) = Fin dilated
    /\ Rounded.lengthContraction fl (Fin dilated) (Fin 6.2e7) (Some (Fin 3e8))
       = Fin back
    /\ (Rabs (back - 0.99) <= (2 * u + u * u) * Rabs 0.99)%R.
Proof.
  intros fl u.
  apply (dilation_contraction_round_trip_rounded fl u
           binary64_unit_roundoff_small
           (exact_arithmetic_error u (proj1 binary64_unit_roundoff_small))
           0.99 6.2e7 3e8).
  - lra.
  - rewrite Rabs_pos_eq by lra.
    unfold u, Rounded.binary64_unit_roundoff. lra.
Defined.

Lemma coulomb_force_field_rounded_witness :
  let fl := fun r : R => r in
  let u := Rounded.binary64_unit_roundoff in
  let law := (8.99e9 * 1e-6 * 2e-6 / (0.5 * 0.5))%R in
  exists F12 F21 E2 : R,
    Rounded.coulombForce fl (Fin 1e-6) (Fin 2e-6) (Fin 0.5) = Fin F12
    /\ Rounded.coulombForce fl (Fin 2e-6) (Fin 1e-6) (Fin 0.5) = Fin F21
    /\ Rounded.electricField fl (Fin 2e-6) (Fin 0.5) = Fin E2
    /\ (Rabs (F12 - law) <= 8 * u * Rabs law)%R
    /\ (Rabs (F21 - law) <= 8 * u * Rabs law)%R
    /\ (Rabs (1e-6 * E2 - law) <= 8 * u * Rabs law)%R.
Proof.
  intros fl u.
  apply (coulomb_force_field_rounded fl u binary64_unit_roundoff_small
           (exact_arithmetic_error u (proj1 binary64_unit_roundoff_small))
           1e-6 2e-6 0.5).
  lra.
Defined.

Lemma slow_collision :
  Rounded.checkCircleCollision (fun r : R => r) slow_left slow_right
  = Collision.mk true (Fin 0.8) (Some (Fin (0.5 + 0.5)))
      (Vector3.mk (Fin ((0.8 + - 0) / 0.8)) (Fin ((0 + - 0) / 0.8))
                  (Fin ((0 + - 0) / 0.8)))
      (Fin (0.5 + 0.5 + - (0.8))).
Proof.
  unfold Rounded.checkCircleCollision, Rounded.sub, Rounded.add, Rounded.mul,
    Rounded.div, Rounded.sqrt, Rounded.lit, slow_left, slow_right.
  cbn [Body.position Body.radius Vec.x Vec.y Vec.z Js.or_num Js.truthy
       Js.sub Js.add Js.neg Js.mul Rounded.rnd].
  rewrite sqrt_Fin by lra. rewrite ball_distance.
  cbn [Js.ltb Js.gtb Js.sub Js.add Js.neg Rounded.rnd].
  rewrite !Rltb_true by lra.
  rewrite !div_Fin by lra.
  cbn [Math.max Js.ltb Rounded.rnd]. rewrite Rltb_true by lra.
  reflexivity.
Qed.

Lemma elastic_equal_mass_collision_swaps_up_to_rounding_witness :
  let fl := fun r : R => r in
  let u := Rounded.binary64_unit_roundoff in
  let collision := Rounded.checkCircleCollision fl slow_left slow_right in
  let S := (Rabs 0.1 + Rabs 0 + Rabs 0 + Rabs (-0.2) + Rabs 0 + Rabs 0)%R in
  exists nx ny nz a1 b1 c1 a2 b2 c2 : R,
    collision.(Collision.normal) = Vector3.mk (Fin nx) (Fin ny) (Fin nz)
    /\ (Rabs (nx * nx + ny * ny + nz * nz - 1) <= 8 * u)%R
    /\ Rounded.resolveCollision fl slow_left slow_right collision
       = Velocities.mk (Vec.mk (Fin a1) (Fin b1) (Some (Fin c1)))
                       (Vec.mk (Fin a2) (Fin b2) (Some (Fin c2)))
    /\ (Rabs (a1 * nx + b1 * ny + c1 * nz - (-0.2 * nx + 0 * ny + 0 * nz))
        <= 66 * u * S)%R
    /\ (Rabs (a2 * nx + b2 * ny + c2 * nz - (0.1 * nx + 0 * ny + 0 * nz))
        <= 66 * u * S)%R
    /\ (Rabs (1 * a1 + 1 * a2 - (1 * 0.1 + 1 * -0.2)) <= 38 * u * Rabs 1 * S)%R
    /\ (Rabs (1 * b1 + 1 * b2 - (1 * 0 + 1 * 0)) <= 38 * u * Rabs 1 * S)%R
    /\ (Rabs (1 * c1 + 1 * c2 - (1 * 0 + 1 * 0)) <= 38 * u * Rabs 1 * S)%R
    /\ (Rabs (1 / 2 * 1 * (a1 * a1 + b1 * b1 + c1 * c1)
              + 1 / 2 * 1 * (a2 * a2 + b2 * b2 + c2 * c2)
              - (1 / 2 * 1 * (0.1 * 0.1 + 0 * 0 + 0 * 0)
                 + 1 / 2 * 1 * (-0.2 * -0.2 + 0 * 0 + 0 * 0)))
        <= 240 * u * Rabs 1 * (S * S))%R.
Proof.
  intros fl u.
  apply (elastic_equal_mass_collision_swaps_up_to_rounding fl u
           binary64_unit_roundoff_small
           (exact_arithmetic_error u (proj1 binary64_unit_roundoff_small))
           slow_left slow_right 1 0.1 0 0 (-0.2) 0 0).
  - unfold fl. rewrite slow_collision. reflexivity.
  - cbn [slow_left Body.mass Js.or_num Js.truthy].
    rewrite Reqb_false by lra. reflexivity.
  - cbn [slow_right Body.mass Js.or_num Js.truthy].
    rewrite Reqb_false by lra. reflexivity.
  - reflexivity.
  - reflexivity.
  - repeat split.
  - repeat split.
  - unfold Rounded.velAlongNormal, fl. rewrite slow_collision.
    unfold Rounded.sub, Rounded.add, Rounded.mul, Rounded.lit,
      Rounded.zero_velocity, slow_left, slow_right.
    cbn [Body.velocity Js.or_obj Js.or_num Vec.x Vec.y Vec.z
         Collision.normal Vector3.x Vector3.y Vector3.z
         Js.sub Js.add Js.neg Js.mul Js.leb Rounded.rnd].
    apply Rleb_true. lra.
Defined.

Lemma cos_range (x : R) : (Rabs (cos x) <= 1)%R.
Proof. apply Rabs_le. apply COS_bound. Qed.

Lemma interferenceAmplitude_rounded_bound_witness :
  let fl := fun r : R => r in
  let u := Rounded.binary64_unit_roundoff in
  (Rounded.interferenceAmplitude fl cos (Fin 0.108) (Fin 0.108000001) (Fin PI)
   = NaN
   \/ exists A : R,
        Rounded.interferenceAmplitude fl cos
          (Fin 0.108) (Fin 0.108000001) (Fin PI) = Fin A
        /\ (0 <= A <= (1 + 5 * u) * (Rabs 0.108 + Rabs 0.108000001))%R)
  /\ ((0 <= 0.108 * 0.108000001 * cos PI)%R ->
      Rounded.interferenceAmplitude fl cos
        (Fin 0.108) (Fin 0.108000001) (Fin PI) <> NaN).
Proof.
  intros fl u.
  exact (interferenceAmplitude_rounded_bound fl u binary64_unit_roundoff_small
           (exact_arithmetic_error u (proj1 binary64_unit_roundoff_small))
           cos cos_range 0.108 0.108000001 PI).
Defined.

(** ** Order: what every monotone rounding keeps *)

Section MonotoneRounding.

Variable fl : R -> R.
Hypothesis fl_monotone : forall x y : R, (x <= y)%R -> (fl x <= fl y)%R.
Hypothesis fl_odd : forall x : R, fl (- x) = (- fl x)%R.
Hypothesis fl_one : fl 1 = 1%R.

Lemma fl_zero : fl 0 = 0%R.
Proof. pose proof (fl_odd 0) as H. rewrite Ropp_0 in H. lra. Qed.

Lemma fl_nonneg (x : R) : (0 <= x)%R -> (0 <= fl x)%R.
Proof. intros Hx. rewrite <- fl_zero. now apply fl_monotone. Qed.

Lemma fl_nonpos (x : R) : (x <= 0)%R -> (fl x <= 0)%R.
Proof. intros Hx. rewrite <- fl_zero. now apply fl_monotone. Qed.

Lemma fl_abs (x : R) : fl (Rabs x) = Rabs (fl x).
Proof.
  unfold Rabs at 1. destruct (Rcase_abs x) as [Hneg | Hpos].
  - rewrite fl_odd. assert (H : (fl x <= 0)%R) by (apply fl_nonpos; lra).
    unfold Rabs. destruct (Rcase_abs (fl x)); lra.
  - assert (H : (0 <= fl x)%R) by (apply fl_nonneg; lra).
    now rewrite Rabs_pos_eq.
Qed.

Local Abbreviation lorentz_root := (Rounded.lorentz_root fl).

Lemma lorentz_chain (beta0 : R) :
  (Rabs beta0 <= 1)%R ->
  (0 <= fl (fl 1 + - fl (fl beta0 * fl beta0)) <= 1)%R
  /\ (0 <= lorentz_root beta0 <= 1)%R.
Proof.
  intros Hb.
  assert (Hbeta : (Rabs (fl beta0) <= 1)%R).
  { rewrite <- fl_abs. apply Rle_trans with (fl 1);
      [now apply fl_monotone | rewrite fl_one; lra]. }
  assert (Hsq : (0 <= fl beta0 * fl beta0 <= 1)%R).
  { apply Rabs_bounds in Hbeta. nra. }
  assert (Hb2 : (0 <= fl (fl beta0 * fl beta0) <= 1)%R).
  { split; [apply fl_nonneg; lra |].
    apply Rle_trans with (fl 1); [apply fl_monotone; lra | rewrite fl_one; lra]. }
  assert (Hd : (0 <= fl (fl 1 + - fl (fl beta0 * fl beta0)) <= 1)%R).
  { rewrite fl_one. split; [apply fl_nonneg; lra |].
    apply Rle_trans with (fl 1); [apply fl_monotone; lra | rewrite fl_one; lra]. }
  split; [exact Hd |]. unfold Rounded.lorentz_root.
  split; [apply fl_nonneg, sqrt_pos |].
  apply Rle_trans with (fl 1); [| rewrite fl_one; lra].
  apply fl_monotone.
  apply Rle_trans with (sqrt 1); [apply sqrt_le_1_alt; lra | rewrite sqrt_1; lra].
Qed.

Lemma gamma_rounded_value (v c : R) :
  c <> 0%R -> (Rabs (v / c) <= 1)%R ->
  Rounded.gamma fl (Fin v) (Some (Fin c))
  = if Reqb (lorentz_root (v / c)) 0 then PInf
    else Fin (fl (1 / lorentz_root (v / c))).
Proof.
  intros Hc Hv. destruct (lorentz_chain (v / c) Hv) as (Hd & Hs).
  unfold Rounded.gamma, Rounded.div, Rounded.mul, Rounded.sub, Rounded.sqrt,
    Rounded.lit.
  rewrite div_Fin by exact Hc. cbn [Rounded.rnd Js.mul Js.sub Js.add Js.neg].
  unfold Math.sqrt. rewrite Rltb_false by lra. cbn [Rounded.rnd].
  fold (Rounded.lorentz_root fl (v / c)). rewrite fl_one.
  unfold Js.div. destruct (Reqb (lorentz_root (v / c)) 0).
  - rewrite signed_inf_pos by lra. reflexivity.
  - reflexivity.
Qed.

Lemma lorentz_root_antitone (b1 b2 : R) :
  (Rabs b1 <= Rabs b2)%R -> (lorentz_root b2 <= lorentz_root b1)%R.
Proof.
  intros H12. unfold Rounded.lorentz_root.
  assert (Habs : (Rabs (fl b1) <= Rabs (fl b2))%R).
  { rewrite <- !fl_abs. now apply fl_monotone. }
  assert (Hsq : (fl b1 * fl b1 <= fl b2 * fl b2)%R).
  { replace (fl b1 * fl b1)%R with (Rabs (fl b1) * Rabs (fl b1))%R
      by (unfold Rabs; destruct (Rcase_abs (fl b1)); ring).
    replace (fl b2 * fl b2)%R with (Rabs (fl b2) * Rabs (fl b2))%R
      by (unfold Rabs; destruct (Rcase_abs (fl b2)); ring).
    pose proof (Rabs_pos (fl b1)). nra. }
  apply fl_monotone, sqrt_le_1_alt, fl_monotone.
  apply fl_monotone in Hsq. lra.
Qed.

(** X1.  In rounded arithmetic, up to and including the speed of light,
    the Lorentz factor is [1] at rest, never below [1], and never smaller
    at the larger [|velocity / c|]; it is [Infinity] as soon as the root
    rounds to zero.  This holds for every rounding that is monotone, odd
    and leaves [1] unchanged. *)
Theorem gamma_monotone_rounded (v1 v2 c : R) :
  c <> 0%R -> (Rabs (v1 / c) <= Rabs (v2 / c) <= 1)%R ->
  Rounded.gamma fl (Fin 0) (Some (Fin c)) = Fin 1
  /\ (Fin 1 <=? Rounded.gamma fl (Fin v1) (Some (Fin c))) = true
  /\ (Rounded.gamma fl (Fin v1) (Some (Fin c))
      <=? Rounded.gamma fl (Fin v2) (Some (Fin c))) = true.
Proof.
  intros Hc (H12 & H2).
  assert (H1 : (Rabs (v1 / c) <= 1)%R) by lra.
  pose proof (lorentz_root_antitone _ _ H12) as Hanti.
  destruct (lorentz_chain _ H1) as (_ & Hs1).
  destruct (lorentz_chain _ H2) as (_ & Hs2).
  rewrite (gamma_rounded_value v1 c Hc H1), (gamma_rounded_value v2 c Hc H2).
  assert (Hge : forall s : R, (0 < s <= 1)%R -> (1 <= fl (1 / s))%R).
  { intros s Hs. apply Rle_trans with (fl 1); [rewrite fl_one; lra |].
    apply fl_monotone.
    apply Rmult_le_reg_r with s; [lra |].
    unfold Rdiv. rewrite Rmult_assoc, Rinv_l by lra. lra. }
  split; [| split].
  - assert (H0 : (Rabs (0 / c) <= 1)%R).
    { unfold Rdiv. rewrite Rmult_0_l, Rabs_R0. lra. }
    rewrite (gamma_rounded_value 0 c Hc H0). unfold Rounded.lorentz_root.
    replace (0 / c)%R with 0%R by (field; exact Hc).
    rewrite fl_zero, Rmult_0_l, fl_zero, fl_one, Ropp_0, Rplus_0_r, fl_one.
    rewrite sqrt_1, fl_one, Reqb_false by lra.
    replace (1 / 1)%R with 1%R by field. now rewrite fl_one.
  - destruct (Reqb (lorentz_root (v1 / c)) 0) eqn:E1; [reflexivity |].
    cbn [Js.leb]. apply Rleb_true. apply Hge.
    revert E1. unfold Reqb. destruct (Req_dec_T _ _); [discriminate | lra].
  - destruct (Reqb (lorentz_root (v2 / c)) 0) eqn:E2.
    + destruct (Reqb (lorentz_root (v1 / c)) 0); reflexivity.
    + assert (Hpos2 : (0 < lorentz_root (v2 / c))%R).
      { revert E2. unfold Reqb. destruct (Req_dec_T _ _); [discriminate | lra]. }
      rewrite Reqb_false by lra. cbn [Js.leb]. apply Rleb_true.
      apply fl_monotone.
      unfold Rdiv. rewrite !Rmult_1_l. apply Rinv_le_contravar; lra.
Qed.


(** *** Projectile range *)

Hypothesis fl_idempotent : forall x : R, fl (fl x) = fl x.

Variable fsin : R -> R.
Hypothesis fsin_range : forall x : R, (-1 <= fsin x <= 1)%R.

(** X6.  In rounded arithmetic, with a positive gravity, the range at any
    angle is in magnitude at most [v * v / g] as the same arithmetic computes
    it, the range that the ideal sine [1] of 45 degrees gives.  This holds
    for every rounding that is monotone, odd and idempotent, and every
    [Math.sin] with values in [[-1, 1]]. *)
Theorem projectile_range_bounded_rounded (v a g : R) :
  (0 < g)%R ->
  exists range top : R,
    Rounded.projectileRange fl fsin (Fin v) (Fin a) (Some (Fin g)) = Fin range
    /\ Rounded.div fl (Rounded.mul fl (Fin v) (Fin v)) (Fin g) = Fin top
    /\ (Rabs range <= top)%R.
Proof.
  intros Hg.
  unfold Rounded.projectileRange, Rounded.div, Rounded.mul, Rounded.lit,
    Rounded.sin.
  cbn [Js.mul Rounded.rnd].
  assert (H180 : (fl 180 <> 0)%R).
  { assert (H : (fl 1 <= fl 180)%R) by (apply fl_monotone; lra). lra. }
  rewrite div_Fin by exact H180. cbn [Rounded.rnd Js.mul].
  rewrite !div_Fin by lra. cbn [Rounded.rnd].
  set (V2 := fl (v * v)).
  set (s := fsin (fl (fl 2 * fl (fl (a * fl PI) / fl 180)))).
  assert (HV2 : (0 <= V2)%R) by (apply fl_nonneg, Rle_0_sqr).
  pose proof (fsin_range (fl (fl 2 * fl (fl (a * fl PI) / fl 180)))) as Hs.
  fold s in Hs.
  do 2 eexists. split; [reflexivity |]. split; [reflexivity |].
  assert (Hp : (- V2 <= fl (V2 * s) <= V2)%R).
  { split.
    - replace (- V2)%R with (fl (- V2)) by (unfold V2; now rewrite fl_odd, fl_idempotent).
      apply fl_monotone. nra.
    - replace V2 with (fl V2) at 2 by (unfold V2; now rewrite fl_idempotent).
      apply fl_monotone. nra. }
  assert (Hi : (0 < / g)%R) by now apply Rinv_0_lt_compat.
  apply Rabs_le. split.
  - rewrite <- fl_odd. apply fl_monotone. unfold Rdiv. nra.
  - apply fl_monotone. unfold Rdiv. nra.
Qed.


(** *** Tunnelling *)

Variable fexp : R -> R.
Hypothesis fexp_monotone : forall x y : R, (x <= y)%R -> (fexp x <= fexp y)%R.
Hypothesis fexp_nonneg : forall x : R, (0 <= fexp x)%R.
Hypothesis fexp_0 : fexp 0 = 1%R.
Hypothesis hbar_rounded : (0 < fl 1.0545718e-34)%R.

(** The argument of [Math.exp] below the barrier. *)
Lemma tunnelingProbability_rounded (e V w m : R) :
  (e < V)%R -> (0 < m)%R ->
  Rounded.tunnelingProbability fl fexp (Fin e) (Fin V) (Fin w) (Fin m)
  = Fin (fexp (Rounded.tunnelingExponent fl e V w m))
  /\ (0 <= Rounded.decayConstant fl e V m)%R.
Proof.
  intros He Hm.
  unfold Rounded.tunnelingProbability, Rounded.tunnelingExponent,
    Rounded.decayConstant.
  cbn [Js.geb Js.leb]. rewrite Rleb_false by exact He.
  unfold Rounded.div, Rounded.mul, Rounded.sub, Rounded.sqrt, Rounded.lit,
    Rounded.exp.
  cbn [Js.mul Js.sub Js.add Js.neg Rounded.rnd].
  assert (H2 : (0 <= fl 2)%R) by (apply fl_nonneg; lra).
  assert (HM : (0 <= fl (fl 2 * m))%R) by (apply fl_nonneg; nra).
  assert (HA : (0 <= fl (V + - e))%R) by (apply fl_nonneg; lra).
  assert (HP : (0 <= fl (fl (fl 2 * m) * fl (V + - e)))%R)
    by (apply fl_nonneg; nra).
  unfold Math.sqrt. rewrite Rltb_false by exact HP. cbn [Rounded.rnd].
  rewrite div_Fin by lra. cbn [Rounded.rnd Js.mul].
  split; [reflexivity |].
  apply fl_nonneg. apply Rmult_le_pos; [apply fl_nonneg, sqrt_pos |].
  apply Rlt_le, Rinv_0_lt_compat, hbar_rounded.
Qed.

Lemma decayConstant_antitone (e1 e2 V m : R) :
  (e1 <= e2 < V)%R -> (0 < m)%R ->
  (Rounded.decayConstant fl e2 V m <= Rounded.decayConstant fl e1 V m)%R.
Proof.
  intros (H12 & H2) Hm. unfold Rounded.decayConstant.
  assert (HM : (0 <= fl (fl 2 * m))%R).
  { apply fl_nonneg. assert (0 <= fl 2)%R by (apply fl_nonneg; lra). nra. }
  assert (HA : (fl (V + - e2) <= fl (V + - e1))%R) by (apply fl_monotone; lra).
  assert (Hi : (0 < / fl 1.0545718e-34)%R)
    by apply Rinv_0_lt_compat, hbar_rounded.
  apply fl_monotone. unfold Rdiv. apply Rmult_le_compat_r; [lra |].
  apply fl_monotone, sqrt_le_1_alt, fl_monotone.
  now apply Rmult_le_compat_l.
Qed.

(** X4.  Below the barrier, with a positive width and mass, in rounded
    arithmetic the transmission probability lies in [[0, 1]], is never
    smaller at the larger energy and never larger for the wider barrier.
    This holds for every rounding that is monotone and odd and every
    [Math.exp] that is monotone, not negative and [1] at [0]; the
    probability may be [0], as when [Math.exp] underflows. *)
Theorem tunnelingProbability_monotone_rounded
    (e1 e2 barrierHeight w1 w2 mass : R) :
  (e1 <= e2 < barrierHeight)%R -> (0 < w1 <= w2)%R -> (0 < mass)%R ->
  exists T T_more_energy T_wider : R,
    Rounded.tunnelingProbability fl fexp
      (Fin e1) (Fin barrierHeight) (Fin w1) (Fin mass) = Fin T
    /\ Rounded.tunnelingProbability fl fexp
         (Fin e2) (Fin barrierHeight) (Fin w1) (Fin mass) = Fin T_more_energy
    /\ Rounded.tunnelingProbability fl fexp
         (Fin e1) (Fin barrierHeight) (Fin w2) (Fin mass) = Fin T_wider
    /\ (0 <= T_wider <= T)%R /\ (T <= T_more_energy <= 1)%R.
Proof.
  intros (H12 & H2) (Hw1 & Hw12) Hm.
  assert (H1 : (e1 < barrierHeight)%R) by lra.
  destruct (tunnelingProbability_rounded e1 barrierHeight w1 mass H1 Hm)
    as (HT & Hk1).
  destruct (tunnelingProbability_rounded e2 barrierHeight w1 mass H2 Hm)
    as (HTe & Hk2).
  destruct (tunnelingProbability_rounded e1 barrierHeight w2 mass H1 Hm)
    as (HTw & _).
  pose proof (decayConstant_antitone e1 e2 barrierHeight mass
                (conj H12 H2) Hm) as Hk.
  do 3 eexists.
  split; [exact HT |]. split; [exact HTe |]. split; [exact HTw |].
  unfold Rounded.tunnelingExponent.
  set (k1 := Rounded.decayConstant fl e1 barrierHeight mass) in *.
  set (k2 := Rounded.decayConstant fl e2 barrierHeight mass) in *.
  assert (H20 : (0 <= fl 2)%R) by (apply fl_nonneg; lra).
  assert (Hn1 : (fl (- fl 2 * k1) <= 0)%R) by (apply fl_nonpos; nra).
  assert (Hn2 : (fl (- fl 2 * k2) <= 0)%R) by (apply fl_nonpos; nra).
  assert (Hn12 : (fl (- fl 2 * k1) <= fl (- fl 2 * k2))%R)
    by (apply fl_monotone; nra).
  repeat split.
  - apply fexp_nonneg.
  - apply fexp_monotone, fl_monotone. nra.
  - apply fexp_monotone, fl_monotone. nra.
  - rewrite <- fexp_0. apply fexp_monotone, fl_nonpos. nra.
Qed.

End MonotoneRounding.

Lemma gamma_monotone_rounded_witness :
  let fl := fun r : R => r in
  Rounded.gamma fl (Fin 0) (Some (Fin 3e8)) = Fin 1
  /\ (Fin 1 <=? Rounded.gamma fl (Fin 1) (Some (Fin 3e8))) = true
  /\ (Rounded.gamma fl (Fin 1) (Some (Fin 3e8))
      <=? Rounded.gamma fl (Fin 2) (Some (Fin 3e8))) = true.
Proof.
  intros fl.
  apply (gamma_monotone_rounded fl
           (fun x y H => H) (fun x => eq_refl) eq_refl 1 2 3e8).
  - lra.
  - rewrite !Rabs_pos_eq by lra. lra.
Defined.

Lemma projectile_range_bounded_rounded_witness :
  let fl := fun r : R => r in
  exists range top : R,
    Rounded.projectileRange fl sin (Fin 20) (Fin 60) (Some (Fin 9.8)) = Fin range
    /\ Rounded.div fl (Rounded.mul fl (Fin 20) (Fin 20)) (Fin 9.8) = Fin top
    /\ (Rabs range <= top)%R.
Proof.
  intros fl.
  apply (projectile_range_bounded_rounded fl
           (fun x y H => H) (fun x => eq_refl) eq_refl (fun x => eq_refl)
           sin SIN_bound 20 60 9.8).
  lra.
Defined.

Lemma exp_monotone (x y : R) : (x <= y)%R -> (exp x <= exp y)%R.
Proof.
  intros [Hlt | ->]; [apply Rlt_le, exp_increasing, Hlt | lra].
Qed.

Lemma tunnelingProbability_monotone_rounded_witness :
  let fl := fun r : R => r in
  exists T T_more_energy T_wider : R,
    Rounded.tunnelingProbability fl exp
      (Fin 1) (Fin 2) (Fin 1e-9) (Fin 9.109e-31) = Fin T
    /\ Rounded.tunnelingProbability fl exp
         (Fin 1.5) (Fin 2) (Fin 1e-9) (Fin 9.109e-31) = Fin T_more_energy
    /\ Rounded.tunnelingProbability fl exp
         (Fin 1) (Fin 2) (Fin 2e-9) (Fin 9.109e-31) = Fin T_wider
    /\ (0 <= T_wider <= T)%R /\ (T <= T_more_energy <= 1)%R.
Proof.
  intros fl.
  apply (tunnelingProbability_monotone_rounded fl
           (fun x y H => H) (fun x => eq_refl)
           exp exp_monotone (fun x => Rlt_le _ _ (exp_pos x)) exp_0
           ltac:(unfold fl; lra)
           1 1.5 2 1e-9 2e-9 9.109e-31); lra.
Defined.

(** * The collision response on doubles *)

Section Doubles.

Import PrimFloat.
Local Open Scope float_scope.

(** C2 as stated fails on the doubles the program computes with.  Two
    circles of unit mass and restitution 1 on the x axis, 0.8 apart, moving
    towards each other at 0.1 and 0.2: the normal is [(1, 0, 0)], and the
    velocities that [resolveCollision] returns are
    [-0.20000000000000004] and [0.10000000000000003] along it, not the
    exchanged [-0.2] and [0.1]. *)
Lemma swap_is_not_exact_on_doubles :
  let collision :=
    Binary64.checkCircleCollision Binary64.slow_left Binary64.slow_right in
  collision.(Binary64.Collision.isColliding) = true
  /\ collision.(Binary64.Collision.normal) = Binary64.Vector3.mk 1 0 0
  /\ Binary64.resolveCollision Binary64.slow_left Binary64.slow_right collision
     = Binary64.Velocities.mk
         (Binary64.Vec.mk (-0.20000000000000004) 0 (Some 0))
         (Binary64.Vec.mk 0.10000000000000003 0 (Some 0))
  /\ (-0.20000000000000004 =? -0.2) = false
  /\ (0.10000000000000003 =? 0.1) = false.
Proof. vm_compute. repeat split. Qed.

End Doubles.
